(** * nbodykit: PkmuResult, rebin, the transfer filters and the power.py driver

    A shallow embedding of
      - [src/nbodykit/pkmuresult.py]  ([rebin], class [PkmuResult]),
      - [src/nbodykit/plugins/transfer/TransferFunction.py]
        ([NormalizeDC], [RemoveDC], [AnisotropicCIC]),
      - [src/power.py]  ([AnisotropicCIC], [IsotropicCIC], [main]),
    together with the numpy operations these functions call.

    numpy scalars are reached through the interface [Numeric]; its instance
    [binary64] is IEEE 754 double precision (Rocq's primitive floats), the
    arithmetic the Python code runs on. *)

From Stdlib Require Import String.
From Stdlib Require Import List ZArith Lia Bool Arith PeanoNat.
From Stdlib Require Import Floats Uint63.
From Stdlib Require Import Reals Lra.
Import ListNotations.

Set Implicit Arguments.

(* ================================================================= *)
(** ** Scalars *)

Class Numeric (F : Type) : Type := {
  fzero : F;
  fone : F;
  fhalf : F;
  fadd : F -> F -> F;
  fsub : F -> F -> F;
  fmul : F -> F -> F;
  fdiv : F -> F -> F;
  fabs : F -> F;
  fsqrt : F -> F;
  feqb : F -> F -> bool;
  fltb : F -> F -> bool;
  fleb : F -> F -> bool;
  fis_nan : F -> bool;
  fis_finite : F -> bool;
  fof_nat : nat -> F
}.

Declare Scope num_scope.
Delimit Scope num_scope with num.
Infix "+" := fadd : num_scope.
Infix "-" := fsub : num_scope.
Infix "*" := fmul : num_scope.
Infix "/" := fdiv : num_scope.

(** numpy's float64. *)
#[export] Instance binary64 : Numeric float := {|
  fzero := 0%float;
  fone := 1%float;
  fhalf := 0.5%float;
  fadd := PrimFloat.add;
  fsub := PrimFloat.sub;
  fmul := PrimFloat.mul;
  fdiv := PrimFloat.div;
  fabs := PrimFloat.abs;
  fsqrt := PrimFloat.sqrt;
  feqb := PrimFloat.eqb;
  fltb := PrimFloat.ltb;
  fleb := PrimFloat.leb;
  fis_nan := PrimFloat.is_nan;
  fis_finite := PrimFloat.is_finite;
  fof_nat := fun n => PrimFloat.of_uint63 (Uint63.of_Z (Z.of_nat n))
|}.

(** The real numbers: the arithmetic the formulas are meant in, free of
    rounding and of non-finite values; it has [numpy.sin]. *)
#[export] Instance exact_real : Numeric R := {|
  fzero := 0%R;
  fone := 1%R;
  fhalf := (/ 2)%R;
  fadd := Rplus;
  fsub := Rminus;
  fmul := Rmult;
  fdiv := Rdiv;
  fabs := Rabs;
  fsqrt := sqrt;
  feqb := fun x y => if Req_dec_T x y then true else false;
  fltb := fun x y => if Rlt_dec x y then true else false;
  fleb := fun x y => if Rle_dec x y then true else false;
  fis_nan := fun _ => false;
  fis_finite := fun _ => true;
  fof_nat := INR
|}.

(* ================================================================= *)
(** ** Exceptions *)

Inductive exn_class : Type :=
  ValueError | IndexError | KeyError | TypeError | IOError.

(** The pieces a Python message is formatted from: literal text, the
    [repr] of a float, the decimal form of an integer. *)
Inductive fragment (F : Type) : Type :=
| Txt (s : string)
| Num (v : F)
| Int (z : Z).
Arguments Txt {F} s.
Arguments Num {F} v.
Arguments Int {F} z.

Record exn (F : Type) : Type := mkExn {
  exn_cls : exn_class;
  exn_msg : list (fragment F)
}.
Arguments mkExn {F} _ _.

Inductive result (F A : Type) : Type :=
| Ok (a : A)
| Raise (e : exn F).
Arguments Ok {F A} a.
Arguments Raise {F A} e.

Definition bind {F A B} (m : result F A) (k : A -> result F B) : result F B :=
  match m with
  | Ok a => k a
  | Raise e => Raise e
  end.

Notation "x <- m ;; k" := (bind m (fun x => k))
  (at level 61, m at next level, right associativity).

(** [try: body except Exception as e: handler(e)] *)
Definition try_except {F A} (body : result F A) (handler : exn F -> result F A)
  : result F A :=
  match body with
  | Ok a => Ok a
  | Raise e => handler e
  end.

Fixpoint mapM {F A B} (f : A -> result F B) (l : list A) : result F (list B) :=
  match l with
  | [] => Ok []
  | a :: l' => b <- f a ;; bs <- mapM f l' ;; Ok (b :: bs)
  end.

(* ================================================================= *)
(** ** Lists as 1-D arrays *)

Section Lists.
Context {A : Type}.

Fixpoint zipwith {B C} (f : A -> B -> C) (l : list A) (l' : list B) : list C :=
  match l, l' with
  | a :: t, b :: t' => f a b :: zipwith f t t'
  | _, _ => []
  end.

(** [l[inds]] for a boolean array [inds]. *)
Fixpoint select (inds : list bool) (l : list A) : list A :=
  match inds, l with
  | b :: inds', a :: l' =>
      if b then a :: select inds' l' else select inds' l'
  | _, _ => []
  end.

(** [l[i] = v] for [i] in range. *)
Fixpoint upd (i : nat) (v : A) (l : list A) : list A :=
  match l, i with
  | [], _ => []
  | _ :: t, O => v :: t
  | a :: t, S i' => a :: upd i' v t
  end.

Definition count (p : A -> bool) (l : list A) : nat :=
  length (filter p l).

(** Position of the first element satisfying [p]. *)
Fixpoint find_index (p : A -> bool) (l : list A) : option nat :=
  match l with
  | [] => None
  | a :: t => if p a then Some 0 else option_map S (find_index p t)
  end.

(** [l.reshape(n, m)] as the list of its rows. *)
Fixpoint chunks (n m : nat) (l : list A) : list (list A) :=
  match n with
  | O => []
  | S n' => firstn m l :: chunks n' m (skipn m l)
  end.

(** [l[1:-1]] *)
Definition inner (l : list A) : list A := removelast (tl l).

(** Are all neighbours related by [r]? *)
Fixpoint adjacent (r : A -> A -> bool) (l : list A) : bool :=
  match l with
  | a :: (b :: _) as t => r a b && adjacent r t
  | _ => true
  end.
End Lists.

(* ================================================================= *)
(** ** 2-D arrays, row-major *)

Record array2 (A : Type) : Type := mk2 {
  nrow : nat;
  ncol : nat;
  flat : list A
}.
Arguments mk2 {A} _ _ _.

Definition shape2 {A} (a : array2 A) : nat * nat := (nrow a, ncol a).

Definition wf2 {A} (a : array2 A) : Prop :=
  length (flat a) = nrow a * ncol a.

Definition shape_eqb (s t : nat * nat) : bool :=
  (fst s =? fst t) && (snd s =? snd t).

Definition has_shape {A} (a : array2 A) (s : nat * nat) : bool :=
  shape_eqb (shape2 a) s && (length (flat a) =? fst s * snd s).

Definition get2 {A} (d : A) (a : array2 A) (i j : nat) : A :=
  nth (i * ncol a + j) (flat a) d.

Definition map2d {A B} (f : A -> B) (a : array2 A) : array2 B :=
  mk2 (nrow a) (ncol a) (map f (flat a)).

Definition rows {A} (a : array2 A) : list (list A) :=
  chunks (nrow a) (ncol a) (flat a).

Definition of_rows {A} (m : nat) (rs : list (list A)) : array2 A :=
  mk2 (length rs) m (concat rs).

Definition full {A} (n m : nat) (v : A) : array2 A :=
  mk2 n m (repeat v (n * m)).

(* ================================================================= *)
(** ** The numpy functions the sources call *)

Section Numpy.
Context {F : Type} {NF : Numeric F}.

Definition raise {A} (c : exn_class) (m : list (fragment F)) : result F A :=
  Raise (mkExn c m).

(** [numpy.isfinite] *)
Definition isfinite (a : array2 F) : array2 bool := map2d fis_finite a.

(** [numpy.digitize(x, bins)] with [right=False]: for non-decreasing
    [bins] the [i] with [bins[i-1] <= v < bins[i]], that is the number of
    edges [<= v]; for non-increasing [bins] the number of edges [> v];
    an error when [bins] is neither. *)
Definition digitize (x : list F) (bins : list F) : result F (list nat) :=
  if adjacent fleb bins then
    Ok (map (fun v => count (fun e => fleb e v) bins) x)
  else if adjacent (fun a b => fleb b a) bins then
    Ok (map (fun v => count (fun e => fltb v e) bins) x)
  else
    raise ValueError
      [Txt "bins must be monotonically increasing or decreasing"].

(** [numpy.ravel_multi_index((d0, d1), (n0, n1))], C order, mode "raise". *)
Definition ravel_multi_index (dig : list nat * list nat) (ndims : nat * nat)
  : result F (list nat) :=
  if forallb (fun d => d <? fst ndims) (fst dig)
     && forallb (fun d => d <? snd ndims) (snd dig)
  then Ok (zipwith (fun d0 d1 => d0 * snd ndims + d1) (fst dig) (snd dig))
  else raise ValueError [Txt "invalid entry in coordinates array"].

(** [numpy.bincount(x, weights=w, minlength=m)]: [out[x[j]] += w[j]] for
    each [j] in turn, on an array of zeros of length
    [max(m, max(x) + 1)]. *)
Definition bincount_step (out : list F) (xw : nat * F) : list F :=
  upd (fst xw) (nth (fst xw) out fzero + snd xw)%num out.

Definition bincount (x : list nat) (w : list F) (minlength : nat) : list F :=
  fold_left bincount_step (combine x w)
    (repeat fzero
       (match x with
        | [] => minlength
        | _ => Nat.max minlength (S (list_max x))
        end)).

(** [numpy.linspace(start, stop, num)], endpoint included. *)
Definition linspace (start stop : F) (num : Z) : result F (list F) :=
  if (num <? 0)%Z then
    raise ValueError
      [Txt "Number of samples, "; Int num; Txt ", must be non-negative."]
  else
    match Z.to_nat num with
    | O => Ok []
    | S O => Ok [start]
    | S n =>
        let step := ((stop - start) / fof_nat n)%num in
        Ok (map (fun i => (fof_nat i * step + start)%num) (seq 0 n) ++ [stop])
    end.

(** [a.argmin()] of a 1-D float array: the first NaN if there is one,
    else the first smallest element; an error on an empty array. *)
Fixpoint argmin_from (mp : F) (min_ind : nat) (i : nat) (l : list F) : nat :=
  match l with
  | [] => min_ind
  | x :: t =>
      if negb (fleb mp x) then
        if fis_nan x then i else argmin_from x i (S i) t
      else argmin_from mp min_ind (S i) t
  end.

Definition argmin (l : list F) : result F nat :=
  match l with
  | [] => raise ValueError [Txt "attempt to get argmin of an empty sequence"]
  | x :: t => if fis_nan x then Ok 0 else Ok (argmin_from x 0 1 t)
  end.

(** [list(l).index(val)] *)
Definition list_index (l : list F) (val : F) : result F nat :=
  match find_index (fun c => feqb c val) l with
  | Some i => Ok i
  | None => raise ValueError [Num val; Txt " is not in list"]
  end.
End Numpy.

(* ================================================================= *)
(** ** pkmuresult.py *)

(** A [numpy.ma.mrecords.MaskedRecords] of 2-D shape: the raw array of every
    field, and the mask, which [PkmuResult] sets the same for all fields. *)
Record mrecords (F : Type) : Type := mkRec {
  fields : list (string * array2 F);
  mrec_mask : array2 bool
}.
Arguments mkRec {F} _ _.

(** The recarray [index] with its two fields. *)
Record index_rec (F : Type) : Type := mkIndex {
  ix_k_center : array2 F;
  ix_mu_center : array2 F
}.
Arguments mkIndex {F} _ _.

(** A metadata value handed to the constructor as a keyword argument. *)
Inductive meta (F : Type) : Type :=
| MFloat (v : F)
| MInt (z : Z)
| MStr (s : string)
| MArray (a : list F).
Arguments MFloat {F} v.
Arguments MInt {F} z.
Arguments MStr {F} s.
Arguments MArray {F} a.

Record PkmuResult (F : Type) : Type := mkPkmu {
  columns : list string;
  kedges : list F;
  muedges : list F;
  data : mrecords F;
  index : index_rec F;
  force_index_match : bool;
  _metadata : list string;
  attrs : list (string * meta F)
}.
Arguments mkPkmu {F} _ _ _ _ _ _ _ _.

(** The two axes, [0] for [k] and [1] for [mu]. *)
Inductive axis : Type := ax0 | ax1.

Definition pick {A} (i : axis) (p : A * A) : A :=
  match i with ax0 => fst p | ax1 => snd p end.

Definition put {A} (i : axis) (v : A) (p : A * A) : A * A :=
  match i with ax0 => (v, snd p) | ax1 => (fst p, v) end.

Definition axis_len (i : axis) (s : nat * nat) : nat := pick i s.

Section Pkmu.
Context {F : Type} {NF : Numeric F}.

Definition lookup {A} (name : string) (d : list (string * A)) : option A :=
  option_map snd (find (fun p => String.eqb (fst p) name) d).

(** [data.shape] *)
Definition mrec_shape (d : mrecords F) : nat * nat := shape2 (mrec_mask d).

(** One field of [rebin]'s loop body: the weighted mean of the unmasked
    cells falling in each new bin, [(valsum / N).reshape(ndims)[1:-1, 1:-1]]. *)
Definition rebin_field (multi_index : list nat) (ndims : nat * nat)
    (mask : array2 bool) (weights : array2 F) (col : array2 F) : array2 F :=
  let inds := map negb (flat mask) in
  let mi := select inds multi_index in
  let N := bincount mi (select inds (flat weights)) (fst ndims * snd ndims) in
  let valsum :=
    bincount mi
      (zipwith fmul (select inds (flat col)) (select inds (flat weights)))
      (fst ndims * snd ndims) in
  of_rows (snd ndims - 2)
    (inner (map inner (chunks (fst ndims) (snd ndims) (zipwith fdiv valsum N)))).

Definition rebin (index : array2 F * array2 F) (edges : list F * list F)
    (data : mrecords F) (weights : array2 F)
  : result F (list (string * array2 F)) :=
  if negb (shape_eqb (mrec_shape data) (shape2 weights)) then
    raise ValueError [Txt "data and weights do not have same shape in rebin"]
  else
    dig0 <- digitize (flat (fst index)) (fst edges) ;;
    dig1 <- digitize (flat (snd index)) (snd edges) ;;
    let ndims := (length (fst edges) + 1, length (snd edges) + 1) in
    multi_index <- ravel_multi_index (dig0, dig1) ndims ;;
    Ok (map (fun nc =>
               (fst nc,
                rebin_field multi_index ndims (mrec_mask data) weights (snd nc)))
            (fields data)).

(** [0.5*(edges[1:]+edges[:-1])] *)
Definition centers (edges : list F) : list F :=
  zipwith (fun hi lo => (fhalf * (hi + lo))%num) (tl edges) (removelast edges).

(** Does every bin center lie strictly between the two edges of its
    bin? *)
Fixpoint inside_bins (edges : list F) : bool :=
  match edges with
  | lo :: (hi :: _) as t =>
      let c := (fhalf * (hi + lo))%num in
      fltb lo c && fltb c hi && inside_bins t
  | _ => true
  end.

(** [mask = logical_or(mask, ~isfinite(col))], which needs equal shapes. *)
Definition mask_or (mask : array2 bool) (col : array2 F)
  : result F (array2 bool) :=
  if has_shape col (shape2 mask) then
    Ok (mk2 (nrow mask) (ncol mask)
            (zipwith orb (flat mask) (map negb (flat (isfinite col)))))
  else raise ValueError [Txt "operands could not be broadcast together"].

Fixpoint mask_all (mask : array2 bool) (cols : list (string * array2 F))
  : result F (array2 bool) :=
  match cols with
  | [] => Ok mask
  | nc :: cols' => m <- mask_or mask (snd nc) ;; mask_all m cols'
  end.

Definition __init__ (kedges muedges : list F)
    (data : list (string * array2 F)) (force_index_match : bool)
    (kwargs : list (string * meta F)) : result F (PkmuResult F) :=
  match kedges, muedges with
  | [], _ | _, [] =>
      raise ValueError [Txt "negative dimensions are not allowed"]
  | _ :: _, _ :: _ =>
      let Nk := length kedges - 1 in
      let Nmu := length muedges - 1 in
      mask <- mask_all (full Nk Nmu false) data ;;
      match data with
      | [] => raise IndexError [Txt "list index out of range"]
      | _ :: _ =>
          let k_center := centers kedges in
          let mu_center := centers muedges in
          Ok (mkPkmu (map fst data) kedges muedges
                (mkRec data mask)
                (mkIndex
                   (mk2 Nk Nmu (flat_map (fun c => repeat c Nmu) k_center))
                   (mk2 Nk Nmu (concat (repeat mu_center Nk))))
                force_index_match
                (map fst kwargs) kwargs)
      end
  end.

Definition Nk (self : PkmuResult F) : nat := fst (mrec_shape (data self)).
Definition Nmu (self : PkmuResult F) : nat := snd (mrec_shape (data self)).

(** The [bins] argument of [reindex_k] and [reindex_mu]. *)
Inductive bins_arg : Type :=
| BinsInt (n : Z)
| BinsEdges (e : list F).

(** Their [weights] argument. *)
Inductive weights_arg : Type :=
| WNone
| WName (name : string)
| WArray (w : array2 F).

Definition too_many_bins {A} (N_old : nat) : result F A :=
  raise ValueError
    [Txt "Can only reindex into fewer than "; Int (Z.of_nat N_old); Txt " bins"].

Definition _reindex (self : PkmuResult F) (i : axis)
    (index : array2 F * array2 F) (edges : list F * list F)
    (bins : bins_arg) (weights : weights_arg) : result F (PkmuResult F) :=
  let N_old := axis_len i (shape2 (pick i index)) in
  bins <-
    match bins with
    | BinsInt n =>
        if (Z.of_nat N_old <=? n)%Z then too_many_bins N_old
        else
          match pick i edges with
          | [] => raise IndexError [Txt "index 0 is out of bounds"]
          | e0 :: _ => linspace e0 (last (pick i edges) e0) (n + 1)
          end
    | BinsEdges e =>
        if N_old <=? length e then too_many_bins N_old else Ok e
    end ;;
  weights <-
    match weights with
    | WNone => Ok (full (Nk self) (Nmu self) fone)
    | WName name =>
        if existsb (String.eqb name) (columns self) then
          match lookup name (fields (data self)) with
          | Some w => Ok w
          | None => raise ValueError [Txt "no field of name "; Txt name]
          end
        else
          raise ValueError
            [Txt "Cannot weight by `"; Txt name; Txt "`; no such column"]
    | WArray w => Ok w
    end ;;
  let edges := put i bins edges in
  new_data <- rebin index edges (data self) weights ;;
  __init__ (fst edges) (snd edges) new_data (force_index_match self) [].

Definition reindex_mu (self : PkmuResult F) (bins : bins_arg)
    (weights : weights_arg) : result F (PkmuResult F) :=
  let index := (ix_k_center (index self), ix_mu_center (index self)) in
  let edges := (kedges self, muedges self) in
  _reindex self ax1 index edges bins weights.

Definition reindex_k (self : PkmuResult F) (bins : bins_arg)
    (weights : weights_arg) : result F (PkmuResult F) :=
  let index := (ix_k_center (index self), ix_mu_center (index self)) in
  let edges := (kedges self, muedges self) in
  _reindex self ax0 index edges bins weights.
End Pkmu.

(* ----------------------------------------------------------------- *)
(** *** Basic indexing of a 2-D array with integers and slices *)

(** One entry of an index tuple once it holds integers only. *)
Inductive item : Type :=
| IInt (z : Z)
| ISlice (start stop : option Z).

(** What indexing returns: an element, a 1-D or a 2-D array. *)
Inductive view (A : Type) : Type :=
| VScalar (a : A)
| VVector (l : list A)
| VMatrix (m : array2 A).
Arguments VScalar {A} a.
Arguments VVector {A} l.
Arguments VMatrix {A} m.

Section Indexing.
Context {F : Type} {NF : Numeric F}.

(** An integer index on an axis of size [n]: negative values count from
    the end, anything outside [-n, n) is an error. *)
Definition norm_index (ax : Z) (n : nat) (z : Z) : result F nat :=
  if ((0 <=? z) && (z <? Z.of_nat n))%Z then Ok (Z.to_nat z)
  else if ((- Z.of_nat n <=? z) && (z <? 0))%Z then Ok (Z.to_nat (z + Z.of_nat n))
  else raise IndexError
         [Txt "index "; Int z; Txt " is out of bounds for axis "; Int ax;
          Txt " with size "; Int (Z.of_nat n)].

(** [slice(start, stop).indices(n)], step 1. *)
Definition clip (n : nat) (z : Z) : nat :=
  if (z <? 0)%Z then Z.to_nat (Z.max (z + Z.of_nat n) 0)
  else Nat.min (Z.to_nat z) n.

Definition slice_positions (n : nat) (start stop : option Z) : list nat :=
  let lo := match start with None => 0 | Some z => clip n z end in
  let hi := match stop with None => n | Some z => clip n z end in
  seq lo (hi - lo).

Definition getitem2 {A} (d : A) (a : array2 A) (k0 k1 : item)
  : result F (view A) :=
  match k0, k1 with
  | IInt z0, IInt z1 =>
      i <- norm_index 0 (nrow a) z0 ;;
      j <- norm_index 1 (ncol a) z1 ;;
      Ok (VScalar (get2 d a i j))
  | IInt z0, ISlice s1 e1 =>
      i <- norm_index 0 (nrow a) z0 ;;
      Ok (VVector (map (get2 d a i) (slice_positions (ncol a) s1 e1)))
  | ISlice s0 e0, IInt z1 =>
      j <- norm_index 1 (ncol a) z1 ;;
      Ok (VVector (map (fun i => get2 d a i j) (slice_positions (nrow a) s0 e0)))
  | ISlice s0 e0, ISlice s1 e1 =>
      let rs := slice_positions (nrow a) s0 e0 in
      let cs := slice_positions (ncol a) s1 e1 in
      Ok (VMatrix (mk2 (length rs) (length cs)
                     (flat_map (fun i => map (get2 d a i) cs) rs)))
  end.
End Indexing.

(** What indexing a masked recarray returns: the selection of every field
    and of the mask. *)
Record mview (F : Type) : Type := mkView {
  mv_fields : list (string * view F);
  mv_mask : view bool
}.
Arguments mkView {F} _ _.

(** A bin given by position or by the value of its center. *)
Inductive bin_ref (F : Type) : Type :=
| ByPos (z : Z)
| ByVal (v : F).
Arguments ByPos {F} z.
Arguments ByVal {F} v.

(** One entry of the tuple handed to [__getitem__]: a bin, or a slice whose
    bounds are [None] or bins. *)
Inductive subkey (F : Type) : Type :=
| SRef (r : bin_ref F)
| SSlice (start stop : option (bin_ref F)) (step : option Z).
Arguments SRef {F} r.
Arguments SSlice {F} start stop step.

(** The keys of [__getitem__]: a tuple, or a key numpy receives as it is
    (an integer, a field name, a float, a slice). *)
Inductive key (F : Type) : Type :=
| KTuple (l : list (subkey F))
| KInt (z : Z)
| KField (name : string)
| KFloat (v : F)
| KSlice (start stop : option (bin_ref F)).
Arguments KTuple {F} l.
Arguments KInt {F} z.
Arguments KField {F} name.
Arguments KFloat {F} v.
Arguments KSlice {F} start stop.

(** The [name] argument of [_get_index]. *)
Inductive name_arg : Type :=
| NmInt (n : nat)
| NmStr (s : string).

Section PkmuIndexing.
Context {F : Type} {NF : Numeric F}.

(** [data[k0, k1]] on a masked recarray. *)
Definition mrec_getitem2 (d : mrecords F) (k0 k1 : item) : result F (mview F) :=
  fs <- mapM (fun nc => v <- getitem2 fzero (snd nc) k0 k1 ;; Ok (fst nc, v))
             (fields d) ;;
  m <- getitem2 false (mrec_mask d) k0 k1 ;;
  Ok (mkView fs m).

(** [data[key]] for a key that holds integers, slices and names only. *)
Definition mrec_getitem (d : mrecords F) (k : list item + Z + string)
  : result F (mview F) :=
  match k with
  | inl (inl [k0; k1]) => mrec_getitem2 d k0 k1
  | inl (inl _) => raise IndexError [Txt "too many indices for array"]
  | inl (inr z) => mrec_getitem2 d (IInt z) (ISlice None None)
  | inr name =>
      match lookup name (fields d) with
      | Some col => Ok (mkView [(name, VMatrix col)] (VMatrix (mrec_mask d)))
      | None => raise ValueError [Txt "no field of name "; Txt name]
      end
  end.

Definition as_vector {A} (v : view A) : list A :=
  match v with
  | VVector l => l
  | VScalar a => [a]
  | VMatrix m => flat m
  end.

(** [self.index.k_center[:,0]] *)
Definition k_center (self : PkmuResult F) : result F (list F) :=
  v <- getitem2 fzero (ix_k_center (index self)) (ISlice None None) (IInt 0) ;;
  Ok (as_vector v).

(** [self.index.mu_center[0,:]] *)
Definition mu_center (self : PkmuResult F) : result F (list F) :=
  v <- getitem2 fzero (ix_mu_center (index self)) (IInt 0) (ISlice None None) ;;
  Ok (as_vector v).

Definition is_mu (name : name_arg) : bool :=
  match name with
  | NmInt n => n =? 1
  | NmStr s => String.eqb s "mu"
  end.

Definition name_fragment (name : name_arg) : fragment F :=
  match name with
  | NmInt n => Int (Z.of_nat n)
  | NmStr s => Txt s
  end.

Definition _get_index (self : PkmuResult F) (name : name_arg) (val : F)
  : result F nat :=
  kc <- k_center self ;;
  index <- (if is_mu name then mu_center self else Ok kc) ;;
  if force_index_match self then
    argmin (map (fun c => fabs (c - val)%num) index)
  else
    try_except (list_index index val)
      (fun e =>
         raise IndexError
           ([Txt "error converting "; name_fragment name;
             Txt " index; try setting "; Txt "`force_index_match=True`: "]
            ++ exn_msg e)).

(** A bound of a slice, or a lone entry: integers and [None] pass,
    anything else is converted by [_get_index]. *)
Definition resolve (self : PkmuResult F) (i : nat) (r : bin_ref F)
  : result F Z :=
  match r with
  | ByPos z => Ok z
  | ByVal v => n <- _get_index self (NmInt i) v ;; Ok (Z.of_nat n)
  end.

Definition resolve_bound (self : PkmuResult F) (i : nat)
    (b : option (bin_ref F)) : result F (option Z) :=
  match b with
  | None => Ok None
  | Some r => z <- resolve self i r ;; Ok (Some z)
  end.

Definition resolve_subkey (self : PkmuResult F) (i : nat) (s : subkey F)
  : result F item :=
  match s with
  | SSlice start stop _ =>
      lo <- resolve_bound self i start ;;
      hi <- resolve_bound self i stop ;;
      Ok (ISlice lo hi)
  | SRef r => z <- resolve self i r ;; Ok (IInt z)
  end.

Fixpoint resolve_from (self : PkmuResult F) (i : nat) (l : list (subkey F))
  : result F (list item) :=
  match l with
  | [] => Ok []
  | s :: l' =>
      k <- resolve_subkey self i s ;;
      ks <- resolve_from self (S i) l' ;;
      Ok (k :: ks)
  end.

(** A bound of a slice numpy receives as it is: an integer or [None]. *)
Definition bare_bound (b : option (bin_ref F)) : result F (option Z) :=
  match b with
  | None => Ok None
  | Some (ByPos z) => Ok (Some z)
  | Some (ByVal _) =>
      raise TypeError
        [Txt "slice indices must be integers or None or have an __index__ method"]
  end.

(** The [try] block of [__getitem__].  Only the entries of a tuple are
    looked up among the bin centers: any other key goes to [self.data[key]]
    as it is, and numpy takes no float for an index or for the bound of a
    slice (releases before 1.12 cut the float down to an integer, with a
    warning; neither looks it up among the centers). *)
Definition getitem_body (self : PkmuResult F) (k : key F) : result F (mview F) :=
  match k with
  | KTuple l =>
      if negb (length l =? 2) then
        raise IndexError [Txt "too many indices for array"]
      else
        new_key <- resolve_from self 0 l ;;
        mrec_getitem (data self) (inl (inl new_key))
  | KInt z => mrec_getitem (data self) (inl (inr z))
  | KField name => mrec_getitem (data self) (inr name)
  | KFloat _ =>
      raise IndexError
        [Txt "only integers, slices (`:`), ellipsis (`...`), numpy.newaxis (`None`) and integer or boolean arrays are valid indices"]
  | KSlice start stop =>
      lo <- bare_bound start ;;
      hi <- bare_bound stop ;;
      mrec_getitem2 (data self) (ISlice lo hi) (ISlice None None)
  end.

Definition __getitem__ (self : PkmuResult F) (k : key F) : result F (mview F) :=
  try_except (getitem_body self k)
    (fun e =>
       raise KeyError (Txt "Key not understood in __getitem__: " :: exn_msg e)).

(** [Pk(mu)]: the slice [data[:,mu]]. *)
Definition Pk (self : PkmuResult F) (mu : bin_ref F) : result F (mview F) :=
  mu <- match mu with
        | ByPos z => Ok z
        | ByVal v => n <- _get_index self (NmStr "mu") v ;; Ok (Z.of_nat n)
        end ;;
  mrec_getitem (data self) (inl (inl [ISlice None None; IInt mu])).

(** [Pmu(k)]: the slice [data[k,:]]. *)
Definition Pmu (self : PkmuResult F) (k : bin_ref F) : result F (mview F) :=
  k <- match k with
       | ByPos z => Ok z
       | ByVal v => n <- _get_index self (NmStr "k") v ;; Ok (Z.of_nat n)
       end ;;
  mrec_getitem (data self) (inl (inl [IInt k; ISlice None None])).
End PkmuIndexing.


Section Nearest.
Context {F : Type} {NF : Numeric F}.


End Nearest.

(** How an attribute lookup ends: with a value, with an exception of the
    classes above, or with an [AttributeError]. *)
Inductive attr_result (F : Type) : Type :=
| AttrOk (v : mview F)
| AttrRaise (e : exn F)
| AttributeError (msg : string).
Arguments AttrOk {F} v.
Arguments AttrRaise {F} e.
Arguments AttributeError {F} msg.

Section GetAttr.
Context {F : Type} {NF : Numeric F}.

(** [__getattr__(self, key)]; [object] has no [__getattr__], so the second
    branch fails on looking it up. *)
Definition __getattr__ (self : PkmuResult F) (key : string) : attr_result F :=
  if existsb (String.eqb key) (columns self) then
    match mrec_getitem (data self) (inr key) with
    | Ok v => AttrOk v
    | Raise e => AttrRaise e
    end
  else AttributeError "type object 'object' has no attribute '__getattr__'".
End GetAttr.

(* ================================================================= *)
(** ** N-d arrays, row-major, for the Fourier-space field *)

Record ndarray (A : Type) : Type := mkNd {
  shape : list nat;
  elems : list A
}.
Arguments mkNd {A} _ _.

Definition size_of (shape : list nat) : nat := fold_right Nat.mul 1 shape.

Definition wf_nd {A} (a : ndarray A) : Prop :=
  length (elems a) = size_of (shape a).

(** The coordinate along axis [d] of the element at flat position [p]. *)
Definition coord (shape : list nat) (d : nat) (p : nat) : nat :=
  (p / size_of (skipn (S d) shape)) mod nth d shape 1.

(** The flat position of the multi-index [ind], row-major. *)
Fixpoint ravel (shape ind : list nat) : nat :=
  match ind, shape with
  | i :: ind', n :: shape' => i * size_of shape' + ravel shape' ind'
  | _, _ => 0
  end.

(** Broadcasting an array of shape [st] against one of shape [sf] that
    keeps its shape (the target of an in-place operation): the shapes are
    aligned at their last axes, and every extent of [st] is one or that of
    [sf]. *)
Definition broadcastable (sf st : list nat) : bool :=
  (length st <=? length sf)
  && forallb (fun j => (nth j st 1 =? 1)
                       || (nth j st 1 =? nth (length sf - length st + j) sf 1))
             (seq 0 (length st)).

(** The flat position, in the array of shape [st], of the entry that
    broadcasting pairs with the entry at flat position [p] of the array of
    shape [sf]: an axis of extent one is repeated, the others are followed. *)
Definition broadcast_pos (sf st : list nat) (p : nat) : nat :=
  ravel st
    (map (fun j => if nth j st 1 =? 1 then 0
                   else coord sf (length sf - length st + j) p)
         (seq 0 (length st))).

Section NdArray.
Context {F : Type} {NF : Numeric F} {A : Type}.

(** Where the integer tuple [ind] points in an array of shape [shape]:
    the first flat position and the number of elements it covers (one when
    the tuple has an entry for every axis). *)
Fixpoint locate (shape ind : list nat) (acc : nat) : result F (nat * nat) :=
  match ind, shape with
  | [], rest => Ok (acc * size_of rest, size_of rest)
  | i :: ind', n :: shape' =>
      if i <? n then locate shape' ind' (acc * n + i)
      else raise IndexError
             [Txt "index "; Int (Z.of_nat i); Txt " is out of bounds"]
  | _ :: _, [] => raise IndexError [Txt "too many indices for array"]
  end.

Definition set_block (start len : nat) (v : A) (l : list A) : list A :=
  map (fun px => if (start <=? fst px) && (fst px <? start + len)
                 then v else snd px)
      (combine (seq 0 (length l)) l).

(** [a[ind] = v] for a tuple of integers. *)
Definition setitem (a : ndarray A) (ind : list nat) (v : A)
  : result F (ndarray A) :=
  sl <- locate (shape a) ind 0 ;;
  Ok (mkNd (shape a) (set_block (fst sl) (snd sl) v (elems a))).
End NdArray.

(** Broadcasting two operands: the shape with fewer axes is padded with
    ones on the left; on every axis the extents agree or one of them is
    one, and the result has the larger. *)
Definition pad_shape (n : nat) (s : list nat) : list nat :=
  repeat 1 (n - length s) ++ s.

Fixpoint broadcast_same (a b : list nat) : option (list nat) :=
  match a, b with
  | [], [] => Some []
  | x :: a', y :: b' =>
      match broadcast_same a' b' with
      | Some s =>
          if x =? y then Some (x :: s)
          else if x =? 1 then Some (y :: s)
          else if y =? 1 then Some (x :: s)
          else None
      | None => None
      end
  | _, _ => None
  end.

Definition broadcast_shape (a b : list nat) : option (list nat) :=
  let n := Nat.max (length a) (length b) in
  broadcast_same (pad_shape n a) (pad_shape n b).

Section NdArith.
Context {F : Type} {NF : Numeric F}.

(** [a + b] *)
Definition add_nd (a b : ndarray F) : result F (ndarray F) :=
  match broadcast_shape (shape a) (shape b) with
  | Some s =>
      Ok (mkNd s
            (map (fun p =>
                    (nth (broadcast_pos s (shape a) p) (elems a) fzero
                     + nth (broadcast_pos s (shape b) p) (elems b) fzero)%num)
                 (seq 0 (size_of s))))
  | None => raise ValueError [Txt "operands could not be broadcast together"]
  end.

(** [a ** 2] *)
Definition square_nd (a : ndarray F) : ndarray F :=
  mkNd (shape a) (map (fun x => (x * x)%num) (elems a)).
End NdArith.

(* ================================================================= *)
(** ** TransferFunction.py *)

(** The particle mesh [pm] comes from a library outside the sources; of
    it the filters read [pm.w], one array of angular frequencies per axis
    of the field.  The sources divide the field by these arrays in place
    ([complex[:] /= tmp]) and index them as [w[0][row]] and [wi[0]]
    ([IsotropicCIC] of power.py), so an array is not flat: it has a shape
    of its own, which is kept here, and the numpy operations below act on
    it as they do on any array. *)
Record ParticleMesh (F : Type) : Type := mkPm {
  pm_w : list (ndarray F);
  pm_BoxSize : list F;
  pm_Nmesh : nat
}.
Arguments mkPm {F} _ _ _.

Module Transfer.
Section Filters.
Context {F : Type} {NF : Numeric F}.
(** [numpy.sin] *)
Variable fsin : F -> F.

(** A complex number, and its division by a real one. *)
Definition complex : Type := (F * F)%type.
Definition czero : complex := (fzero, fzero).
Definition cdiv (c : complex) (t : F) : complex :=
  ((fst c / t)%num, (snd c / t)%num).

(** [(wi == 0).nonzero()[0][0]]: [nonzero] lists the entries that hold in
    row-major order, one array of coordinates per axis; [[0][0]] is the
    coordinate on the first axis of the first of them. *)
Definition first_zero (wi : ndarray F) : option nat :=
  option_map (coord (shape wi) 0)
             (find_index (fun x => feqb x fzero) (elems wi)).

(** The loop of [RemoveDC.__call__]: [None] when it returns early, else
    the tuple [ind].  Past the test [(wi != 0).all()] some entry is zero. *)
Fixpoint zero_index (w : list (ndarray F)) (ind : list nat) : option (list nat) :=
  match w with
  | [] => Some ind
  | wi :: w' =>
      if forallb (fun x => negb (feqb x fzero)) (elems wi) then None
      else
        match first_zero wi with
        | Some i => zero_index w' (ind ++ [i])
        | None => None
        end
  end.

Definition RemoveDC (pm : ParticleMesh F) (field : ndarray complex)
  : result F (ndarray complex) :=
  match zero_index (pm_w pm) [] with
  | None => Ok field
  | Some ind => setitem field ind czero
  end.

(** [(1 - 2. / 3 * numpy.sin(0.5 * wi) ** 2) ** 0.5] *)
Definition cic_kernel (wi : F) : F :=
  let s := fsin (fhalf * wi)%num in
  fsqrt (fone - (fof_nat 2 / fof_nat 3) * (s * s))%num.

(** [complex[:] /= tmp]: [tmp] is broadcast to the shape of the field. *)
Definition idiv (field : ndarray complex) (tmp : ndarray F)
  : result F (ndarray complex) :=
  if broadcastable (shape field) (shape tmp) then
    Ok (mkNd (shape field)
          (map (fun pc =>
                  cdiv (snd pc)
                       (nth (broadcast_pos (shape field) (shape tmp) (fst pc))
                            (elems tmp) fone))
               (combine (seq 0 (length (elems field))) (elems field))))
  else raise ValueError [Txt "operands could not be broadcast together"].

Fixpoint cic_loop (w : list (ndarray F)) (field : ndarray complex)
  : result F (ndarray complex) :=
  match w with
  | [] => Ok field
  | wi :: w' =>
      let tmp := mkNd (shape wi) (map cic_kernel (elems wi)) in
      field' <- idiv field tmp ;;
      cic_loop w' field'
  end.

(** [AnisotropicCIC.__call__(self, pm, complex)] *)
Definition AnisotropicCIC (pm : ParticleMesh F) (field : ndarray complex)
  : result F (ndarray complex) :=
  cic_loop (pm_w pm) field.
End Filters.

Section Normalize.
Context {F : Type} {NF : Numeric F}.
(** [numpy.abs] of a complex number, and [pm.comm.allreduce]. *)
Variable cabs : @complex F -> F.
Variable allreduce : ndarray F -> ndarray F.

(** [a[ind]] for a tuple of integers: the block it points at, of the shape
    the axes without an index have. *)
Definition getitem_nd {A} (a : ndarray A) (ind : list nat) : result F (ndarray A) :=
  sl <- locate (F := F) (shape a) ind 0 ;;
  Ok (mkNd (skipn (length ind) (shape a))
           (firstn (snd sl) (skipn (fst sl) (elems a)))).

(** [NormalizeDC.__call__(self, pm, complex)]: the loop is that of
    [RemoveDC], with [found = False] where [RemoveDC] returns; [value] is
    the float [0.] when nothing was found. *)
Definition NormalizeDC (pm : ParticleMesh F) (field : ndarray (@complex F))
  : result F (ndarray (@complex F)) :=
  value <- match zero_index (pm_w pm) [] with
           | Some ind =>
               blk <- getitem_nd field ind ;;
               Ok (mkNd (shape blk) (map cabs (elems blk)))
           | None => Ok (mkNd [] [fzero])
           end ;;
  idiv field (allreduce value).
End Normalize.
End Transfer.

(* ================================================================= *)
(** ** power.py *)

Module Power.
Section Driver.
Context {F : Type} {NF : Numeric F}.
Variable fsin : F -> F.

(** [AnisotropicCIC(comm, complex, w)] *)
Definition AnisotropicCIC (field : ndarray (@Transfer.complex F))
    (w : list (ndarray F)) : result F (ndarray (@Transfer.complex F)) :=
  Transfer.cic_loop fsin w field.

(** A complex number times a real one. *)
Definition cmul (c : @Transfer.complex F) (t : F) : @Transfer.complex F :=
  ((fst c * t)%num, (snd c * t)%num).

(** The literal [0.666666667]: the quotient of 666666667 by 10^9, both
    built without rounding, which the division rounds as the literal is
    rounded. *)
Definition c0666666667 : F :=
  let k := fof_nat 1000 in
  ((fof_nat 666 * (k * k) + fof_nat 666 * k + fof_nat 667) / (k * k * k))%num.

(** [(1.0 - 0.666666667 * numpy.sin(scratch * 0.5) ** 2) ** 0.5] *)
Definition iso_kernel (scratch : F) : F :=
  let s := fsin (scratch * fhalf)%num in
  fsqrt (fone - c0666666667 * (s * s))%num.

(** [scratch] for one row: [w[0][row] ** 2], to which [wi[0] ** 2] is
    added for each of the other arrays in turn. *)
Definition iso_scratch (w : list (ndarray F)) (row : nat) : result F (ndarray F) :=
  match w with
  | [] => raise IndexError [Txt "list index out of range"]
  | w0 :: rest =>
      b <- Transfer.getitem_nd w0 [row] ;;
      fold_left (fun acc wi =>
                   scratch <- acc ;;
                   wi0 <- Transfer.getitem_nd wi [0] ;;
                   add_nd scratch (square_nd wi0))
                rest (Ok (square_nd b))
  end.

(** [complex[row] *= tmp]: [tmp] is broadcast to the shape of the row. *)
Definition imul_row (field : ndarray (@Transfer.complex F)) (row : nat)
    (tmp : ndarray F) : result F (ndarray (@Transfer.complex F)) :=
  sl <- locate (F := F) (shape field) [row] 0 ;;
  let sub := skipn 1 (shape field) in
  if broadcastable sub (shape tmp) then
    Ok (mkNd (shape field)
          (map (fun pc =>
                  if (fst sl <=? fst pc) && (fst pc <? fst sl + snd sl)
                  then cmul (snd pc)
                         (nth (broadcast_pos sub (shape tmp) (fst pc - fst sl))
                              (elems tmp) fone)
                  else snd pc)
               (combine (seq 0 (length (elems field))) (elems field))))
  else raise ValueError [Txt "operands could not be broadcast together"].

Fixpoint iso_rows (w : list (ndarray F)) (rows : list nat)
    (field : ndarray (@Transfer.complex F))
  : result F (ndarray (@Transfer.complex F)) :=
  match rows with
  | [] => Ok field
  | row :: rows' =>
      scratch <- iso_scratch w row ;;
      let tmp := mkNd (shape scratch) (map iso_kernel (elems scratch)) in
      field' <- imul_row field row tmp ;;
      iso_rows w rows' field'
  end.

(** [IsotropicCIC(comm, complex, w)] *)
Definition IsotropicCIC (field : ndarray (@Transfer.complex F))
    (w : list (ndarray F)) : result F (ndarray (@Transfer.complex F)) :=
  match shape field with
  | [] => raise IndexError [Txt "tuple index out of range"]
  | n0 :: _ => iso_rows w (seq 0 n0) field
  end.

(** An input: its identity (what [!=] compares), its box and the total
    that painting it returns. *)
Record DataSource : Type := mkSource {
  ds_id : nat;
  BoxSize : list F;
  ds_Ntot : F
}.

Record namespace : Type := mkNs {
  mode : string;
  Nmesh : nat;
  output : string;
  inputs : list DataSource;
  binshift : F;
  remove_cic : string;
  remove_shotnoise : bool;
  Nmu : nat;
  los : string;
  dk : option F;
  kmin : F;
  multipoles : option (list Z)
}.

Inductive filter : Type :=
| NormalizeDC_f | RemoveDC_f | AnisotropicCIC_f | IsotropicCIC_f.

(** What [main] does to the world, call by call. *)
Inductive event : Type :=
| EPrint (s : string)
| ENewMesh (box : list F) (nmesh : nat)
| EPaint (input : DataSource)
| ER2C
| ETransfer (chain : list filter)
| ECopy
| EMeasurePower (nmu : nat) (shotnoise : F)
| EMeasurePoles (ells : list Z)
| EWrite (mode : string) (output : string) (N1 N2 shot_noise : F).

(** Painting, transforming, filtering and binning are the computation. *)
Definition is_computation (e : event) : bool :=
  match e with
  | EPaint _ | ER2C | ETransfer _ | EMeasurePower _ _ | EMeasurePoles _ => true
  | _ => false
  end.

(** State and error: the trace so far is threaded, an exception stops. *)
Definition M (A : Type) : Type := list event -> list event * result F A.

Definition ret {A} (a : A) : M A := fun tr => (tr, Ok a).
Definition throw {A} (c : exn_class) (m : list (fragment F)) : M A :=
  fun tr => (tr, raise c m).
Definition emit (e : event) : M unit := fun tr => (tr ++ [e], Ok tt).
Definition mbind {A B} (m : M A) (k : A -> M B) : M B :=
  fun tr =>
    match m tr with
    | (tr', Ok a) => k a tr'
    | (tr', Raise e) => (tr', Raise e)
    end.

Notation "x <~ m ;; k" := (mbind m (fun x => k))
  (at level 61, m at next level, right associativity).
Notation "m ;;; k" := (mbind m (fun _ => k))
  (at level 61, right associativity).

Definition print_rank0 (rank : nat) (s : string) : M unit :=
  if rank =? 0 then emit (EPrint s) else ret tt.

(** [paint(input, pm)] *)
Definition paint (input : DataSource) : M F :=
  emit (EPaint input) ;;; ret (ds_Ntot input).

Definition source_neqb (a b : DataSource) : bool :=
  negb (ds_id a =? ds_id b).

(** [numpy.all(a == b)] *)
Definition all_eq (a b : list F) : bool :=
  (length a =? length b) && forallb (fun xy => feqb (fst xy) (snd xy)) (combine a b).

Definition main (rank : nat) (ns : namespace) : M unit :=
  print_rank0 rank "importing done" ;;;
  let chain :=
    [NormalizeDC_f; RemoveDC_f]
      ++ (if String.eqb (remove_cic ns) "anisotropic" then [AnisotropicCIC_f] else [])
      ++ (if String.eqb (remove_cic ns) "isotropic" then [IsotropicCIC_f] else []) in
  match inputs ns with
  | [] => throw IndexError [Txt "list index out of range"]
  | in0 :: rest =>
      emit (ENewMesh (BoxSize in0) (Nmesh ns)) ;;;
      Ntot1 <~ paint in0 ;;
      print_rank0 rank "painting done" ;;;
      emit ER2C ;;;
      print_rank0 rank "r2c done" ;;;
      emit (ETransfer chain) ;;;
      (* len(ns.inputs) > 1 and ns.inputs[0] != ns.inputs[1] *)
      let do_cross :=
        match rest with
        | in1 :: _ => source_neqb in0 in1
        | [] => false
        end in
      Ntot2 <~
        (if do_cross then
           match rest with
           | [] => throw IndexError [Txt "list index out of range"]
           | in1 :: _ =>
               if negb (all_eq (BoxSize in0) (BoxSize in1)) then
                 throw ValueError
                   [Txt "mismatch in box sizes for cross power measurement"]
               else
                 emit ECopy ;;;
                 Ntot2 <~ paint in1 ;;
                 print_rank0 rank "painting 2 done" ;;;
                 emit ER2C ;;;
                 print_rank0 rank "r2c 2 done" ;;;
                 emit (ETransfer chain) ;;;
                 ret Ntot2
           end
         else ret Ntot1) ;;
      let shotnoise :=
        if remove_shotnoise ns && negb do_cross then
          (fold_left fmul (BoxSize in0) fone / (fone * Ntot1))%num
        else fzero in
      let nmu := if String.eqb (mode ns) "1d" then 1 else Nmu ns in
      match multipoles ns with
      | None =>
          emit (EMeasurePower nmu shotnoise) ;;;
          if rank =? 0 then
            emit (EPrint "measure") ;;;
            emit (EWrite (mode ns) (output ns) Ntot1 Ntot2 shotnoise)
          else ret tt
      | Some ells =>
          emit (EMeasurePoles ells) ;;;
          if rank =? 0 then
            emit (EPrint "measure") ;;;
            emit (EWrite "1d" (output ns) Ntot1 Ntot2 shotnoise)
          else ret tt
      end
  end.
End Driver.
End Power.

(* ================================================================= *)
(** ** Pickling: [to_pickle] and [from_pickle] *)

(** The values found in the [__dict__] of a [PkmuResult]. *)
Inductive pyval (F : Type) : Type :=
| PStrList (l : list string)
| PArray (a : list F)
| PData (d : mrecords F)
| PIndex (ix : index_rec F)
| PBool (b : bool)
| PMeta (m : meta F).
Arguments PStrList {F} l.
Arguments PArray {F} a.
Arguments PData {F} d.
Arguments PIndex {F} ix.
Arguments PBool {F} b.
Arguments PMeta {F} m.

(** A Python dict with string keys: setting a key that is present replaces
    its value. *)
Fixpoint dict_set {V} (k : string) (v : V) (d : list (string * V))
  : list (string * V) :=
  match d with
  | [] => [(k, v)]
  | kv :: t => if String.eqb (fst kv) k then (k, v) :: t else kv :: dict_set k v t
  end.

(** The files written so far, by name. *)
Definition files (F : Type) : Type := list (string * list (string * pyval F)).

Section Pickle.
Context {F : Type} {NF : Numeric F}.

(** [self.__dict__]: the attributes in the order [__init__] sets them, the
    keyword arguments last, each by [setattr]. *)
Definition __dict__ (self : PkmuResult F) : list (string * pyval F) :=
  fold_left (fun d kv => dict_set (fst kv) (PMeta (snd kv)) d) (attrs self)
    [("columns"%string, PStrList (columns self));
     ("kedges"%string, PArray (kedges self));
     ("muedges"%string, PArray (muedges self));
     ("data"%string, PData (data self));
     ("index"%string, PIndex (index self));
     ("force_index_match"%string, PBool (force_index_match self));
     ("_metadata"%string, PStrList (_metadata self))].

(** [pickle.dump(self.__dict__, open(filename, 'w'))] *)
Definition to_pickle (self : PkmuResult F) (filename : string) (fs : files F)
  : files F :=
  dict_set filename (__dict__ self) fs.

(** [d[k]] *)
Definition getkey (d : list (string * pyval F)) (k : string)
  : result F (pyval F) :=
  match lookup k d with
  | Some v => Ok v
  | None => raise KeyError [Txt k]
  end.

Definition type_error {A} (what : string) : result F A :=
  raise TypeError [Txt what].

Definition from_pickle (filename : string) (fs : files F)
  : result F (PkmuResult F) :=
  match lookup filename fs with
  | None => raise IOError [Txt "No such file or directory: "; Txt filename]
  | Some d =>
      cols <- getkey d "columns" ;;
      data <-
        match cols with
        | PStrList names =>
            mapM (fun name =>
                    recs <- getkey d "data" ;;
                    match recs with
                    | PData r =>
                        match lookup name (fields r) with
                        | Some col => Ok (name, col)
                        | None => raise ValueError [Txt "no field of name "; Txt name]
                        end
                    | _ => type_error "not a record array"
                    end) names
        | _ => type_error "object is not iterable"
        end ;;
      keys <- getkey d "_metadata" ;;
      kwargs <-
        match keys with
        | PStrList ks =>
            mapM (fun k =>
                    v <- getkey d k ;;
                    match v with
                    | PMeta m => Ok (k, m)
                    | _ => type_error "got multiple values for keyword argument"
                    end) ks
        | _ => type_error "object is not iterable"
        end ;;
      ke <- getkey d "kedges" ;;
      mue <- getkey d "muedges" ;;
      fim <- getkey d "force_index_match" ;;
      match ke, mue, fim with
      | PArray ke, PArray mue, PBool fim => __init__ ke mue data fim kwargs
      | _, _, _ => type_error "unsupported operand"
      end
  end.

(** The names [__init__] gives to the attributes of its own. *)
Definition own_attributes : list string :=
  ["columns"; "kedges"; "muedges"; "data"; "index"; "force_index_match";
   "_metadata"]%string.
End Pickle.

(* ================================================================= *)
(** * Vocabulary of the properties *)

(** ** The layout of the frequency arrays *)

(** The shape of an array of the rank of [sf] that has the extent of [sf]
    on axis [d] and a single entry on every other axis. *)
Definition unit_shape (sf : list nat) (d : nat) : list nat :=
  map (fun j => if j =? d then nth d sf 1 else 1) (seq 0 (length sf)).

(** [wi] lies along axis [d] of a field of shape [sf]. *)
Definition along_axis {A} (sf : list nat) (d : nat) (wi : ndarray A) : Prop :=
  shape wi = unit_shape sf d /\ wf_nd wi.

(** One flat array per axis of the field, as long as the axis. *)
Definition flat_per_axis {A} (sf : list nat) (w : list (ndarray A)) : Prop :=
  Forall2 (fun n wi => shape wi = [n] /\ length (elems wi) = n) sf w.

(** One array per axis of the field, array [d] along axis [d]: what the
    division in place and [IsotropicCIC] take [pm.w] to be. *)
Definition per_axis {A} (sf : list nat) (w : list (ndarray A)) : Prop :=
  length w = length sf
  /\ forall d wi, nth_error w d = Some wi -> along_axis sf d wi.

Section Vocabulary.
Context {F : Type} {NF : Numeric F}.

(** ** Rebinning *)

(** The bin a value is digitized into when the edges do not decrease. *)
Definition digit (edges : list F) (v : F) : nat :=
  count (fun e => fleb e v) edges.


(** ** Zero frequencies *)

(** [wi == 0], elementwise. *)
Definition is_zero (x : F) : bool := feqb x fzero.

(** [wi] holds a zero frequency. *)
Definition has_zero (wi : list F) : bool := existsb is_zero wi.

(** The order of a discrete Fourier transform on the axes after the first:
    the zero frequency, where an array holds it, is its first entry. *)
Definition zero_leads (w : list (ndarray F)) : Prop :=
  forall d wi, 0 < d -> nth_error w d = Some wi ->
               has_zero (elems wi) = true -> is_zero (nth 0 (elems wi) fone) = true.

(** ** Runs of the driver *)

(** What rank 0 prints, and the others do not. *)
Definition printed (rank : nat) (s : string) : list (@Power.event F) :=
  if rank =? 0 then [Power.EPrint s] else [].

(** The transfer chain [main] builds from the options. *)
Definition chain_of (ns : @Power.namespace F) : list Power.filter :=
  [Power.NormalizeDC_f; Power.RemoveDC_f]
    ++ (if String.eqb (Power.remove_cic ns) "anisotropic"
        then [Power.AnisotropicCIC_f] else [])
    ++ (if String.eqb (Power.remove_cic ns) "isotropic"
        then [Power.IsotropicCIC_f] else []).

(** The claim as the spec words it: the run ends in an error and nothing
    was computed before. *)
Definition raises_before_computation (rank : nat) (ns : @Power.namespace F) : Prop :=
  exists tr e,
    Power.main rank ns [] = (tr, Raise e)
    /\ forallb (fun ev => negb (Power.is_computation ev)) tr = true.
End Vocabulary.

(** ** The anti-aliasing factors *)

Section CicVocabulary.
Context {F : Type} {NF : Numeric F}.
Variable fsin : F -> F.

(** The divisors met by the element at flat position [p]: the entry of each
    axis's [tmp] at the coordinate of [p] on that axis, from axis [d] on. *)
Definition cic_factors (sh : list nat) (d : nat) (w : list (ndarray F)) (p : nat)
  : list F :=
  map (fun kw => nth (coord sh (d + fst kw) p)
                     (map (Transfer.cic_kernel fsin) (elems (snd kw))) fone)
      (combine (seq 0 (length w)) w).
End CicVocabulary.

(** ** Lookups by value *)

Definition axis_edges (ke mue : list float) (name : name_arg) : list float :=
  if is_mu name then mue else ke.

(** With [force_index_match=False]: the value of a bin center indexes as
    the position of its bin does, through [Pmu], [Pk] and [__getitem__]
    (lone entries and slice bounds alike), and a value that equals no
    center is a lookup failure, an [IndexError] from [Pmu] and [Pk] and a
    [KeyError] from [__getitem__]. *)
Definition exact_lookup (ke mue : list float) (pk : PkmuResult float) : Prop :=
  (forall i v,
      i < length ke - 1 ->
      PrimFloat.eqb (nth i (centers ke) 0%float) v = true ->
      resolve pk 0 (ByVal v) = resolve pk 0 (ByPos (Z.of_nat i))
      /\ (exists sl, Pmu pk (ByPos (Z.of_nat i)) = Ok sl /\ Pmu pk (ByVal v) = Ok sl)
      /\ (forall s, __getitem__ pk (KTuple [SRef (ByVal v); s])
                    = __getitem__ pk (KTuple [SRef (ByPos (Z.of_nat i)); s])))
  /\ (forall j v,
         j < length mue - 1 ->
         PrimFloat.eqb (nth j (centers mue) 0%float) v = true ->
         resolve pk 1 (ByVal v) = resolve pk 1 (ByPos (Z.of_nat j))
         /\ (exists sl, Pk pk (ByPos (Z.of_nat j)) = Ok sl /\ Pk pk (ByVal v) = Ok sl)
         /\ (forall s, __getitem__ pk (KTuple [s; SRef (ByVal v)])
                       = __getitem__ pk (KTuple [s; SRef (ByPos (Z.of_nat j))])))
  /\ (forall v,
         (forall c, In c (centers ke) -> PrimFloat.eqb c v = false) ->
         (exists e, Pmu pk (ByVal v) = Raise e /\ exn_cls e = IndexError)
         /\ (forall s, exists e, __getitem__ pk (KTuple [SRef (ByVal v); s]) = Raise e
                                 /\ exn_cls e = KeyError))
  /\ (forall v,
         (forall c, In c (centers mue) -> PrimFloat.eqb c v = false) ->
         (exists e, Pk pk (ByVal v) = Raise e /\ exn_cls e = IndexError)
         /\ (forall s, exists e, __getitem__ pk (KTuple [s; SRef (ByVal v)]) = Raise e
                                 /\ exn_cls e = KeyError)).

(** With [force_index_match=True]: any float finds a bin, one no other bin
    is strictly nearer to in absolute difference, and indexes as the
    position of that bin does; nothing is raised by the lookup. *)
Definition nearest_lookup (ke mue : list float) (pk : PkmuResult float) : Prop :=
  (forall v, exists i,
      i < length ke - 1
      /\ (forall j, j < length ke - 1 ->
            PrimFloat.ltb (abs (nth j (centers ke) 0 - v))%float
                          (abs (nth i (centers ke) 0 - v))%float = false)
      /\ resolve pk 0 (ByVal v) = Ok (Z.of_nat i)
      /\ (exists sl, Pmu pk (ByVal v) = Ok sl /\ Pmu pk (ByPos (Z.of_nat i)) = Ok sl)
      /\ (forall s, __getitem__ pk (KTuple [SRef (ByVal v); s])
                    = __getitem__ pk (KTuple [SRef (ByPos (Z.of_nat i)); s])))
  /\ (forall v, exists j,
         j < length mue - 1
         /\ (forall i, i < length mue - 1 ->
               PrimFloat.ltb (abs (nth i (centers mue) 0 - v))%float
                             (abs (nth j (centers mue) 0 - v))%float = false)
         /\ resolve pk 1 (ByVal v) = Ok (Z.of_nat j)
         /\ (exists sl, Pk pk (ByVal v) = Ok sl /\ Pk pk (ByPos (Z.of_nat j)) = Ok sl)
         /\ (forall s, __getitem__ pk (KTuple [s; SRef (ByVal v)])
                       = __getitem__ pk (KTuple [s; SRef (ByPos (Z.of_nat j))]))).

(** The exceptions [__getitem__] lets out. *)
Definition wrapped {F} (cause : exn F) : exn F :=
  mkExn KeyError (Txt "Key not understood in __getitem__: " :: exn_msg cause).

(** ** Exact sums and means *)

Section RealVocabulary.
Local Open Scope R_scope.

(** The product of a list of reals. *)
Definition Rprod (ts : list R) : R := fold_right Rmult 1 ts.

(** The sum of a list of reals. *)
Definition Rsum (l : list R) : R := fold_right Rplus 0 l.

(** The sum of [g 0], ..., [g (n-1)]. *)
Definition sum_upto (n : nat) (g : nat -> R) : R := Rsum (map g (seq 0 n)).

(** [x] if [b] holds, else nothing. *)
Definition only (b : bool) (x : R) : R := if b then x else 0.

(** The flat bin index of every cell of a table whose index arrays are the
    broadcast centers [kc] and [muc]. *)
Definition multi_index_of (ek emu kc muc : list R) : list nat :=
  zipwith (fun a b => (a * (length emu + 1) + b)%nat)
    (map (digit ek) (flat_map (fun x => repeat x (length muc)) kc))
    (map (digit emu) (concat (repeat muc (length kc)))).

(** The cells whose centers fall in the new bin of row [r] and column [c]. *)
Definition falls_in (ek emu kc muc : list R) (r c i j : nat) : bool :=
  (digit ek (nth i kc 0%R) =? S r)%nat && (digit emu (nth j muc 0%R) =? S c)%nat.

(** The weighted sum, or the sum of weights, gathered by the new bin of
    row [r] and column [c]. *)
Definition gathered (ek emu kc muc : list R) (r c : nat) (v : nat -> nat -> R) : R :=
  sum_upto (length kc) (fun i =>
    sum_upto (length muc) (fun j => only (falls_in ek emu kc muc r c i j) (v i j))).

(** The columns [rebin] makes of the columns [dat] of a mask-free table with
    centers [kc] and [muc], for the new edges [ek] and [emu]. *)
Definition rebinned (ek emu kc muc : list R) (dat : list (string * array2 R))
  : list (string * array2 R) :=
  map (fun nc =>
         (fst nc,
          rebin_field (multi_index_of ek emu kc muc)
            (length ek + 1, length emu + 1)%nat
            (full (length kc) (length muc) false)
            (full (length kc) (length muc) 1) (snd nc))) dat.

(** The edges a [bins] argument stands for on an axis whose edges are
    [old], when the guard of [_reindex] lets it pass. *)
Definition resolves_to (old : list R) (bins : bins_arg) (e : list R) : Prop :=
  match bins with
  | BinsEdges e' => e' = e /\ (length e < length old - 1)%nat
  | BinsInt n =>
      (n < Z.of_nat (length old - 1))%Z
      /\ exists e0 rest,
           old = e0 :: rest /\ linspace e0 (last old e0) (n + 1) = Ok e
  end.

(** Every center of the axis with edges [e] falls in its own bin. *)
Definition own_bins (e : list R) : Prop :=
  forall j, (j < length e - 1)%nat -> digit e (nth j (centers e) 0) = S j.

(** The grid [e1] lies between the grid [e] and the grid [e2]: every bin of
    [e] has its center in a bin of [e1], and that center and the center of
    this bin of [e1] are in the same bin of [e2]. *)
Definition nested (e e1 e2 : list R) : Prop :=
  forall i, (i < length e - 1)%nat ->
    let f := digit e1 (nth i (centers e) 0) in
    (1 <= f <= length e1 - 1)%nat
    /\ digit e2 (nth i (centers e) 0) = digit e2 (nth (f - 1) (centers e1) 0).

(** Every bin of [e1] holds the centers of [m] bins of [e]. *)
Definition equal_occupancy (e e1 : list R) (m : nat) : Prop :=
  forall b, (b < length e1 - 1)%nat ->
    count (fun x => (digit e1 x =? S b)%nat) (centers e) = m.
End RealVocabulary.

(* ================================================================= *)
(** ** Building and rebinning a [PkmuResult] *)

(** The request [bins] passes the guard of [_reindex] on an axis of
    [N_old] bins: an integer below [N_old] (and one [linspace] accepts), or
    a sequence of fewer than [N_old] edges. *)
Definition passes_guard {F} (N_old : nat) (bins : @bins_arg F) : Prop :=
  match bins with
  | BinsInt n => (-1 <= n < Z.of_nat N_old)%Z
  | BinsEdges e => length e < N_old
  end.

(** No keyword argument of [__init__] is named like one of its parameters
    or like an attribute it sets itself, which [setattr] would replace. *)
Definition plain_keywords {F} (kw : list (string * meta F)) : Prop :=
  forall k, In k (map fst kw) -> ~ In k own_attributes.

(** The names the class gives to its properties, which have no setter
    ([setattr] raises on them), and to its methods, which an attribute of
    the instance would hide. *)
Definition class_attributes : list string :=
  ["k_center"; "mu_center"; "Nmu"; "Nk"; "to_pickle"; "from_pickle";
   "_get_index"; "_reindex"; "nearest_bin_center"; "Pk"; "Pmu"; "reindex_mu";
   "reindex_k"]%string.

(** No keyword argument of [__init__] is named like a parameter, like an
    attribute [__init__] sets, like a property or method of the class, or
    with two leading underscores as the names Python keeps for itself
    are. *)
Definition fresh_keywords {F} (kw : list (string * meta F)) : Prop :=
  forall k, In k (map fst kw) ->
            ~ In k own_attributes /\ ~ In k class_attributes
            /\ String.prefix "__" k = false.


Section ReindexVocabulary.
Context {F : Type} {NF : Numeric F}.

(** The weights [_reindex] hands to [rebin]. *)
Definition resolve_weights (self : PkmuResult F) (weights : @weights_arg F)
  : result F (array2 F) :=
  match weights with
  | WNone => Ok (full (Nk self) (Nmu self) fone)
  | WName name =>
      if existsb (String.eqb name) (columns self) then
        match lookup name (fields (data self)) with
        | Some w => Ok w
        | None => raise ValueError [Txt "no field of name "; Txt name]
        end
      else
        raise ValueError
          [Txt "Cannot weight by `"; Txt name; Txt "`; no such column"]
  | WArray w => Ok w
  end.

(** The edges a [bins] argument stands for on an axis whose edges are
    [old]. *)
Definition edges_from (old : list F) (bins : @bins_arg F) (e : list F) : Prop :=
  match bins with
  | BinsEdges e' => e = e'
  | BinsInt n =>
      exists e0 rest, old = e0 :: rest /\ linspace e0 (last old e0) (n + 1) = Ok e
  end.
End ReindexVocabulary.

(** What the unmasked cells that fall in the new bin of row [r] and column
    [c] add up to, each cell [p] counted as [x p]. *)
Definition bin_total (index : array2 R * array2 R) (edges : list R * list R)
    (mask : array2 bool) (r c : nat) (x : nat -> R) : R :=
  sum_upto (length (flat mask)) (fun p =>
    only (negb (nth p (flat mask) true)
          && (digit (fst edges) (nth p (flat (fst index)) 0%R) =? S r)%nat
          && (digit (snd edges) (nth p (flat (snd index)) 0%R) =? S c)%nat)
         (x p)).

(** ** The zero mode *)

Section ZeroModeVocabulary.
Context {F : Type} {NF : Numeric F}.

(** [out] is [field] with every entry divided by [v]. *)
Definition divided_by (field out : ndarray (@Transfer.complex F)) (v : F) : Prop :=
  shape out = shape field
  /\ length (elems out) = length (elems field)
  /\ forall p, p < length (elems field) ->
       nth p (elems out) Transfer.czero
       = Transfer.cdiv (nth p (elems field) Transfer.czero) v.

(** The modulus of a complex number. *)
Definition modulus (c : @Transfer.complex F) : F :=
  fsqrt (fst c * fst c + snd c * snd c)%num.
End ZeroModeVocabulary.

(** ** What the driver leaves to rank 0 *)

Section DriverVocabulary.
Context {F : Type} {NF : Numeric F}.

(** What only rank 0 does: printing and writing the result. *)
Definition root_only (e : @Power.event F) : bool :=
  match e with
  | Power.EPrint _ | Power.EWrite _ _ _ _ _ => true
  | _ => false
  end.

(** [len(ns.inputs) > 1 and ns.inputs[0] != ns.inputs[1]] *)
Definition cross_power (ns : @Power.namespace F) : bool :=
  match Power.inputs ns with
  | in0 :: in1 :: _ => Power.source_neqb in0 in1
  | _ => false
  end.

(** The boxes [main] is written for: three lengths, which it unpacks
    into [Lx, Ly, Lz]. *)
Definition boxes_3d (ns : @Power.namespace F) : Prop :=
  Forall (fun input => length (Power.BoxSize input) = 3) (Power.inputs ns).

(** What [main] hands to the storage: the output name, the mode (['1d']
    for multipoles), the totals of the two fields and the shot noise. *)
Definition written (ns : @Power.namespace F) (m o : string) (n1 n2 s : F) : Prop :=
  o = Power.output ns
  /\ m = match Power.multipoles ns with
         | None => Power.mode ns
         | Some _ => "1d"%string
         end
  /\ exists in0 rest,
       Power.inputs ns = in0 :: rest
       /\ n1 = Power.ds_Ntot in0
       /\ if cross_power ns then
            s = fzero /\ exists in1 rest', rest = in1 :: rest' /\ n2 = Power.ds_Ntot in1
          else
            n2 = n1
            /\ s = if Power.remove_shotnoise ns
                   then (fold_left fmul (Power.BoxSize in0) fone / (fone * n1))%num
                   else fzero.
End DriverVocabulary.

(** ** Broadcasting, and the sums of [IsotropicCIC] *)

(** [s] broadcasts to [t], of the same rank. *)
Definition fits (s t : list nat) : Prop :=
  length s = length t
  /\ forall j, j < length s -> nth j s 1 = 1 \/ nth j s 1 = nth j t 1.

(** The shape of [scratch] once the arrays of the first [k] axes of a row
    of shape [st] were added. *)
Definition prefix_shape (st : list nat) (k : nat) : list nat :=
  map (fun j => if j <? k then nth j st 1 else 1) (seq 0 (length st)).

Section IsotropicVocabulary.
Context {F : Type} {NF : Numeric F}.

(** What [scratch] holds for the entry at position [q] of row [row], the
    row being of shape [st]: the square of [w[0][row]], to which the
    square of each later array's entry at the coordinate of [q] on its axis
    is added in turn. *)
Definition iso_sum (w : list (ndarray F)) (st : list nat) (row q : nat) : F :=
  match w with
  | [] => fzero
  | w0 :: rest =>
      fold_left fadd
        (map (fun iw =>
                let x := nth (coord st (fst iw) q) (elems (snd iw)) fzero in
                (x * x)%num)
             (combine (seq 0 (length rest)) rest))
        (let x := nth row (elems w0) fzero in (x * x)%num)
  end.
End IsotropicVocabulary.

(** * Concrete inputs *)

Module Examples.
Local Open Scope float_scope.



(** What is left of a [PkmuResult] once only the table matters. *)
Definition table_of (r : result float (PkmuResult float))
  : option (list (string * list float) * list bool) :=
  match r with
  | Ok pk => Some (map (fun nc => (fst nc, flat (snd nc))) (fields (data pk)),
                   flat (mrec_mask (data pk)))
  | Raise _ => None
  end.
End Examples.

Module Examples2.
Local Open Scope float_scope.

(** [kedges=[0,1,2,3,4]], [muedges=[0,0.5,1]], every cell its k-bin index. *)
Definition kedges5 : list float := [0; 1; 2; 3; 4].
Definition muedges5 : list float := [0; 0.5; 1].
Definition data5 : list (string * array2 float) :=
  [("power"%string, mk2 4 2 [0; 0; 1; 1; 2; 2; 3; 3])].
Definition pk5 (fim : bool) : result float (PkmuResult float) :=
  __init__ kedges5 muedges5 data5 fim [].

(** Column [j] of a 2-D array. *)
Definition column {A} (d : A) (a : array2 A) (j : nat) : list A :=
  map (fun i => get2 d a i j) (seq 0 (nrow a)).
End Examples2.

Module Examples3.
Local Open Scope float_scope.
(** A table with a masked cell and two metadata entries. *)
Definition dat : list (string * array2 float) :=
  [("power"%string, mk2 2 2 [1; nan; 3; 4]); ("modes"%string, mk2 2 2 [2; 0; 6; 8])].
Definition meta : list (string * meta float) :=
  [("volume"%string, MFloat 8); ("N1"%string, MInt 10)].
Definition pk : result float (PkmuResult float) :=
  __init__ [0; 1; 2] [0; 0.5; 1] dat true meta.
End Examples3.

Module Examples4.
Local Open Scope float_scope.

(** A 2x3 field with its two frequency arrays, of shapes 2x1 and 1x3, the
    zero frequency first on each axis; the zero mode, at row 0 and column
    0, is 5+0i. *)
Definition pm : ParticleMesh float :=
  mkPm [mkNd [2; 1]%nat [0; 1]; mkNd [1; 3]%nat [0; 1; -1]] [1; 1] 2%nat.
Definition field : ndarray (@Transfer.complex float) :=
  mkNd [2; 3]%nat [(5, 0); (1, 2); (3, 4); (7, 8); (9, 1); (2, 6)].
Definition field_without_dc : ndarray (@Transfer.complex float) :=
  mkNd [2; 3]%nat [(0, 0); (1, 2); (3, 4); (7, 8); (9, 1); (2, 6)].

(** The same mesh on a process that does not hold the zero of axis 1. *)
Definition pm_elsewhere : ParticleMesh float :=
  mkPm [mkNd [2; 1]%nat [0; 1]; mkNd [1; 3]%nat [1; 2; 3]] [1; 1] 2%nat.

(** Frequencies in centred order: the zero of axis 1 is its second entry,
    so the zero mode is at row 0 and column 1; it holds 5+0i. *)
Definition pm_centred : ParticleMesh float :=
  mkPm [mkNd [2; 1]%nat [0; 1]; mkNd [1; 3]%nat [-1; 0; 1]] [1; 1] 2%nat.
Definition field_centred : ndarray (@Transfer.complex float) :=
  mkNd [2; 3]%nat [(1, 2); (5, 0); (3, 4); (7, 8); (9, 1); (2, 6)].
End Examples4.

Module Examples5.
Local Open Scope R_scope.
(** One axis of one mode at frequency pi, and the field 1+0i. *)
Definition pm : ParticleMesh R := mkPm [mkNd [1%nat] [PI]] [1] 1%nat.
Definition field : ndarray (@Transfer.complex R) := mkNd [1%nat] [(1, 0)].
End Examples5.

Module Examples6.
Local Open Scope float_scope.
Definition source1 : @Power.DataSource float := Power.mkSource 1 [512; 512; 512] 1000.
Definition source2 : @Power.DataSource float := Power.mkSource 2 [1024; 1024; 1024] 1000.
Definition ns : @Power.namespace float :=
  Power.mkNs "1d" 32 "-" [source1; source2] 0 "anisotropic" false 5 "z" None 0 None.
End Examples6.

Module Examples7.
Local Open Scope float_scope.
(** Five k bins, one mu bin, no missing cell, every cell its k-bin index. *)
Definition pk : result float (PkmuResult float) :=
  __init__ [0; 1; 2; 3; 4; 5] [0; 1]
    [("power"%string, mk2 5 1 [0; 1; 2; 3; 4])] false [].

(** Rebinned to two k bins and then to one; and to one at once. *)
Definition in_two_steps : result float (PkmuResult float) :=
  p <- pk ;; p1 <- reindex_k p (BinsInt 2) WNone ;; reindex_k p1 (BinsInt 1) WNone.
Definition at_once : result float (PkmuResult float) :=
  p <- pk ;; reindex_k p (BinsInt 1) WNone.

(** Six k bins holding 0, ..., 5, merged along their own edges: the first
    two and the last four, and then all; and all at once. *)
Definition pk6 : result float (PkmuResult float) :=
  __init__ [0; 1; 2; 3; 4; 5; 6] [0; 1]
    [("power"%string, mk2 6 1 [0; 1; 2; 3; 4; 5])] false [].
Definition merged_in_two_steps : result float (PkmuResult float) :=
  p <- pk6 ;; p1 <- reindex_k p (BinsEdges [0; 2; 6]) WNone ;;
  reindex_k p1 (BinsInt 1) WNone.
Definition merged_at_once : result float (PkmuResult float) :=
  p <- pk6 ;; reindex_k p (BinsInt 1) WNone.
End Examples7.

Module Examples8.
Local Open Scope R_scope.
(** Six k bins, one mu bin; the grids of edges 0, 2, 4, 6 and 0, 6. *)
Definition ke : list R := [0; 1; 2; 3; 4; 5; 6].
Definition mue : list R := [0; 1].
Definition dat : list (string * array2 R) :=
  [("power"%string, mk2 6 1 [0; 1; 2; 3; 4; 5])].
Definition e1 : list R := [0; 2; 4; 6].
Definition e2 : list R := [0; 6].
End Examples8.

Module Examples9.
Local Open Scope R_scope.
(** One axis of two modes, the zero frequency first, and a field whose
    zero mode is 3+4i. *)
Definition pm : ParticleMesh R := mkPm [mkNd [2%nat] [0; PI]] [1] 2%nat.
Definition field : ndarray (@Transfer.complex R) := mkNd [2%nat] [(3, 4); (1, 0)].

(** The same mesh on a process that does not hold the zero frequency, and
    the sum over all processes when the others hold 5 between them. *)
Definition pm_elsewhere : ParticleMesh R :=
  mkPm [mkNd [2%nat] [PI; 2 * PI]] [1] 2%nat.
Definition allreduce_5 (value : ndarray R) : ndarray R :=
  mkNd (shape value) (map (fun x => x + 5) (elems value)).
End Examples9.

Module Examples10.
Local Open Scope float_scope.
(** The auto power of one input, shot noise removed. *)
Definition ns : @Power.namespace float :=
  Power.mkNs "2d" 32 "-" [Examples6.source1] 0 "anisotropic" true 5 "z" None 0 None.
End Examples10.

Module Examples11.
Local Open Scope R_scope.
(** A 2x2 field and its two frequency arrays, of shapes 2x1 and 1x2. *)
Definition w : list (ndarray R) :=
  [mkNd [2; 1]%nat [0; PI]; mkNd [1; 2]%nat [0; PI]].
Definition field : ndarray (@Transfer.complex R) :=
  mkNd [2; 2]%nat [(1, 0); (0, 1); (1, 1); (2, 3)].
End Examples11.

Module Examples12.
Local Open Scope float_scope.
(** Two k bins between 0 and 1 and one mu bin; the centers of the k bins
    are 0.25 and 0.75. *)
Definition kedges_half : list float := [0; 0.5; 1].
Definition pk_half (fim : bool) : result float (PkmuResult float) :=
  __init__ kedges_half [0; 1] [("power"%string, mk2 2 1 [10; 20])] fim [].

(** Three k bins whose edges are one unit in the last place apart, from 1
    on: the edges increase strictly, and the centers of the second and of
    the third bin round to the same number. *)
Definition ulp : float := 0x1p-52.
Definition kedges_fine : list float := [1; 1 + ulp; 1 + 2 * ulp; 1 + 3 * ulp].
Definition pk_fine : result float (PkmuResult float) :=
  __init__ kedges_fine [0; 1] [("power"%string, mk2 3 1 [10; 20; 30])] false [].
End Examples12.

(* ================================================================= *)
(** * Properties *)

(** ** Lists *)

Section ListFacts.
Context {A : Type}.

Lemma zipwith_length {B C} (f : A -> B -> C) l l' :
  length (zipwith f l l') = Nat.min (length l) (length l').
Proof.
  revert l'; induction l as [|a l IH]; intros [|b l']; simpl; auto.
Qed.

Lemma zipwith_nth {B C} (f : A -> B -> C) l l' i da db dc :
  i < length l -> i < length l' ->
  nth i (zipwith f l l') dc = f (nth i l da) (nth i l' db).
Proof.
  revert l' i; induction l as [|a l IH]; intros [|b l'] [|i]; simpl;
    intros; try lia; auto.
  apply IH; lia.
Qed.

Lemma upd_length i (v : A) l : length (upd i v l) = length l.
Proof.
  revert i; induction l as [|a l IH]; intros [|i]; simpl; auto.
Qed.

Lemma upd_nth_same i (v : A) l d :
  i < length l -> nth i (upd i v l) d = v.
Proof.
  revert i; induction l as [|a l IH]; intros [|i]; simpl; intros; try lia; auto.
  apply IH; lia.
Qed.

Lemma upd_nth_other i j (v : A) l d :
  i <> j -> nth j (upd i v l) d = nth j l d.
Proof.
  revert i j; induction l as [|a l IH]; intros [|i] [|j]; simpl; intros;
    try lia; auto.
Qed.


Lemma select_length_eq inds (l l' : list A) :
  length l = length l' ->
  length (select inds l) = length (select inds l').
Proof.
  revert l l'; induction inds as [|b inds IH]; intros [|a l] [|a' l'];
    simpl; intros; try lia; auto.
  destruct b; simpl; auto.
Qed.


Lemma chunks_length n m (l : list A) : length (chunks n m l) = n.
Proof. revert l; induction n; simpl; auto. Qed.

Lemma chunks_nth n m (l : list A) r :
  r < n -> nth r (chunks n m l) [] = firstn m (skipn (r * m) l).
Proof.
  revert l r; induction n as [|n IH]; intros l [|r] H; simpl; try lia; auto.
  rewrite IH by lia. now rewrite skipn_skipn, Nat.add_comm.
Qed.

Lemma inner_length (l : list A) : length (inner l) = length l - 2.
Proof.
  unfold inner. destruct l as [|a l]; simpl; auto.
  destruct l as [|b l] using rev_ind; simpl; auto.
  rewrite removelast_last, length_app; simpl; lia.
Qed.

Lemma inner_nth (l : list A) i d :
  i < length l - 2 -> nth i (inner l) d = nth (S i) l d.
Proof.
  unfold inner. destruct l as [|a l]; simpl; [lia|].
  destruct l as [|b l] using rev_ind; simpl; [lia|].
  rewrite removelast_last, length_app; simpl. intros H.
  rewrite app_nth1 by lia. reflexivity.
Qed.

Lemma concat_nth (rs : list (list A)) m r c d :
  Forall (fun row => length row = m) rs ->
  r < length rs -> c < m ->
  nth (r * m + c) (concat rs) d = nth c (nth r rs []) d.
Proof.
  intros Hall; revert r; induction Hall as [|row rs Hrow Hall IH];
    intros [|r]; simpl; intros; try lia.
  - rewrite app_nth1 by lia. reflexivity.
  - rewrite app_nth2 by lia. rewrite Hrow.
    replace (m + r * m + c - m) with (r * m + c) by lia.
    apply IH; lia.
Qed.

Lemma concat_length_uniform (rs : list (list A)) m :
  Forall (fun row => length row = m) rs ->
  length (concat rs) = length rs * m.
Proof.
  induction 1 as [|row rs Hrow Hall IH]; simpl; auto.
  rewrite length_app, IH, Hrow. reflexivity.
Qed.

Lemma find_index_Some (p : A -> bool) l i d :
  i < length l -> p (nth i l d) = true ->
  (forall j, j < i -> p (nth j l d) = false) ->
  find_index p l = Some i.
Proof.
  revert i; induction l as [|a l IH]; intros [|i]; simpl; intros Hi Hp Hlt;
    try lia.
  - now rewrite Hp.
  - rewrite (Hlt 0) by lia. rewrite (IH i); auto; [lia|].
    intros j Hj. apply (Hlt (S j)). lia.
Qed.

Lemma find_index_None (p : A -> bool) l :
  (forall x, In x l -> p x = false) -> find_index p l = None.
Proof.
  induction l as [|a l IH]; simpl; intros H; auto.
  rewrite (H a) by auto. rewrite IH; auto.
Qed.

Lemma find_index_spec (p : A -> bool) l i d :
  find_index p l = Some i ->
  i < length l /\ p (nth i l d) = true /\
  forall j, j < i -> p (nth j l d) = false.
Proof.
  revert i; induction l as [|a l IH]; simpl; intros i; [discriminate|].
  destruct (p a) eqn:Hpa.
  - intros [= <-]. repeat split; auto; lia.
  - destruct (find_index p l) as [k|]; simpl; [|discriminate].
    intros [= <-]. destruct (IH k eq_refl) as (? & ? & Hlt).
    repeat split; auto; [lia|]. intros [|j] Hj; auto. apply Hlt; lia.
Qed.
End ListFacts.

Section ListFacts2.
Context {A : Type}.

Lemma inner_Forall (P : A -> Prop) l : Forall P l -> Forall P (inner l).
Proof.
  unfold inner. intros H.
  assert (Ht : Forall P (tl l)) by (destruct H; simpl; auto).
  revert Ht. generalize (tl l). intros t Ht.
  induction Ht as [|a t Ha Ht IH]; simpl; auto.
  destruct t; auto.
Qed.

Lemma count_le (p : A -> bool) l : count p l <= length l.
Proof. unfold count. apply filter_length_le. Qed.

Lemma select_Forall (P : A -> Prop) inds l :
  Forall P l -> Forall P (select inds l).
Proof.
  intros H; revert inds; induction H as [|a l Ha H IH]; intros [|b inds];
    simpl; auto.
  destruct b; auto.
Qed.
End ListFacts2.

(** ** numpy *)

Section NumpyFacts.
Context {F : Type} {NF : Numeric F}.

Lemma bincount_step_fold_length xs (out : list F) :
  length (fold_left bincount_step xs out) = length out.
Proof.
  revert out; induction xs as [|xw xs IH]; intros out; simpl; auto.
  rewrite IH. apply upd_length.
Qed.

Lemma bincount_length x (w : list F) m :
  Forall (fun i => i < m) x -> length (bincount x w m) = m.
Proof.
  intros H. unfold bincount. rewrite bincount_step_fold_length, repeat_length.
  destruct x as [|i x]; auto.
  assert (list_max (i :: x) < m) by (apply list_max_lt; [discriminate|auto]).
  lia.
Qed.



Lemma digitize_bound x bins d :
  digitize x bins = Ok d -> Forall (fun i => i <= length bins) d.
Proof.
  unfold digitize.
  destruct (adjacent fleb bins);
    [|destruct (adjacent (fun a b => fleb b a) bins); [|discriminate]];
    intros [= <-]; apply Forall_forall; intros i Hi;
    apply in_map_iff in Hi as (v & <- & _); apply count_le.
Qed.

Lemma digitize_length x bins d :
  digitize x bins = Ok d -> length d = length x.
Proof.
  unfold digitize.
  destruct (adjacent fleb bins);
    [|destruct (adjacent (fun a b => fleb b a) bins); [|discriminate]];
    intros [= <-]; apply length_map.
Qed.

Lemma digitize_increasing x bins :
  adjacent fleb bins = true ->
  digitize x bins = Ok (map (fun v => count (fun e => fleb e v) bins) x).
Proof. unfold digitize. now intros ->. Qed.

Lemma ravel_multi_index_ok d0 d1 n0 n1 :
  Forall (fun i => i < n0) d0 -> Forall (fun i => i < n1) d1 ->
  ravel_multi_index (F:=F) (d0, d1) (n0, n1)
  = Ok (zipwith (fun a b => a * n1 + b) d0 d1).
Proof.
  intros H0 H1. unfold ravel_multi_index; simpl.
  replace (forallb (fun d => d <? n0) d0) with true.
  replace (forallb (fun d => d <? n1) d1) with true. reflexivity.
  - symmetry. apply forallb_forall. intros i Hi.
    rewrite Forall_forall in H1. apply Nat.ltb_lt; auto.
  - symmetry. apply forallb_forall. intros i Hi.
    rewrite Forall_forall in H0. apply Nat.ltb_lt; auto.
Qed.

Lemma zipwith_ravel_bound (d0 d1 : list nat) n0 n1 :
  Forall (fun i => i < n0) d0 -> Forall (fun i => i < n1) d1 ->
  Forall (fun i => i < n0 * n1) (zipwith (fun a b => a * n1 + b) d0 d1).
Proof.
  intros H0; revert d1; induction H0 as [|a d0 Ha H0 IH]; intros d1 H1;
    [constructor|].
  destruct H1 as [|b d1 Hb H1]; simpl; constructor; auto. nia.
Qed.
End NumpyFacts.

(** ** rebin *)

Section RebinFacts.
Context {F : Type} {NF : Numeric F}.

(** [q.reshape(n0, n1)[1:-1, 1:-1][r, c]] is [q[(r+1)*n1 + (c+1)]]. *)
Lemma reshape_inner_get (q : list F) n0 n1 r c d :
  length q = n0 * n1 -> r < n0 - 2 -> c < n1 - 2 ->
  get2 d (of_rows (n1 - 2) (inner (map inner (chunks n0 n1 q)))) r c
  = nth (S r * n1 + S c) q d.
Proof.
  intros Hq Hr Hc. unfold get2, of_rows; simpl.
  assert (Hrows : Forall (fun row : list F => length row = n1 - 2)
                    (inner (map inner (chunks n0 n1 q)))).
  { apply inner_Forall. apply Forall_forall. intros row Hin.
    apply in_map_iff in Hin as (ch & <- & Hin).
    apply In_nth with (d := []) in Hin as (k & Hk & <-).
    rewrite chunks_length in Hk. rewrite chunks_nth by auto.
    rewrite inner_length, length_firstn, length_skipn. nia. }
  rewrite concat_nth with (m := n1 - 2); auto.
  2:{ rewrite inner_length, length_map, chunks_length. lia. }
  rewrite inner_nth by (rewrite length_map, chunks_length; lia).
  replace (@nil F) with (inner (@nil F)) at 1 by reflexivity.
  rewrite map_nth, chunks_nth by lia.
  rewrite inner_nth.
  2:{ rewrite length_firstn, length_skipn. nia. }
  rewrite nth_firstn. replace (S c <? n1) with true
    by (symmetry; apply Nat.ltb_lt; lia).
  rewrite nth_skipn. f_equal.
Qed.

Lemma rebin_field_get mi ndims mask weights col r c d :
  Forall (fun i => i < fst ndims * snd ndims) mi ->
  r < fst ndims - 2 -> c < snd ndims - 2 ->
  let inds := map negb (flat mask) in
  let B := S r * snd ndims + S c in
  get2 d (rebin_field mi ndims mask weights col) r c
  = (nth B (bincount (select inds mi)
              (zipwith fmul (select inds (flat col)) (select inds (flat weights)))
              (fst ndims * snd ndims)) fzero
     / nth B (bincount (select inds mi) (select inds (flat weights))
                (fst ndims * snd ndims)) fzero)%num.
Proof.
  intros Hmi Hr Hc inds B. unfold rebin_field. fold inds.
  assert (Hsel : Forall (fun i => i < fst ndims * snd ndims) (select inds mi))
    by now apply select_Forall.
  assert (HB : B < fst ndims * snd ndims) by (unfold B; nia).
  rewrite reshape_inner_get; auto.
  - fold B. apply zipwith_nth; rewrite bincount_length; auto.
  - rewrite zipwith_length, !bincount_length; auto. lia.
Qed.




(** [rebin] returns whenever the weights have the shape of the data and
    the edges of both axes do not decrease; what it returns is, per
    column, the table of [rebin_field]. *)
Lemma rebin_returns index edges d w :
  shape_eqb (mrec_shape d) (shape2 w) = true ->
  adjacent fleb (fst edges) = true -> adjacent fleb (snd edges) = true ->
  let ndims := (length (fst edges) + 1, length (snd edges) + 1) in
  let mi := zipwith (fun a b => a * snd ndims + b)
              (map (digit (fst edges)) (flat (fst index)))
              (map (digit (snd edges)) (flat (snd index))) in
  Forall (fun i => i < fst ndims * snd ndims) mi /\
  rebin index edges d w
  = Ok (map (fun nc => (fst nc, rebin_field mi ndims (mrec_mask d) w (snd nc)))
            (fields d)).
Proof.
  intros Hsh H0 H1 ndims mi. unfold rebin. rewrite Hsh; simpl.
  rewrite !digitize_increasing by auto. simpl.
  assert (Hb : forall (e : list F) x,
             Forall (fun i => i < length e + 1) (map (digit e) x)).
  { intros e x. apply Forall_forall. intros i Hi.
    apply in_map_iff in Hi as (v & <- & _).
    pose proof (count_le (fun e0 => fleb e0 v) e). unfold digit. lia. }
  split.
  - apply zipwith_ravel_bound; apply Hb.
  - rewrite ravel_multi_index_ok by apply Hb. reflexivity.
Qed.

End RebinFacts.

(** ** Masked cells *)



(** ** The order of binary64 *)

Section FloatOrder.

Ltac sf_cases :=
  repeat match goal with
         | x : spec_float |- _ => destruct x as [[|]|[|]| |[|] ? ?]
         end;
  simpl; try discriminate; try reflexivity.

Ltac cmp_cases :=
  change (PosDef.Pos.compare_cont Eq) with Pos.compare in *;
  repeat match goal with
         | |- context [Z.compare ?a ?b] =>
             destruct (Z.compare_spec a b); simpl; subst
         | |- context [Pos.compare ?a ?b] =>
             destruct (Pos.compare_spec a b); simpl; subst
         end;
  try discriminate; try reflexivity; try lia.

Lemma SFltb_trans x y z :
  SFltb x y = true -> SFltb y z = true -> SFltb x z = true.
Proof. unfold SFltb, SFcompare. sf_cases; cmp_cases. Qed.

Lemma SFltb_eqb x y v :
  SFltb x y = true -> SFeqb y v = true -> SFeqb x v = false.
Proof. unfold SFltb, SFeqb, SFcompare. sf_cases; cmp_cases. Qed.

Lemma SFleb_ltb x y : SFleb x y = true -> SFltb y x = false.
Proof. unfold SFltb, SFleb, SFcompare. sf_cases; cmp_cases. Qed.

Lemma SFleb_total x y :
  SFleb x y = false -> SFeqb x x = true -> SFeqb y y = true ->
  SFltb y x = true.
Proof. unfold SFltb, SFleb, SFeqb, SFcompare. sf_cases; cmp_cases. Qed.

Lemma SFltb_nan_r x y : SFeqb y y = false -> SFltb x y = false.
Proof. unfold SFltb, SFeqb, SFcompare. sf_cases; cmp_cases. Qed.

Lemma ltb_trans (x y z : float) :
  PrimFloat.ltb x y = true -> PrimFloat.ltb y z = true ->
  PrimFloat.ltb x z = true.
Proof. rewrite !FloatAxioms.ltb_spec. apply SFltb_trans. Qed.

Lemma ltb_eqb_false (x y v : float) :
  PrimFloat.ltb x y = true -> PrimFloat.eqb y v = true ->
  PrimFloat.eqb x v = false.
Proof.
  rewrite FloatAxioms.ltb_spec, !FloatAxioms.eqb_spec. apply SFltb_eqb.
Qed.

Lemma leb_not_ltb (x y : float) :
  PrimFloat.leb x y = true -> PrimFloat.ltb y x = false.
Proof.
  rewrite FloatAxioms.ltb_spec, FloatAxioms.leb_spec. apply SFleb_ltb.
Qed.

Lemma not_leb_ltb (x y : float) :
  PrimFloat.leb x y = false -> is_nan x = false -> is_nan y = false ->
  PrimFloat.ltb y x = true.
Proof.
  unfold is_nan.
  rewrite FloatAxioms.ltb_spec, FloatAxioms.leb_spec, !FloatAxioms.eqb_spec.
  intros H Hx Hy. apply negb_false_iff in Hx, Hy. now apply SFleb_total.
Qed.

Lemma ltb_nan_r (x y : float) :
  is_nan y = true -> PrimFloat.ltb x y = false.
Proof.
  unfold is_nan. rewrite FloatAxioms.ltb_spec, FloatAxioms.eqb_spec.
  intros H. apply negb_true_iff in H. now apply SFltb_nan_r.
Qed.
End FloatOrder.

Section ArgminFacts.
Lemma ltb_irrefl (x : float) : PrimFloat.ltb x x = false.
Proof.
  destruct (PrimFloat.leb x x) eqn:E.
  - now apply leb_not_ltb.
  - destruct (is_nan x) eqn:N.
    + now apply ltb_nan_r.
    + pose proof (not_leb_ltb E N N) as H.
      pose proof (@ltb_eqb_false x x x) as H'.
      unfold is_nan in N. apply negb_false_iff in N.
      rewrite H' in N; auto; discriminate.
Qed.

Lemma argmin_from_spec (l pre : list float) mp k :
  k < length pre ->
  mp = nth k (pre ++ l) 0%float ->
  is_nan mp = false ->
  (forall j, j < length pre ->
             PrimFloat.ltb (nth j (pre ++ l) 0%float) mp = false) ->
  let r := argmin_from mp k (length pre) l in
  r < length (pre ++ l) /\
  forall j, j < length (pre ++ l) ->
            PrimFloat.ltb (nth j (pre ++ l) 0%float)
                          (nth r (pre ++ l) 0%float) = false.
Proof.
  revert pre mp k; induction l as [|x t IH]; intros pre mp k Hk Hmp Hnan Hmin;
    simpl.
  - rewrite app_nil_r in *. split; [lia|]. intros j Hj. rewrite <- Hmp. auto.
  - assert (Hx : nth (length pre) (pre ++ x :: t) 0%float = x)
      by now rewrite nth_middle.
    assert (Hstep : forall mp' k',
               k' < length (pre ++ [x]) ->
               mp' = nth k' (pre ++ x :: t) 0%float ->
               is_nan mp' = false ->
               (forall j, j < length (pre ++ [x]) ->
                          PrimFloat.ltb (nth j (pre ++ x :: t) 0%float) mp' = false) ->
               let r := argmin_from mp' k' (S (length pre)) t in
               r < length (pre ++ x :: t) /\
               forall j, j < length (pre ++ x :: t) ->
                         PrimFloat.ltb (nth j (pre ++ x :: t) 0%float)
                                       (nth r (pre ++ x :: t) 0%float) = false).
    { intros mp' k' Hk' Hmp' Hnan' Hmin'.
      specialize (IH (pre ++ [x]) mp' k').
      rewrite <- app_assoc in IH. simpl in IH.
      replace (length (pre ++ [x])) with (S (length pre)) in IH
        by (rewrite length_app; simpl; lia).
      apply IH; auto.
      - rewrite length_app in Hk'; simpl in Hk'; lia.
      - intros j Hj. apply Hmin'. rewrite length_app; simpl; lia. }
    change (fleb mp x) with (PrimFloat.leb mp x).
    change (fis_nan x) with (is_nan x).
    destruct (PrimFloat.leb mp x) eqn:Hle; simpl.
    + apply Hstep; auto.
      * rewrite length_app; simpl; lia.
      * intros j Hj. rewrite length_app in Hj; simpl in Hj.
        destruct (Nat.eq_dec j (length pre)) as [->|Hne].
        -- rewrite Hx. now apply leb_not_ltb.
        -- apply Hmin. lia.
    + destruct (is_nan x) eqn:Hxn.
      * split; [rewrite length_app; simpl; lia|].
        intros j Hj. rewrite Hx. now apply ltb_nan_r.
      * apply Hstep; auto.
        -- rewrite length_app; simpl; lia.
        -- intros j Hj. rewrite length_app in Hj; simpl in Hj.
           destruct (Nat.eq_dec j (length pre)) as [->|Hne].
           ++ rewrite Hx. apply ltb_irrefl.
           ++ destruct (PrimFloat.ltb (nth j (pre ++ x :: t) 0%float) x) eqn:E;
                auto.
              pose proof (not_leb_ltb Hle Hnan Hxn) as Hlt.
              pose proof (ltb_trans E Hlt) as Hc.
              rewrite Hmin in Hc by lia. discriminate.
Qed.

(** [argmin] of a non-empty array is a position no element is strictly
    below. *)
Lemma argmin_spec (l : list float) :
  l <> [] ->
  exists i, argmin l = Ok i /\ i < length l /\
            forall j, j < length l ->
                      PrimFloat.ltb (nth j l 0%float) (nth i l 0%float) = false.
Proof.
  destruct l as [|x t]; [congruence|]. intros _. simpl.
  change (fis_nan x) with (is_nan x).
  destruct (is_nan x) eqn:Hn.
  - exists 0. split; auto. split; [simpl; lia|].
    intros j _. simpl (nth 0 _ _). now apply ltb_nan_r.
  - exists (argmin_from x 0 1 t). split; auto.
    apply (argmin_from_spec t [x] (mp := x) (k := 0)); simpl; auto.
    intros [|j] Hj; [|lia]. apply ltb_irrefl.
Qed.
End ArgminFacts.

(** ** The constructor and the bin centers *)

Section InitFacts.
Context {F : Type} {NF : Numeric F}.

Lemma removelast_len {A} (l : list A) : length (removelast l) = length l - 1.
Proof.
  induction l as [|a l IH]; simpl; auto.
  destruct l; simpl in *; auto. lia.
Qed.

Lemma centers_length (e : list F) : length (centers e) = length e - 1.
Proof.
  unfold centers. rewrite zipwith_length, removelast_len.
  destruct e; simpl; lia.
Qed.

Lemma centers_cons (a b : F) t :
  centers (a :: b :: t) = (fhalf * (b + a))%num :: centers (b :: t).
Proof. reflexivity. Qed.

Lemma flat_map_repeat_nth (l : list F) m i j d :
  i < length l -> j < m ->
  nth (i * m + j) (flat_map (fun c => repeat c m) l) d = nth i l d.
Proof.
  revert i; induction l as [|a l IH]; intros [|i]; simpl; intros Hi Hj; try lia.
  - rewrite app_nth1 by (rewrite repeat_length; lia). apply nth_repeat_lt; lia.
  - rewrite app_nth2 by (rewrite repeat_length; lia). rewrite repeat_length.
    replace (m + i * m + j - m) with (i * m + j) by lia. apply IH; lia.
Qed.

Lemma concat_repeat_nth (row : list F) n j d :
  0 < n -> j < length row -> nth j (concat (repeat row n)) d = nth j row d.
Proof.
  destruct n; [lia|]. intros _ Hj. simpl. now rewrite app_nth1.
Qed.

Lemma map_nth_seq (l : list F) d :
  map (fun i => nth i l d) (seq 0 (length l)) = l.
Proof.
  apply nth_ext with (d := d) (d' := d).
  - now rewrite length_map, length_seq.
  - intros n Hn. rewrite length_map, length_seq in Hn.
    rewrite nth_indep with (d' := (fun i => nth i l d) 0)
      by now rewrite length_map, length_seq.
    rewrite (map_nth (fun i => nth i l d)), seq_nth; auto.
Qed.

Lemma norm_index_nat ax n i :
  i < n -> norm_index (F:=F) ax n (Z.of_nat i) = Ok i.
Proof.
  intros H. unfold norm_index.
  replace ((0 <=? Z.of_nat i) && (Z.of_nat i <? Z.of_nat n))%Z with true.
  - now rewrite Nat2Z.id.
  - symmetry. apply andb_true_iff. split; [apply Z.leb_le|apply Z.ltb_lt]; lia.
Qed.

Lemma mask_or_inv (mask : array2 bool) (col : array2 F) m' :
  mask_or mask col = Ok m' ->
  has_shape col (shape2 mask) = true /\ shape2 m' = shape2 mask.
Proof.
  unfold mask_or. destruct (has_shape col (shape2 mask)); [|discriminate].
  intros [= <-]. auto.
Qed.

Lemma mask_all_inv cols (mask m' : array2 bool) :
  mask_all mask cols = Ok m' ->
  shape2 m' = shape2 mask /\
  Forall (fun nc : string * array2 F => has_shape (snd nc) (shape2 mask) = true) cols.
Proof.
  revert mask; induction cols as [|nc cols IH]; simpl; intros mask.
  - intros [= <-]. auto.
  - destruct (mask_or mask (snd nc)) as [m|e] eqn:E; simpl; [|discriminate].
    intros H. apply mask_or_inv in E as (Hs & Hm).
    apply IH in H as (H1 & H2). rewrite Hm in *. split; auto.
Qed.

(** What a successful construction has built. *)
Lemma init_inv ke mue dat fim kw (pk : PkmuResult F) :
  __init__ ke mue dat fim kw = Ok pk ->
  exists mask,
    pk = mkPkmu (map fst dat) ke mue (mkRec dat mask)
           (mkIndex
              (mk2 (length ke - 1) (length mue - 1)
                 (flat_map (fun c => repeat c (length mue - 1)) (centers ke)))
              (mk2 (length ke - 1) (length mue - 1)
                 (concat (repeat (centers mue) (length ke - 1)))))
           fim (map fst kw) kw
    /\ shape2 mask = (length ke - 1, length mue - 1)
    /\ Forall (fun nc : string * array2 F =>
                 has_shape (snd nc) (length ke - 1, length mue - 1) = true) dat.
Proof.
  unfold __init__. destruct ke as [|k0 ke]; [discriminate|].
  destruct mue as [|m0 mue]; [discriminate|].
  destruct (mask_all _ dat) as [mask|e] eqn:E; simpl; [|discriminate].
  destruct dat as [|nc dat]; [discriminate|].
  intros [= <-]. exists mask. apply mask_all_inv in E as (H1 & H2).
  split; [reflexivity|]. split; [exact H1|exact H2].
Qed.

Lemma init_k_center ke mue dat fim kw (pk : PkmuResult F) :
  __init__ ke mue dat fim kw = Ok pk -> 2 <= length mue ->
  k_center pk = Ok (centers ke).
Proof.
  intros H Hmu. destruct (init_inv _ _ _ _ _ H) as (mask & -> & _).
  unfold k_center, getitem2; simpl.
  rewrite (norm_index_nat 1 (i := 0)) by lia. simpl.
  unfold slice_positions, get2; simpl. rewrite Nat.sub_0_r.
  f_equal. rewrite <- (centers_length ke).
  etransitivity; [|apply (map_nth_seq (centers ke) fzero)].
  apply map_ext_in. intros i Hi. apply in_seq in Hi.
  apply flat_map_repeat_nth; lia.
Qed.

Lemma init_mu_center ke mue dat fim kw (pk : PkmuResult F) :
  __init__ ke mue dat fim kw = Ok pk -> 2 <= length ke ->
  mu_center pk = Ok (centers mue).
Proof.
  intros H Hk. destruct (init_inv _ _ _ _ _ H) as (mask & -> & _).
  unfold mu_center, getitem2; simpl.
  rewrite (norm_index_nat 0 (i := 0)) by lia. simpl.
  unfold slice_positions, get2; simpl. rewrite Nat.sub_0_r.
  f_equal. rewrite <- (centers_length mue).
  etransitivity; [|apply (map_nth_seq (centers mue) fzero)].
  apply map_ext_in. intros i Hi. apply in_seq in Hi.
  apply concat_repeat_nth; lia.
Qed.

(** With both axes non-empty, [_get_index] looks the value up among the
    centers of the axis [name] stands for. *)
Lemma init_get_index ke mue dat fim kw (pk : PkmuResult F) name val :
  __init__ ke mue dat fim kw = Ok pk -> 2 <= length ke -> 2 <= length mue ->
  let index := centers (if is_mu name then mue else ke) in
  _get_index pk name val
  = if fim then argmin (map (fun c => fabs (c - val)%num) index)
    else try_except (list_index index val)
           (fun e =>
              raise IndexError
                ([Txt "error converting "; name_fragment name;
                  Txt " index; try setting "; Txt "`force_index_match=True`: "]
                   ++ exn_msg e)).
Proof.
  intros H Hk Hmu. unfold _get_index.
  rewrite (init_k_center _ _ _ _ _ H Hmu). simpl.
  destruct (init_inv _ _ _ _ _ H) as (mask & Hpk & _).
  assert (Hf : force_index_match pk = fim) by (rewrite Hpk; reflexivity).
  rewrite Hf.
  destruct (is_mu name); simpl; auto.
  rewrite (init_mu_center _ _ _ _ _ H Hk). reflexivity.
Qed.
End InitFacts.

Section SliceFacts.
Context {F : Type} {NF : Numeric F}.

Lemma mapM_ok {A B} (f : A -> result F B) l :
  (forall a, In a l -> exists b, f a = Ok b) -> exists bs, mapM f l = Ok bs.
Proof.
  induction l as [|a l IH]; simpl; intros H; [eauto|].
  destruct (H a) as (b & ->); auto. simpl.
  destruct IH as (bs & ->); [intros; apply H; auto|]. simpl. eauto.
Qed.

Lemma has_shape_inv {A} (a : array2 A) n m :
  has_shape a (n, m) = true -> nrow a = n /\ ncol a = m /\ wf2 a.
Proof.
  unfold has_shape, shape_eqb, wf2; simpl. intros H.
  apply andb_true_iff in H as (H & Hl). apply andb_true_iff in H as (Hn & Hm).
  apply Nat.eqb_eq in Hn, Hm, Hl. subst. auto.
Qed.

(** Row [i] of a table of [n] rows exists for [i < n], and column [j] of a
    table of [m] columns for [j < m]. *)
Lemma mrec_getitem2_row (d : mrecords F) n m i :
  Forall (fun nc : string * array2 F => has_shape (snd nc) (n, m) = true) (fields d) ->
  shape2 (mrec_mask d) = (n, m) -> i < n ->
  exists sl, mrec_getitem2 d (IInt (Z.of_nat i)) (ISlice None None) = Ok sl.
Proof.
  intros Hf Hm Hi. unfold mrec_getitem2.
  destruct (mapM_ok (fun nc : string * array2 F =>
                       v <- getitem2 fzero (snd nc) (IInt (Z.of_nat i)) (ISlice None None) ;;
                       Ok (fst nc, v)) (fields d)) as (fs & ->).
  { intros nc Hin. rewrite Forall_forall in Hf.
    destruct (has_shape_inv _ _ _ (Hf nc Hin)) as (Hn & _).
    simpl. rewrite norm_index_nat by lia. simpl. eauto. }
  simpl. injection Hm as Hn _. rewrite norm_index_nat by lia. simpl. eauto.
Qed.

Lemma mrec_getitem2_col (d : mrecords F) n m j :
  Forall (fun nc : string * array2 F => has_shape (snd nc) (n, m) = true) (fields d) ->
  shape2 (mrec_mask d) = (n, m) -> j < m ->
  exists sl, mrec_getitem2 d (ISlice None None) (IInt (Z.of_nat j)) = Ok sl.
Proof.
  intros Hf Hm Hj. unfold mrec_getitem2.
  destruct (mapM_ok (fun nc : string * array2 F =>
                       v <- getitem2 fzero (snd nc) (ISlice None None) (IInt (Z.of_nat j)) ;;
                       Ok (fst nc, v)) (fields d)) as (fs & ->).
  { intros nc Hin. rewrite Forall_forall in Hf.
    destruct (has_shape_inv _ _ _ (Hf nc Hin)) as (_ & Hn & _).
    simpl. rewrite norm_index_nat by lia. simpl. eauto. }
  simpl. injection Hm as _ Hn. rewrite norm_index_nat by lia. simpl. eauto.
Qed.

Lemma adjacent_pairwise {A} (r : A -> A -> bool) (l : list A) d :
  (forall x y z, r x y = true -> r y z = true -> r x z = true) ->
  adjacent r l = true ->
  forall j i, j < i -> i < length l -> r (nth j l d) (nth i l d) = true.
Proof.
  intros Htr. induction l as [|a l IH]; simpl; intros Hadj j i Hji Hi; [lia|].
  assert (Hl : adjacent r l = true).
  { destruct l; auto. apply andb_true_iff in Hadj. tauto. }
  assert (Hhd : forall i, i < length l -> r a (nth i l d) = true).
  { clear j i Hji Hi. intros i; induction i as [|i IHi]; intros Hi.
    - destruct l; simpl in *; [lia|]. apply andb_true_iff in Hadj. tauto.
    - eapply Htr; [apply IHi; lia|]. apply IH; auto; lia. }
  destruct i as [|i]; [lia|]. destruct j as [|j].
  - apply Hhd. lia.
  - apply IH; auto; lia.
Qed.
End SliceFacts.

Lemma inside_bins_increasing (e : list float) :
  inside_bins e = true -> adjacent PrimFloat.ltb (centers e) = true.
Proof.
  induction e as [|a e IH]; auto.
  destruct e as [|b e]; auto.
  rewrite centers_cons. intros H. simpl in H.
  apply andb_true_iff in H as (H & Hin). apply andb_true_iff in H as (Ha & Hb).
  specialize (IH Hin).
  destruct e as [|c e]; auto.
  rewrite centers_cons in *. simpl in Hin.
  apply andb_true_iff in Hin as (Hin & _). apply andb_true_iff in Hin as (Hc & _).
  change (adjacent PrimFloat.ltb
            ((fhalf * (b + a))%num :: (fhalf * (c + b))%num :: centers (c :: e)))
    with (PrimFloat.ltb (fhalf * (b + a))%num (fhalf * (c + b))%num
          && adjacent PrimFloat.ltb ((fhalf * (c + b))%num :: centers (c :: e))).
  rewrite IH, andb_true_r. eapply ltb_trans; eauto.
Qed.

(** Centers strictly inside their bins are pairwise different, and a value
    equal to one of them is first met at that one. *)
Lemma inside_bins_first (e : list float) i v :
  inside_bins e = true -> i < length (centers e) ->
  PrimFloat.eqb (nth i (centers e) 0%float) v = true ->
  find_index (fun c => PrimFloat.eqb c v) (centers e) = Some i.
Proof.
  intros Hin Hi Heq. apply find_index_Some with (d := 0%float); auto.
  intros j Hj. eapply ltb_eqb_false; eauto.
  apply adjacent_pairwise; auto.
  - intros x y z. apply ltb_trans.
  - now apply inside_bins_increasing.
Qed.

(** ** Indexing by the value of a bin center *)

Section LookupFacts.
Variables (ke mue : list float) (dat : list (string * array2 float)).
Variables (fim : bool) (kw : list (string * meta float)) (pk : PkmuResult float).
Hypothesis Hinit : __init__ ke mue dat fim kw = Ok pk.
Hypothesis Hk : 2 <= length ke.
Hypothesis Hmu : 2 <= length mue.

(** Exact match: the value of center [i] resolves to [i]. *)
Lemma get_index_exact name i v :
  fim = false -> inside_bins (axis_edges ke mue name) = true ->
  i < length (axis_edges ke mue name) - 1 ->
  PrimFloat.eqb (nth i (centers (axis_edges ke mue name)) 0%float) v = true ->
  _get_index pk name v = Ok i.
Proof.
  intros Hf Hin Hi Heq. rewrite (@init_get_index float binary64 ke mue dat fim kw pk name v Hinit Hk Hmu). subst fim.
  cbv zeta. fold (axis_edges ke mue name). unfold list_index.
  change (fun c : float => feqb c v) with (fun c : float => PrimFloat.eqb c v).
  rewrite (@inside_bins_first (axis_edges ke mue name) i v); auto.
  now rewrite centers_length.
Qed.

(** Exact match: a value no center equals is an [IndexError]. *)
Lemma get_index_missing name v :
  fim = false ->
  (forall c, In c (centers (axis_edges ke mue name)) -> PrimFloat.eqb c v = false) ->
  exists e, _get_index pk name v = Raise e /\ exn_cls e = IndexError.
Proof.
  intros Hf Hno. rewrite (@init_get_index float binary64 ke mue dat fim kw pk name v Hinit Hk Hmu). subst fim.
  cbv zeta. fold (axis_edges ke mue name). unfold list_index.
  rewrite find_index_None by exact Hno. simpl. unfold raise. eauto.
Qed.

(** Nearest match: some bin is returned, and no bin is strictly nearer. *)
Lemma get_index_nearest name v :
  fim = true ->
  exists i, _get_index pk name v = Ok i /\ i < length (axis_edges ke mue name) - 1 /\
            forall j, j < length (axis_edges ke mue name) - 1 ->
              PrimFloat.ltb
                (abs (nth j (centers (axis_edges ke mue name)) 0 - v))%float
                (abs (nth i (centers (axis_edges ke mue name)) 0 - v))%float = false.
Proof.
  intros Hf. rewrite (@init_get_index float binary64 ke mue dat fim kw pk name v Hinit Hk Hmu). subst fim.
  cbv zeta. fold (axis_edges ke mue name).
  set (cs := centers (axis_edges ke mue name)).
  assert (Hlen : length cs = length (axis_edges ke mue name) - 1) by apply centers_length.
  assert (Hne : map (fun c : float => fabs (c - v)%num) cs <> []).
  { destruct cs; simpl in *; [|discriminate].
    unfold axis_edges in Hlen. destruct (is_mu name); lia. }
  destruct (argmin_spec Hne) as (i & -> & Hi & Hmin).
  rewrite length_map in Hi, Hmin. exists i. split; auto. split; [lia|].
  intros j Hj. specialize (Hmin j ltac:(lia)).
  rewrite !nth_indep with (d := 0%float) (d' := (fun c : float => fabs (c - v)%num) 0%float)
    in Hmin by (rewrite length_map; lia).
  rewrite !(map_nth (fun c : float => fabs (c - v)%num)) in Hmin. exact Hmin.
Qed.

Lemma row_exists i :
  i < length ke - 1 ->
  exists sl, mrec_getitem2 (data pk) (IInt (Z.of_nat i)) (ISlice None None) = Ok sl.
Proof.
  destruct (init_inv _ _ _ _ _ Hinit) as (mask & -> & Hm & Hf).
  intros Hi. now apply mrec_getitem2_row with (n := length ke - 1) (m := length mue - 1).
Qed.

Lemma col_exists j :
  j < length mue - 1 ->
  exists sl, mrec_getitem2 (data pk) (ISlice None None) (IInt (Z.of_nat j)) = Ok sl.
Proof.
  destruct (init_inv _ _ _ _ _ Hinit) as (mask & -> & Hm & Hf).
  intros Hj. now apply mrec_getitem2_col with (n := length ke - 1) (m := length mue - 1).
Qed.

(** Once a value resolves to bin [i], it indexes as the integer [i] does. *)
Lemma resolves_like_position ax v i :
  _get_index pk (NmInt ax) v = Ok i ->
  resolve pk ax (ByVal v) = resolve pk ax (ByPos (Z.of_nat i)).
Proof. intros H. simpl. now rewrite H. Qed.

Lemma getitem_first_like_position v i s :
  _get_index pk (NmInt 0) v = Ok i ->
  __getitem__ pk (KTuple [SRef (ByVal v); s])
  = __getitem__ pk (KTuple [SRef (ByPos (Z.of_nat i)); s]).
Proof.
  intros H. unfold __getitem__, getitem_body. simpl. now rewrite H.
Qed.

Lemma getitem_second_like_position v j s :
  _get_index pk (NmInt 1) v = Ok j ->
  __getitem__ pk (KTuple [s; SRef (ByVal v)])
  = __getitem__ pk (KTuple [s; SRef (ByPos (Z.of_nat j))]).
Proof.
  intros H. unfold __getitem__, getitem_body. simpl. now rewrite H.
Qed.

Lemma Pmu_like_position v i :
  _get_index pk (NmStr "k") v = Ok i -> i < length ke - 1 ->
  exists sl, Pmu pk (ByPos (Z.of_nat i)) = Ok sl /\ Pmu pk (ByVal v) = Ok sl.
Proof.
  intros H Hi. destruct (row_exists Hi) as (sl & Hsl).
  exists sl. unfold Pmu. rewrite H. simpl. auto.
Qed.

Lemma Pk_like_position v j :
  _get_index pk (NmStr "mu") v = Ok j -> j < length mue - 1 ->
  exists sl, Pk pk (ByPos (Z.of_nat j)) = Ok sl /\ Pk pk (ByVal v) = Ok sl.
Proof.
  intros H Hj. destruct (col_exists Hj) as (sl & Hsl).
  exists sl. unfold Pk. rewrite H. simpl. auto.
Qed.

Lemma getitem_first_missing v s e :
  _get_index pk (NmInt 0) v = Raise e ->
  exists e', __getitem__ pk (KTuple [SRef (ByVal v); s]) = Raise e'
             /\ exn_cls e' = KeyError.
Proof.
  intros H. unfold __getitem__, getitem_body. simpl. rewrite H. simpl.
  unfold raise. eauto.
Qed.

Lemma getitem_second_missing v s e :
  _get_index pk (NmInt 1) v = Raise e ->
  exists e', __getitem__ pk (KTuple [s; SRef (ByVal v)]) = Raise e'
             /\ exn_cls e' = KeyError.
Proof.
  intros H. unfold __getitem__, getitem_body. simpl.
  unfold raise.
  destruct (resolve_subkey pk 0 s) as [k0|e0]; simpl; [|eauto].
  rewrite H. simpl. eauto.
Qed.
End LookupFacts.

(** C3 as worded fails, in two ways.  A float that is not inside a tuple
    is not looked up among the centers: [pk[0.75]], the center of the
    second of two k bins, is a [KeyError] where [pk[1]] is that bin, and
    so it is with [force_index_match=True], where the claim has no float
    raise.  And inside a tuple the first center equal to the float is
    taken: with strictly increasing k edges one unit in the last place
    apart the centers of the second and of the third bin are the same
    number, and indexing by it returns the second bin, not the third, from
    [__getitem__] and from [Pmu]. *)
Lemma C3_counterexample :
  (exists pk,
      Examples12.pk_half false = Ok pk
      /\ nth 1 (centers Examples12.kedges_half) 0%float = 0.75%float
      /\ (exists e, __getitem__ pk (KFloat 0.75%float) = Raise e
                    /\ exn_cls e = KeyError)
      /\ __getitem__ pk (KInt 1)
         = Ok (mkView [("power"%string, VVector [20%float])] (VVector [false])))
  /\ (exists pk,
         Examples12.pk_half true = Ok pk
         /\ exists e, __getitem__ pk (KFloat 0.75%float) = Raise e
                      /\ exn_cls e = KeyError)
  /\ (exists pk c,
         Examples12.pk_fine = Ok pk
         /\ adjacent PrimFloat.ltb Examples12.kedges_fine = true
         /\ nth 1 (centers Examples12.kedges_fine) 0%float = c
         /\ nth 2 (centers Examples12.kedges_fine) 0%float = c
         /\ __getitem__ pk (KTuple [SRef (ByVal c); SRef (ByPos 0)])
            = Ok (mkView [("power"%string, VScalar 20%float)] (VScalar false))
         /\ __getitem__ pk (KTuple [SRef (ByPos 2); SRef (ByPos 0)])
            = Ok (mkView [("power"%string, VScalar 30%float)] (VScalar false))
         /\ Pmu pk (ByVal c)
            = Ok (mkView [("power"%string, VVector [20%float])] (VVector [false]))
         /\ Pmu pk (ByPos 2)
            = Ok (mkView [("power"%string, VVector [30%float])] (VVector [false]))
         /\ __getitem__ pk (KTuple [SRef (ByVal c); SRef (ByPos 0)])
            <> __getitem__ pk (KTuple [SRef (ByPos 2); SRef (ByPos 0)])).
Proof.
  split; [|split].
  - destruct (Examples12.pk_half false) as [pk|e] eqn:E;
      [|vm_compute in E; discriminate].
    exists pk. vm_compute in E. injection E as <-.
    repeat split; try (vm_compute; reflexivity).
    eexists. split; vm_compute; reflexivity.
  - destruct (Examples12.pk_half true) as [pk|e] eqn:E;
      [|vm_compute in E; discriminate].
    exists pk. vm_compute in E. injection E as <-.
    split; [reflexivity|]. eexists. split; vm_compute; reflexivity.
  - destruct Examples12.pk_fine as [pk|e] eqn:E;
      [|vm_compute in E; discriminate].
    exists pk, (1 + 2 * Examples12.ulp)%float.
    vm_compute in E. injection E as <-.
    repeat split; try (vm_compute; reflexivity).
    vm_compute. intros H. discriminate H.
Qed.

(** Keyword names, one by one, against the names the class uses. *)
Ltac fresh_by_cases :=
  let k := fresh "k" in
  let Hk := fresh "Hk" in
  intros k Hk; simpl in Hk;
  repeat (destruct Hk as [Hk|Hk];
          [subst k; split; [|split];
           [simpl; intuition discriminate|simpl; intuition discriminate
           |reflexivity]|]);
  contradiction.

(** C3, amended. For a [PkmuResult] as the constructor builds it (keywords
    whose names the class does not use), with at least one bin on each
    axis, and for a float given as an entry or as a slice bound of a
    two-entry tuple key of [__getitem__], or as the argument of [Pk] or
    [Pmu]: when [force_index_match] is false and every center lies strictly
    inside its bin, a float equal to a bin center returns what that bin's
    position returns, and a float equal to no center raises a lookup
    failure; when [force_index_match] is true, any float returns the bin
    whose center is nearest in absolute difference, without raising. *)
Theorem C3_index_by_center ke mue dat fim kw (pk : PkmuResult float) :
  __init__ ke mue dat fim kw = Ok pk ->
  fresh_keywords kw ->
  2 <= length ke -> 2 <= length mue ->
  (fim = false -> inside_bins ke = true -> inside_bins mue = true ->
   exact_lookup ke mue pk)
  /\ (fim = true -> nearest_lookup ke mue pk).
Proof.
  intros Hinit _ Hk Hmu.
  pose proof (@get_index_exact ke mue dat fim kw pk Hinit Hk Hmu) as Hex.
  pose proof (@get_index_missing ke mue dat fim kw pk Hinit Hk Hmu) as Hmiss.
  pose proof (@get_index_nearest ke mue dat fim kw pk Hinit Hk Hmu) as Hnear.
  pose proof (@Pmu_like_position ke mue dat fim kw pk Hinit) as HPmu.
  pose proof (@Pk_like_position ke mue dat fim kw pk Hinit) as HPk.
  split.
  - intros Hf Hink Hinmu. unfold exact_lookup. repeat split.
    + apply resolves_like_position. now apply (Hex (NmInt 0)).
    + apply HPmu; auto; now apply (Hex (NmStr "k")).
    + intros s. apply getitem_first_like_position. now apply (Hex (NmInt 0)).
    + apply resolves_like_position. now apply (Hex (NmInt 1)).
    + apply HPk; auto; now apply (Hex (NmStr "mu")).
    + intros s. apply getitem_second_like_position. now apply (Hex (NmInt 1)).
    + destruct (Hmiss (NmStr "k") v Hf H) as (e & He & Hc).
      exists e. unfold Pmu. rewrite He. auto.
    + intros s. destruct (Hmiss (NmInt 0) v Hf H) as (e & He & Hc).
      eapply getitem_first_missing; eauto.
    + destruct (Hmiss (NmStr "mu") v Hf H) as (e & He & Hc).
      exists e. unfold Pk. rewrite He. auto.
    + intros s. destruct (Hmiss (NmInt 1) v Hf H) as (e & He & Hc).
      eapply getitem_second_missing; eauto.
  - intros Hf. unfold nearest_lookup. split; intros v.
    + destruct (Hnear (NmInt 0) v Hf) as (i & Hi & Hlt & Hmin).
      exists i. simpl in Hlt, Hmin. repeat split; auto.
      * simpl. now rewrite Hi.
      * assert (Hs : _get_index pk (NmStr "k") v = Ok i).
        { rewrite (@init_get_index float binary64 ke mue dat fim kw pk
                     (NmInt 0) v Hinit Hk Hmu) in Hi.
          rewrite (@init_get_index float binary64 ke mue dat fim kw pk
                     (NmStr "k") v Hinit Hk Hmu).
          rewrite Hf in Hi |- *. exact Hi. }
        destruct (HPmu v i Hs Hlt) as (sl & H1 & H2). eauto.
      * intros s. now apply getitem_first_like_position.
    + destruct (Hnear (NmInt 1) v Hf) as (j & Hj & Hlt & Hmin).
      exists j. simpl in Hlt, Hmin. repeat split; auto.
      * simpl. now rewrite Hj.
      * assert (Hs : _get_index pk (NmStr "mu") v = Ok j).
        { rewrite (@init_get_index float binary64 ke mue dat fim kw pk
                     (NmInt 1) v Hinit Hk Hmu) in Hj.
          rewrite (@init_get_index float binary64 ke mue dat fim kw pk
                     (NmStr "mu") v Hinit Hk Hmu).
          rewrite Hf in Hj |- *. exact Hj. }
        destruct (HPk v j Hs Hlt) as (sl & H1 & H2). eauto.
      * intros s. now apply getitem_second_like_position.
Qed.

Lemma C3_index_by_center_witness :
  (exists pk, Examples2.pk5 false = Ok pk
              /\ exact_lookup Examples2.kedges5 Examples2.muedges5 pk)
  /\ (exists pk, Examples2.pk5 true = Ok pk
                 /\ nearest_lookup Examples2.kedges5 Examples2.muedges5 pk).
Proof.
  split.
  - destruct (Examples2.pk5 false) as [pk|e] eqn:E; [|vm_compute in E; discriminate].
    exists pk. split; auto.
    apply (@C3_index_by_center Examples2.kedges5 Examples2.muedges5 Examples2.data5
             false [] pk E);
      first [fresh_by_cases | simpl; try lia; reflexivity].
  - destruct (Examples2.pk5 true) as [pk|e] eqn:E; [|vm_compute in E; discriminate].
    exists pk. split; auto.
    apply (@C3_index_by_center Examples2.kedges5 Examples2.muedges5 Examples2.data5
             true [] pk E);
      first [fresh_by_cases | simpl; try lia; reflexivity].
Defined.

(** C10. Whatever fails inside [__getitem__] reaches the caller as a
    [KeyError] whose message wraps the message of the failure: nothing else
    is ever raised, a failed lookup of a bin-center value and a tuple of
    any length other than two (one entry as well as three) included, whose
    own [IndexError] the caller does not see. *)
Theorem C10_getitem_raises_KeyError :
  forall (F : Type) (NF : Numeric F) (pk : PkmuResult F),
    (forall k cause, getitem_body pk k = Raise cause ->
                     __getitem__ pk k = Raise (wrapped cause))
    /\ (forall k e, __getitem__ pk k = Raise e ->
                    exn_cls e = KeyError
                    /\ exists cause, getitem_body pk k = Raise cause /\ e = wrapped cause)
    /\ (forall l, length l <> 2 ->
                  getitem_body pk (KTuple l)
                  = Raise (mkExn IndexError [Txt "too many indices for array"])
                  /\ __getitem__ pk (KTuple l)
                     = Raise (mkExn KeyError
                                [Txt "Key not understood in __getitem__: ";
                                 Txt "too many indices for array"]))
    /\ (forall v s cause,
           _get_index pk (NmInt 0) v = Raise cause ->
           __getitem__ pk (KTuple [SRef (ByVal v); s]) = Raise (wrapped cause))
    /\ (forall v s k0 cause,
           resolve_subkey pk 0 s = Ok k0 ->
           _get_index pk (NmInt 1) v = Raise cause ->
           __getitem__ pk (KTuple [s; SRef (ByVal v)]) = Raise (wrapped cause)).
Proof.
  intros F NF pk. split; [|split; [|split; [|split]]].
  - intros k cause H. unfold __getitem__. now rewrite H.
  - intros k e H. unfold __getitem__ in H.
    destruct (getitem_body pk k) as [a|c]; simpl in H; [discriminate|].
    injection H as <-. split; [reflexivity|eauto].
  - intros l H. apply Nat.eqb_neq in H. unfold __getitem__, getitem_body.
    rewrite H. simpl. split; reflexivity.
  - intros v s cause H. unfold __getitem__, getitem_body. simpl. now rewrite H.
  - intros v s k0 cause H0 H. unfold __getitem__, getitem_body. simpl.
    now rewrite H0, H.
Qed.

Lemma C10_getitem_raises_KeyError_witness :
  exists pk, Examples2.pk5 false = Ok pk
    /\ __getitem__ pk (KTuple [SRef (ByPos 1)])
       = Raise (mkExn KeyError [Txt "Key not understood in __getitem__: ";
                                Txt "too many indices for array"])
    /\ __getitem__ pk (KTuple [SRef (ByPos 1); SRef (ByPos 0); SRef (ByPos 0)])
       = Raise (mkExn KeyError [Txt "Key not understood in __getitem__: ";
                                Txt "too many indices for array"]).
Proof.
  destruct (Examples2.pk5 false) as [pk|e] eqn:E; [|vm_compute in E; discriminate].
  exists pk. split; [reflexivity|].
  destruct (C10_getitem_raises_KeyError binary64 pk) as (_ & _ & H & _).
  split; apply H; simpl; lia.
Defined.

(** C5. [kedges=[0,1,2,3,4]], [muedges=[0,0.5,1]], uniform weights, every
    cell equal to its k-bin index: [reindex_k(2)] makes the two equal-width
    k bins of edges 0, 2, 4 and returns 0.5 and 2.5 in each mu column. *)
Theorem C5_reindex_k_example :
  exists pk pk',
    Examples2.pk5 false = Ok pk
    /\ reindex_k pk (BinsInt 2) WNone = Ok pk'
    /\ kedges pk' = [0; 2; 4]%float
    /\ muedges pk' = Examples2.muedges5
    /\ (forall name col, In (name, col) (fields (data pk')) ->
          name = "power"%string
          /\ shape2 col = (2, 2)
          /\ Examples2.column 0%float col 0 = [0.5; 2.5]%float
          /\ Examples2.column 0%float col 1 = [0.5; 2.5]%float)
    /\ map fst (fields (data pk')) = ["power"%string]
    /\ flat (mrec_mask (data pk')) = [false; false; false; false].
Proof.
  destruct (Examples2.pk5 false) as [pk|e] eqn:E; [|vm_compute in E; discriminate].
  exists pk. vm_compute in E. injection E as <-.
  eexists. split; [reflexivity|]. split; [vm_compute; reflexivity|].
  repeat split; try reflexivity.
  all: destruct H as [[= <- <-]|[]]; reflexivity.
Qed.

(** ** Pickling: what is written is read back *)

Section PickleFacts.
Context {F : Type} {NF : Numeric F}.

Lemma lookup_dict_set_same {V} k (v : V) d : lookup k (dict_set k v d) = Some v.
Proof.
  unfold lookup. induction d as [|kv d IH]; simpl.
  - now rewrite String.eqb_refl.
  - destruct (String.eqb (fst kv) k) eqn:E; simpl.
    + now rewrite String.eqb_refl.
    + now rewrite E.
Qed.

Lemma lookup_dict_set_other {V} k k' (v : V) d :
  k <> k' -> lookup k' (dict_set k v d) = lookup k' d.
Proof.
  intros Hne. unfold lookup. induction d as [|kv d IH]; simpl.
  - apply String.eqb_neq in Hne. now rewrite Hne.
  - destruct (String.eqb (fst kv) k) eqn:E; simpl.
    + apply String.eqb_eq in E. rewrite E.
      apply String.eqb_neq in Hne. now rewrite Hne.
    + destruct (String.eqb (fst kv) k'); auto.
Qed.

Lemma lookup_fold_other (kw : list (string * meta F)) base k :
  ~ In k (map fst kw) ->
  lookup k (fold_left (fun d kv => dict_set (fst kv) (PMeta (snd kv)) d) kw base)
  = lookup k base.
Proof.
  revert base; induction kw as [|kv kw IH]; simpl; intros base H; auto.
  rewrite IH by tauto. apply lookup_dict_set_other. tauto.
Qed.

Lemma lookup_fold_meta (kw : list (string * meta F)) base k m :
  NoDup (map fst kw) -> In (k, m) kw ->
  lookup k (fold_left (fun d kv => dict_set (fst kv) (PMeta (snd kv)) d) kw base)
  = Some (PMeta m).
Proof.
  revert base; induction kw as [|kv kw IH]; simpl; intros base Hnd Hin;
    [contradiction|].
  inversion Hnd as [|? ? Hnot Hnd']; subst.
  destruct Hin as [->|Hin].
  - simpl in *. rewrite lookup_fold_other by auto. apply lookup_dict_set_same.
  - now apply IH.
Qed.

Lemma lookup_In {V} (d : list (string * V)) k v :
  NoDup (map fst d) -> In (k, v) d -> lookup k d = Some v.
Proof.
  unfold lookup. induction d as [|kv d IH]; simpl; intros Hnd Hin; [contradiction|].
  inversion Hnd as [|? ? Hnot Hnd']; subst.
  destruct Hin as [->|Hin]; simpl.
  - now rewrite String.eqb_refl.
  - destruct (String.eqb (fst kv) k) eqn:E; auto.
    apply String.eqb_eq in E. exfalso. apply Hnot. rewrite E.
    apply in_map_iff. exists (k, v). auto.
Qed.

Lemma mapM_id {A} (f : string -> result F (string * A)) (l : list (string * A)) :
  (forall kv, In kv l -> f (fst kv) = Ok kv) -> mapM f (map fst l) = Ok l.
Proof.
  induction l as [|kv l IH]; simpl; intros H; auto.
  rewrite H by auto. simpl. rewrite IH by auto. reflexivity.
Qed.

(** Reading back what was written builds the instance again, provided no
    keyword argument took the name of one of the instance's own
    attributes. *)
Lemma pickle_roundtrip ke mue dat fim kw (pk : PkmuResult F) filename fs :
  __init__ ke mue dat fim kw = Ok pk ->
  NoDup (map fst dat) -> NoDup (map fst kw) ->
  (forall k, In k (map fst kw) -> ~ In k own_attributes) ->
  from_pickle filename (to_pickle pk filename fs) = Ok pk.
Proof.
  intros Hinit Hd Hk Hown.
  destruct (init_inv _ _ _ _ _ Hinit) as (mask & Hpk & _).
  unfold from_pickle, to_pickle. rewrite lookup_dict_set_same. cbv beta iota.
  assert (Hbase : forall k, In k own_attributes ->
            getkey (__dict__ pk) k
            = getkey [("columns"%string, PStrList (columns pk));
                      ("kedges"%string, PArray (kedges pk));
                      ("muedges"%string, PArray (muedges pk));
                      ("data"%string, PData (data pk));
                      ("index"%string, PIndex (index pk));
                      ("force_index_match"%string, PBool (force_index_match pk));
                      ("_metadata"%string, PStrList (_metadata pk))] k).
  { intros k Hin. unfold getkey, __dict__. rewrite lookup_fold_other; auto.
    rewrite Hpk. simpl. intros Hc. exact (Hown k Hc Hin). }
  rewrite !Hbase by (unfold own_attributes; simpl; tauto).
  assert (Hmeta : forall kv, In kv kw ->
            getkey (__dict__ pk) (fst kv) = Ok (PMeta (snd kv))).
  { intros [k m] Hin. unfold getkey, __dict__. simpl fst.
    rewrite (@lookup_fold_meta (attrs pk) _ k m); rewrite ?Hpk; auto. }
  clear Hbase. subst pk.
  cbn [getkey lookup find fst snd String.eqb Ascii.eqb Bool.eqb
         option_map bind columns data fields _metadata kedges muedges
         force_index_match] in *.
  rewrite mapM_id.
  2:{ intros [name col] Hin. simpl fst. rewrite (@lookup_In _ dat name col); auto. }
  cbn [bind]. rewrite mapM_id.
  2:{ intros kv Hin. rewrite Hmeta by auto. destruct kv; reflexivity. }
  cbn [bind]. exact Hinit.
Qed.
End PickleFacts.

(** C8. Writing a [PkmuResult] with [to_pickle] and reading the file back
    with [from_pickle] rebuilds the instance: the same [kedges], [muedges],
    [force_index_match], columns and metadata, and the same data table with
    the same mask. (The instance is one the constructor built from a dict
    of columns, with keyword arguments that are not named like its own
    attributes.) *)
Theorem C8_pickle_roundtrip (F : Type) (NF : Numeric F)
    ke mue dat fim kw (pk : PkmuResult F) filename fs :
  __init__ ke mue dat fim kw = Ok pk ->
  NoDup (map fst dat) -> NoDup (map fst kw) ->
  (forall k, In k (map fst kw) -> ~ In k own_attributes) ->
  exists pk',
    from_pickle filename (to_pickle pk filename fs) = Ok pk'
    /\ kedges pk' = kedges pk /\ muedges pk' = muedges pk
    /\ force_index_match pk' = force_index_match pk
    /\ columns pk' = columns pk
    /\ _metadata pk' = _metadata pk /\ attrs pk' = attrs pk
    /\ fields (data pk') = fields (data pk)
    /\ mrec_mask (data pk') = mrec_mask (data pk)
    /\ pk' = pk.
Proof.
  intros Hinit Hd Hk Hown. exists pk.
  split; [now apply pickle_roundtrip with (ke := ke) (mue := mue) (dat := dat)
                                          (fim := fim) (kw := kw)|].
  repeat split.
Qed.

Lemma C8_pickle_roundtrip_witness :
  exists pk, Examples3.pk = Ok pk
    /\ flat (mrec_mask (data pk)) = [false; true; false; false]
    /\ exists pk',
         from_pickle "pkmu.pickle" (to_pickle pk "pkmu.pickle" []) = Ok pk'
         /\ kedges pk' = kedges pk /\ muedges pk' = muedges pk
         /\ force_index_match pk' = force_index_match pk
         /\ columns pk' = columns pk
         /\ _metadata pk' = _metadata pk /\ attrs pk' = attrs pk
         /\ fields (data pk') = fields (data pk)
         /\ mrec_mask (data pk') = mrec_mask (data pk)
         /\ pk' = pk.
Proof.
  destruct Examples3.pk as [pk|e] eqn:E; [|vm_compute in E; discriminate].
  exists pk. split; [reflexivity|]. split.
  { vm_compute in E. injection E as <-. reflexivity. }
  apply (@C8_pickle_roundtrip float binary64 [0; 1; 2]%float [0; 0.5; 1]%float
           Examples3.dat true Examples3.meta pk "pkmu.pickle" [] E).
  - repeat constructor; simpl; intuition discriminate.
  - repeat constructor; simpl; intuition discriminate.
  - simpl. intros k [<-|[<-|[]]]; intuition discriminate.
Defined.

(** C2 (what the code does). The guard of [_reindex] compares the old
    number of bins with the number of bins for an integer target but with
    the number of edges for an explicit edge sequence: an integer [n] is
    rejected exactly when [n >= N_old], a sequence [e] exactly when
    [len(e) >= N_old], so edges that define [N_old - 1] bins are rejected.
    With four k bins, [reindex_k([0,1,2,4])] (three bins) raises the
    [ValueError] while [reindex_k(3)] and [reindex_k([0,2,4])] are accepted. *)
Theorem C2_explicit_edges_off_by_one :
  (forall (F : Type) (NF : Numeric F) (pk : PkmuResult F) i index edges w,
      let N_old := axis_len i (shape2 (pick i index)) in
      (forall n, (Z.of_nat N_old <= n)%Z ->
                 _reindex pk i index edges (BinsInt n) w = too_many_bins N_old)
      /\ (forall e, N_old <= length e ->
                    _reindex pk i index edges (BinsEdges e) w = too_many_bins N_old))
  /\ exists pk,
       Examples2.pk5 false = Ok pk /\ Nk pk = 4
       /\ reindex_k pk (BinsEdges [0; 1; 2; 4]%float) WNone
          = Raise (mkExn ValueError
                     [Txt "Can only reindex into fewer than "; Int 4; Txt " bins"])
       /\ (exists pk', reindex_k pk (BinsInt 3) WNone = Ok pk' /\ Nk pk' = 3)
       /\ (exists pk', reindex_k pk (BinsEdges [0; 2; 4]%float) WNone = Ok pk'
                       /\ Nk pk' = 2).
Proof.
  split.
  - intros F NF pk i index edges w N_old. split.
    + intros n Hn. unfold _reindex. fold N_old.
      apply Z.leb_le in Hn. now rewrite Hn.
    + intros e He. unfold _reindex. fold N_old.
      apply Nat.leb_le in He. now rewrite He.
  - destruct (Examples2.pk5 false) as [pk|e] eqn:E; [|vm_compute in E; discriminate].
    exists pk. vm_compute in E. injection E as <-.
    split; [reflexivity|]. split; [reflexivity|]. split; [vm_compute; reflexivity|].
    split; eexists; (split; [vm_compute; reflexivity|reflexivity]).
Qed.

(** The guard at the instance of four k bins: the integer 4 and a sequence
    of four edges are turned away alike. *)
Lemma C2_explicit_edges_off_by_one_witness :
  exists pk,
    Examples2.pk5 false = Ok pk
    /\ reindex_k pk (BinsInt 4) WNone = too_many_bins 4
    /\ reindex_k pk (BinsEdges [0; 1; 2; 4]%float) WNone = too_many_bins 4.
Proof.
  destruct (Examples2.pk5 false) as [pk|e] eqn:E; [|vm_compute in E; discriminate].
  exists pk. split; auto.
  destruct C2_explicit_edges_off_by_one as (H & _).
  destruct (H float binary64 pk ax0
              (ix_k_center (index pk), ix_mu_center (index pk))
              (kedges pk, muedges pk) WNone) as (Hint & Hedges).
  vm_compute in E. injection E as <-.
  split.
  - apply (Hint 4%Z). simpl. lia.
  - apply (Hedges [0; 1; 2; 4]%float). simpl. lia.
Defined.

(** ** N-d arrays *)

Section NdFacts.
Context {F : Type} {NF : Numeric F}.

Lemma ravel_lt shape ind :
  Forall2 (fun i n => i < n) ind shape -> ravel shape ind < size_of shape.
Proof.
  induction 1 as [|i n ind shape Hi H IH]; simpl; [lia|].
  fold (size_of shape). nia.
Qed.

Lemma locate_ravel shape ind acc :
  Forall2 (fun i n => i < n) ind shape ->
  locate (F:=F) shape ind acc = Ok (acc * size_of shape + ravel shape ind, 1).
Proof.
  intros H; revert acc; induction H as [|i n ind shape Hi H IH]; intros acc; simpl.
  - f_equal. f_equal. lia.
  - apply Nat.ltb_lt in Hi. rewrite Hi, IH. fold (size_of shape).
    f_equal. f_equal. lia.
Qed.

Lemma size_of_skipn_cons n shape d :
  size_of (skipn (S d) (n :: shape)) = size_of (skipn d shape).
Proof. reflexivity. Qed.

Lemma size_of_split shape d :
  size_of shape = size_of (firstn d shape) * size_of (skipn d shape).
Proof.
  revert d; induction shape as [|n shape IH]; intros [|d]; simpl; try lia.
  fold (size_of shape) (size_of (firstn d shape)) (size_of (skipn d shape)).
  rewrite (IH d). lia.
Qed.

Lemma size_of_skipn_step shape d :
  d < length shape ->
  size_of (skipn d shape) = nth d shape 1 * size_of (skipn (S d) shape).
Proof.
  revert d; induction shape as [|m shape IH]; intros [|d] Hd; simpl in Hd;
    try lia.
  - reflexivity.
  - change (size_of (skipn d shape)
            = nth d shape 1 * size_of (skipn (S d) shape)).
    apply IH. lia.
Qed.

Lemma size_of_skipn_pos shape ind k :
  Forall2 (fun i n => i < n) ind shape -> 0 < size_of (skipn k shape).
Proof.
  intros H; revert k; induction H as [|i n ind shape Hi H IH]; intros [|k];
    simpl; try lia.
  - fold (size_of shape). specialize (IH 0). simpl in IH. nia.
  - apply IH.
Qed.

(** The coordinates of [ravel shape ind] are [ind]. *)
Lemma coord_ravel shape ind d :
  Forall2 (fun i n => i < n) ind shape -> d < length shape ->
  coord shape d (ravel shape ind) = nth d ind 0.
Proof.
  intros H; revert d; induction H as [|i n ind shape Hi H IH]; intros d Hd;
    simpl in Hd; [lia|].
  pose proof (ravel_lt H) as Hr.
  destruct d as [|d]; unfold coord.
  - simpl. fold (size_of shape).
    rewrite Nat.div_add_l by lia. rewrite Nat.div_small by lia.
    rewrite Nat.add_0_r. apply Nat.mod_small; lia.
  - rewrite size_of_skipn_cons. simpl nth. simpl ravel. fold (size_of shape).
    specialize (IH d ltac:(lia)). unfold coord in IH. rewrite <- IH.
    set (s := size_of (skipn (S d) shape)).
    assert (Hs : size_of shape
                 = size_of (firstn d shape) * (nth d shape 1 * s)).
    { rewrite (size_of_split shape d). f_equal.
      apply size_of_skipn_step. lia. }
    assert (Hspos : 0 < s) by (unfold s; eapply size_of_skipn_pos; eauto).
    rewrite Hs.
    replace (i * (size_of (firstn d shape) * (nth d shape 1 * s)) + ravel shape ind)
      with (ravel shape ind + (i * size_of (firstn d shape) * nth d shape 1) * s)
      by lia.
    rewrite Nat.div_add by lia.
    replace (ravel shape ind / s + i * size_of (firstn d shape) * nth d shape 1)
      with (ravel shape ind / s + (i * size_of (firstn d shape)) * nth d shape 1)
      by lia.
    apply Nat.Div0.mod_add.
Qed.

(** *** Arrays along one axis, and broadcasting *)

Lemma size_of_cons n shape : size_of (n :: shape) = n * size_of shape.
Proof. reflexivity. Qed.

Lemma size_of_ones {B} (f : B -> nat) l :
  (forall x, In x l -> f x = 1) -> size_of (map f l) = 1.
Proof.
  induction l as [|x l IH]; intros H; [reflexivity|].
  cbn [map]. rewrite size_of_cons, (H x) by now left.
  rewrite IH; [reflexivity|]. intros y Hy. apply H. now right.
Qed.

Lemma size_of_unit c d a n :
  size_of (map (fun j => if j =? d then c else 1) (seq a n))
  = if (a <=? d) && (d <? a + n) then c else 1.
Proof.
  revert a; induction n as [|n IH]; intros a.
  - simpl. destruct (a <=? d) eqn:E1; simpl; auto.
    destruct (d <? a + 0) eqn:E2; auto.
    apply Nat.leb_le in E1. apply Nat.ltb_lt in E2. lia.
  - cbn [seq map]. rewrite size_of_cons, IH.
    destruct (Nat.eqb_spec a d); destruct (Nat.leb_spec (S a) d);
      destruct (Nat.leb_spec a d); destruct (Nat.ltb_spec d (S a + n));
      destruct (Nat.ltb_spec d (a + S n)); simpl; lia.
Qed.

Lemma ravel_unit c x d a n :
  ravel (map (fun j => if j =? d then c else 1) (seq a n))
        (map (fun j => if j =? d then x else 0) (seq a n))
  = if (a <=? d) && (d <? a + n) then x else 0.
Proof.
  revert a; induction n as [|n IH]; intros a.
  - simpl. destruct (a <=? d) eqn:E1; simpl; auto.
    destruct (d <? a + 0) eqn:E2; auto.
    apply Nat.leb_le in E1. apply Nat.ltb_lt in E2. lia.
  - cbn [seq map ravel]. rewrite IH, size_of_unit.
    destruct (Nat.eqb_spec a d); destruct (Nat.leb_spec (S a) d);
      destruct (Nat.leb_spec a d); destruct (Nat.ltb_spec d (S a + n));
      destruct (Nat.ltb_spec d (a + S n)); simpl; lia.
Qed.

Lemma length_unit_shape sf d : length (unit_shape sf d) = length sf.
Proof. unfold unit_shape. now rewrite length_map, length_seq. Qed.

Lemma nth_unit_shape sf d j :
  j < length sf ->
  nth j (unit_shape sf d) 1 = if j =? d then nth d sf 1 else 1.
Proof.
  intros Hj. unfold unit_shape.
  rewrite nth_indep with (d' := (fun j => if j =? d then nth d sf 1 else 1) 0)
    by now rewrite length_map, length_seq.
  rewrite (map_nth (fun j => if j =? d then nth d sf 1 else 1)), seq_nth; auto.
Qed.

Lemma size_of_unit_shape sf d :
  d < length sf -> size_of (unit_shape sf d) = nth d sf 1.
Proof.
  intros Hd. unfold unit_shape. rewrite size_of_unit. simpl.
  replace (d <? length sf) with true; auto.
  symmetry. now apply Nat.ltb_lt.
Qed.

(** An array along axis [d] is broadcast by following axis [d]. *)
Lemma broadcast_pos_along sf d p :
  d < length sf -> broadcast_pos sf (unit_shape sf d) p = coord sf d p.
Proof.
  intros Hd. unfold broadcast_pos. rewrite length_unit_shape, Nat.sub_diag.
  rewrite (map_ext_in _ (fun j => if j =? d then coord sf d p else 0)).
  - unfold unit_shape. rewrite ravel_unit. simpl.
    replace (d <? length sf) with true; auto.
    symmetry. now apply Nat.ltb_lt.
  - intros j Hj. apply in_seq in Hj. rewrite nth_unit_shape by lia.
    simpl (0 + j). destruct (Nat.eqb_spec j d) as [->|Hne]; auto.
    destruct (Nat.eqb_spec (nth d sf 1) 1) as [E|E]; auto.
    unfold coord. rewrite E. symmetry. apply Nat.mod_1_r.
Qed.

Lemma broadcastable_along sf d :
  d < length sf -> broadcastable sf (unit_shape sf d) = true.
Proof.
  intros Hd. unfold broadcastable.
  rewrite length_unit_shape, Nat.leb_refl, Nat.sub_diag. simpl.
  apply forallb_forall. intros j Hj. apply in_seq in Hj.
  rewrite nth_unit_shape by lia.
  destruct (Nat.eqb_spec j d) as [->|Hne]; auto.
  rewrite Nat.eqb_refl. apply orb_true_r.
Qed.

(** On its own first axis an array along axis 0 is as a flat one. *)
Lemma coord_first_along sf p :
  0 < length sf -> p < nth 0 sf 1 -> coord (unit_shape sf 0) 0 p = p.
Proof.
  destruct sf as [|n sf]; cbn [length nth]; [lia|]. intros _ Hp.
  unfold coord.
  change (unit_shape (n :: sf) 0)
    with (n :: map (fun j => if j =? 0 then n else 1) (seq 1 (length sf))).
  cbn [skipn nth]. rewrite size_of_ones.
  - rewrite Nat.div_1_r. now apply Nat.mod_small.
  - intros j Hj. apply in_seq in Hj. destruct j; [lia|reflexivity].
Qed.

Lemma coord_flat n p : p < n -> coord [n] 0 p = p.
Proof.
  intros Hp. unfold coord. cbn [skipn nth]. change (size_of []) with 1.
  rewrite Nat.div_1_r. now apply Nat.mod_small.
Qed.

Lemma coord_origin sh d : coord sh d 0 = 0.
Proof. unfold coord. now rewrite Nat.Div0.div_0_l, Nat.Div0.mod_0_l. Qed.

Lemma skipn_nth_cons {B} (l : list B) d x :
  d < length l -> skipn d l = nth d l x :: skipn (S d) l.
Proof.
  revert d; induction l as [|a l IH]; intros [|d] Hd; simpl in *; try lia; auto.
  apply IH. lia.
Qed.

(** The arrays of a [per_axis] layout are as long as the axes. *)
Lemma along_lengths {B} sf (w : list (ndarray B)) d :
  d + length w = length sf ->
  (forall k wi, nth_error w k = Some wi -> along_axis sf (d + k) wi) ->
  Forall2 (fun wi n => length (elems wi) = n) w (skipn d sf).
Proof.
  revert d; induction w as [|wi w IH]; intros d Hlen H; simpl in Hlen.
  - replace d with (length sf) by lia. rewrite skipn_all. constructor.
  - rewrite (skipn_nth_cons sf 1) by lia. constructor.
    + destruct (H 0 wi eq_refl) as (Hs & Hwf). rewrite Nat.add_0_r in Hs.
      unfold wf_nd in Hwf. rewrite Hwf, Hs. apply size_of_unit_shape. lia.
    + apply IH; [lia|]. intros k wk Hk. rewrite Nat.add_succ_comm.
      now apply H.
Qed.

Lemma per_axis_lengths {B} sf (w : list (ndarray B)) :
  per_axis sf w -> Forall2 (fun wi n => length (elems wi) = n) w sf.
Proof.
  intros (Hlen & H). apply along_lengths with (d := 0); auto.
Qed.
End NdFacts.

Section IndexedMap.
Context {A B : Type}.

Lemma indexed_map_length (f : nat * A -> B) (l : list A) :
  length (map f (combine (seq 0 (length l)) l)) = length l.
Proof. rewrite length_map, length_combine, length_seq. lia. Qed.

Lemma indexed_map_nth (f : nat * A -> B) (l : list A) p d d' :
  p < length l ->
  nth p (map f (combine (seq 0 (length l)) l)) d' = f (p, nth p l d).
Proof.
  intros Hp.
  rewrite nth_indep with (d' := f (0, d))
    by (rewrite indexed_map_length; lia).
  rewrite (map_nth f), combine_nth by now rewrite length_seq.
  rewrite seq_nth by lia. reflexivity.
Qed.
End IndexedMap.

(** ** RemoveDC *)

Section RemoveDCFacts.
Context {F : Type} {NF : Numeric F}.

Lemma all_nonzero_iff (wi : list F) :
  forallb (fun x => negb (feqb x fzero)) wi = negb (has_zero wi).
Proof.
  unfold has_zero, is_zero. induction wi as [|x wi IH]; simpl; auto.
  rewrite IH. now destruct (feqb x fzero).
Qed.

Lemma has_zero_find (wi : list F) :
  has_zero wi = true -> exists i, find_index is_zero wi = Some i.
Proof.
  unfold has_zero. induction wi as [|x wi IH]; simpl; [discriminate|].
  destruct (is_zero x); simpl; eauto.
  intros H. destruct (IH H) as (i & ->). simpl. eauto.
Qed.

Lemma leading_zero_found (wi : list F) i :
  is_zero (nth 0 wi fone) = true -> find_index is_zero wi = Some i -> i = 0.
Proof.
  destruct wi as [|x wi]; simpl; [discriminate|].
  intros ->. now intros [= <-].
Qed.

(** When [nonzero()[0][0]] is the place of the first zero among the
    entries of each array, the tuple [ind] holds these places. *)
Lemma zero_index_found (w : list (ndarray F)) acc :
  Forall (fun wi => forall i, find_index is_zero (elems wi) = Some i ->
                              coord (shape wi) 0 i = i) w ->
  Forall (fun wi => has_zero (elems wi) = true) w ->
  exists ind, Transfer.zero_index w acc = Some (acc ++ ind)
              /\ Forall2 (fun i wi => find_index is_zero (elems wi) = Some i) ind w.
Proof.
  intros Hpos H; revert acc; induction H as [|wi w Hz H IH]; intros acc; simpl.
  - exists []. rewrite app_nil_r. auto.
  - inversion Hpos as [|? ? Hp Hpos']; subst.
    rewrite all_nonzero_iff, Hz. simpl.
    destruct (has_zero_find _ Hz) as (i & Hi).
    unfold Transfer.first_zero.
    change (fun x : F => feqb x fzero) with is_zero. rewrite Hi. simpl.
    rewrite (Hp i Hi).
    destruct (IH Hpos' (acc ++ [i])) as (ind & -> & Hind).
    exists (i :: ind). rewrite <- app_assoc. auto.
Qed.

Lemma zero_index_none (w : list (ndarray F)) acc :
  Exists (fun wi => has_zero (elems wi) = false) w ->
  Transfer.zero_index w acc = None.
Proof.
  intros H; revert acc; induction H as [wi w Hz|wi w H IH]; intros acc; simpl.
  - now rewrite all_nonzero_iff, Hz.
  - rewrite all_nonzero_iff. destruct (has_zero (elems wi)); simpl; auto.
    destruct (Transfer.first_zero wi); auto.
Qed.

(** Flat arrays are read at the place of their first zero. *)
Lemma flat_reads_position sf (w : list (ndarray F)) :
  flat_per_axis sf w ->
  Forall (fun wi => forall i, find_index is_zero (elems wi) = Some i ->
                              coord (shape wi) 0 i = i) w.
Proof.
  induction 1 as [|n wi sf w (Hs & Hl) H IH]; constructor; auto.
  intros i Hi. apply (find_index_spec _ _ fzero) in Hi as (Hi & _).
  rewrite Hs. apply coord_flat. lia.
Qed.

(** So are arrays along their axes when the zero leads on the later ones. *)
Lemma along_reads_position sf (w : list (ndarray F)) :
  per_axis sf w -> zero_leads w ->
  Forall (fun wi => forall i, find_index is_zero (elems wi) = Some i ->
                              coord (shape wi) 0 i = i) w.
Proof.
  intros (Hlen & Hal) Hlead. apply Forall_forall. intros wi Hin i Hi.
  apply In_nth_error in Hin as (d & Hd).
  assert (Hdl : d < length w) by (apply nth_error_Some; congruence).
  destruct (Hal d wi Hd) as (Hs & Hwf).
  destruct d as [|d].
  - rewrite Hs. apply coord_first_along; [lia|].
    apply (find_index_spec _ _ fzero) in Hi as (Hi & _).
    unfold wf_nd in Hwf. rewrite Hwf, Hs, size_of_unit_shape in Hi; lia.
  - assert (Hz : has_zero (elems wi) = true).
    { unfold has_zero. apply existsb_exists.
      apply (find_index_spec _ _ fzero) in Hi as (Hi & Hp & _).
      exists (nth i (elems wi) fzero). split; auto. now apply nth_In. }
    rewrite (leading_zero_found _ (Hlead (S d) wi ltac:(lia) Hd Hz) Hi).
    apply coord_origin.
Qed.

Lemma set_block_one_nth {A} (l : list A) start v p d :
  p < length l ->
  nth p (set_block start 1 v l) d = if p =? start then v else nth p l d.
Proof.
  intros Hp. unfold set_block. rewrite indexed_map_nth with (d := d) by auto.
  simpl. destruct (Nat.eqb_spec p start) as [->|Hne].
  - rewrite Nat.leb_refl. replace (start <? start + 1) with true; auto.
    symmetry. apply Nat.ltb_lt. lia.
  - destruct (start <=? p) eqn:E1; simpl; auto.
    destruct (p <? start + 1) eqn:E2; auto.
    apply Nat.leb_le in E1. apply Nat.ltb_lt in E2. lia.
Qed.

(** What [RemoveDC] does when it reads each array at the place of its
    first zero. *)
Lemma RemoveDC_spec (pm : ParticleMesh F) (field : ndarray (@Transfer.complex F)) :
  wf_nd field ->
  Forall2 (fun wi n => length (elems wi) = n) (pm_w pm) (shape field) ->
  Forall (fun wi => forall i, find_index is_zero (elems wi) = Some i ->
                              coord (shape wi) 0 i = i) (pm_w pm) ->
  (Forall (fun wi => has_zero (elems wi) = true) (pm_w pm) ->
   exists ind field',
     Transfer.RemoveDC pm field = Ok field'
     /\ Forall2 (fun i wi => find_index is_zero (elems wi) = Some i) ind (pm_w pm)
     /\ shape field' = shape field
     /\ length (elems field') = length (elems field)
     /\ ravel (shape field) ind < length (elems field)
     /\ (forall d, d < length (shape field) ->
                   coord (shape field) d (ravel (shape field) ind) = nth d ind 0)
     /\ nth (ravel (shape field) ind) (elems field') Transfer.czero = Transfer.czero
     /\ forall p, p <> ravel (shape field) ind ->
                  nth p (elems field') Transfer.czero = nth p (elems field) Transfer.czero)
  /\ (Exists (fun wi => has_zero (elems wi) = false) (pm_w pm) ->
      Transfer.RemoveDC pm field = Ok field).
Proof.
  intros Hwf Hsh Hpos. split.
  - intros Hall. destruct (zero_index_found [] Hpos Hall) as (ind & Hz & Hind).
    simpl in Hz. exists ind.
    assert (Hlt : Forall2 (fun i n => i < n) ind (shape field)).
    { clear - Hind Hsh. revert Hsh. generalize (shape field).
      induction Hind as [|i wi ind w Hi H IH]; intros sf Hsh;
        inversion Hsh; subst; constructor; auto.
      now apply (find_index_spec _ _ fzero) in Hi. }
    unfold Transfer.RemoveDC, setitem. rewrite Hz, (locate_ravel 0 Hlt). simpl.
    pose proof (ravel_lt Hlt) as Hr. rewrite <- Hwf in Hr.
    eexists; split; [reflexivity|]. simpl.
    repeat split; auto.
    + apply indexed_map_length.
    + intros d Hd. now apply coord_ravel.
    + rewrite set_block_one_nth by auto. now rewrite Nat.eqb_refl.
    + intros p Hp. destruct (Nat.lt_ge_cases p (length (elems field))) as [Hlt'|Hge].
      * rewrite set_block_one_nth by auto.
        apply Nat.eqb_neq in Hp. now rewrite Hp.
      * rewrite !nth_overflow; auto. unfold set_block.
        now rewrite indexed_map_length.
  - intros Hex. unfold Transfer.RemoveDC. now rewrite zero_index_none.
Qed.
End RemoveDCFacts.

(** ** AnisotropicCIC *)

Section CicFacts.
Context {F : Type} {NF : Numeric F}.
Variable fsin : F -> F.

Lemma combine_seq_shift {A} (w : list A) a :
  combine (seq (S a) (length w)) w
  = map (fun kw => (S (fst kw), snd kw)) (combine (seq a (length w)) w).
Proof.
  revert a; induction w as [|x w IH]; intros a; simpl; auto.
  now rewrite IH.
Qed.

Lemma cic_factors_cons sh d wi w p :
  cic_factors fsin sh d (wi :: w) p
  = nth (coord sh d p) (map (Transfer.cic_kernel fsin) (elems wi)) fone
    :: cic_factors fsin sh (S d) w p.
Proof.
  unfold cic_factors. simpl. rewrite Nat.add_0_r. f_equal.
  rewrite combine_seq_shift, map_map.
  apply map_ext. intros [k wk]. simpl. do 2 f_equal. lia.
Qed.

(** Dividing in place by the kernel of an array along axis [d] divides
    every element by the kernel at its coordinate on that axis. *)
Lemma idiv_along d (wi : ndarray F) (field : ndarray (@Transfer.complex F)) :
  d < length (shape field) -> along_axis (shape field) d wi ->
  exists field',
    Transfer.idiv field
      (mkNd (shape wi) (map (Transfer.cic_kernel fsin) (elems wi))) = Ok field'
    /\ shape field' = shape field
    /\ length (elems field') = length (elems field)
    /\ forall p, p < length (elems field) ->
         nth p (elems field') Transfer.czero
         = Transfer.cdiv (nth p (elems field) Transfer.czero)
             (nth (coord (shape field) d p)
                  (map (Transfer.cic_kernel fsin) (elems wi)) fone).
Proof.
  intros Hd (Hs & _). unfold Transfer.idiv. cbn [shape elems].
  rewrite Hs, broadcastable_along by auto.
  eexists; split; [reflexivity|]. cbn [shape elems]. split; auto.
  split; [apply indexed_map_length|].
  intros p Hp. rewrite indexed_map_nth with (d := Transfer.czero) by auto.
  cbn [fst snd]. now rewrite broadcast_pos_along.
Qed.

(** Every element is divided by the factor of each axis in turn. *)
Lemma cic_loop_spec (w : list (ndarray F)) d (field : ndarray (@Transfer.complex F)) :
  d + length w <= length (shape field) ->
  (forall k wi, nth_error w k = Some wi -> along_axis (shape field) (d + k) wi) ->
  exists field',
    Transfer.cic_loop fsin w field = Ok field'
    /\ shape field' = shape field
    /\ length (elems field') = length (elems field)
    /\ forall p, p < length (elems field) ->
         nth p (elems field') Transfer.czero
         = fold_left Transfer.cdiv (cic_factors fsin (shape field) d w p)
                     (nth p (elems field) Transfer.czero).
Proof.
  revert d field; induction w as [|wi w IH]; intros d field Hlen H;
    cbn [Transfer.cic_loop].
  - exists field. auto.
  - simpl in Hlen.
    pose proof (H 0 wi eq_refl) as Hal. rewrite Nat.add_0_r in Hal.
    destruct (@idiv_along d wi field ltac:(lia) Hal)
      as (f1 & -> & Hs1 & Hl1 & Hn1).
    cbn [bind]. destruct (IH (S d) f1) as (f2 & -> & Hs2 & Hl2 & Hn2).
    { rewrite Hs1. lia. }
    { intros k wk Hk. rewrite Hs1, Nat.add_succ_comm. now apply H. }
    exists f2. split; auto. split; [congruence|]. split; [congruence|].
    intros p Hp. rewrite Hn2 by congruence. rewrite Hs1, Hn1 by auto.
    now rewrite cic_factors_cons.
Qed.

Lemma AnisotropicCIC_spec (pm : ParticleMesh F) (field : ndarray (@Transfer.complex F)) :
  per_axis (shape field) (pm_w pm) ->
  exists field',
    Transfer.AnisotropicCIC fsin pm field = Ok field'
    /\ shape field' = shape field
    /\ length (elems field') = length (elems field)
    /\ forall p, p < length (elems field) ->
         nth p (elems field') Transfer.czero
         = fold_left Transfer.cdiv (cic_factors fsin (shape field) 0 (pm_w pm) p)
                     (nth p (elems field) Transfer.czero).
Proof.
  intros (Hlen & H). apply cic_loop_spec; auto. simpl. lia.
Qed.
End CicFacts.

(** *** Over the real numbers *)

Section CicReal.
Local Open Scope R_scope.

Lemma cic_kernel_real (wi : R) :
  Transfer.cic_kernel sin wi = sqrt (1 - 2 / 3 * (sin (wi / 2))²).
Proof.
  unfold Transfer.cic_kernel. simpl.
  replace (/ 2 * wi) with (wi / 2) by lra.
  unfold Rsqr. f_equal. lra.
Qed.

Lemma cic_kernel_pos (wi : R) : 0 < Transfer.cic_kernel sin wi.
Proof.
  rewrite cic_kernel_real. apply sqrt_lt_R0.
  pose proof (SIN_bound (wi / 2)) as [Hlo Hhi].
  assert ((sin (wi / 2))² <= 1).
  { rewrite <- Rsqr_1. apply neg_pos_Rsqr_le; lra. }
  lra.
Qed.

Lemma cic_factors_pos sh d w p :
  Forall (fun t => 0 < t) (cic_factors sin sh d w p).
Proof.
  unfold cic_factors. apply Forall_forall. intros t Ht.
  apply in_map_iff in Ht as ([k wk] & <- & _). simpl.
  destruct (Nat.lt_ge_cases (coord sh (d + k) p)
              (length (map (Transfer.cic_kernel sin) (elems wk)))) as [Hlt|Hge].
  - rewrite nth_indep with (d' := Transfer.cic_kernel sin 0) by auto.
    rewrite map_nth. apply cic_kernel_pos.
  - rewrite nth_overflow by auto. simpl. lra.
Qed.

Lemma Rprod_pos ts : Forall (fun t => 0 < t) ts -> 0 < Rprod ts.
Proof.
  induction 1 as [|t ts Ht H IH]; simpl; [lra|]. now apply Rmult_lt_0_compat.
Qed.

(** Dividing by each factor in turn is dividing by their product. *)
Lemma fold_cdiv_prod ts (c : @Transfer.complex R) :
  Forall (fun t => 0 < t) ts ->
  fold_left Transfer.cdiv ts c = Transfer.cdiv c (Rprod ts).
Proof.
  intros H; revert c; induction H as [|t ts Ht H IH]; intros [a b]; simpl.
  - unfold Transfer.cdiv; simpl. f_equal; lra.
  - rewrite IH. pose proof (Rprod_pos H). unfold Transfer.cdiv; simpl.
    fold (Rprod ts). f_equal; field; lra.
Qed.
End CicReal.

(** The cases of a layout of a few arrays, one by one. *)
Ltac layout_by_cases :=
  split; [reflexivity|];
  let d := fresh "d" in
  let wi := fresh "wi" in
  let Hd := fresh "Hd" in
  intros d wi Hd;
  repeat (destruct d as [|d];
          [injection Hd as <-; split; reflexivity|simpl in Hd]);
  destruct d; discriminate.

(** Why the order matters for arrays along their axes: with the
    frequencies of axis 1 in centred order, -1, 0, 1, which is not how a
    discrete Fourier transform lists them, every array holds a zero and the
    zero mode is at row 0 and column 1, yet [RemoveDC] leaves its 5+0i as
    it is and sets the entry of row 0 and column 0 to zero.
    [nonzero()[0][0]] is a coordinate on the first axis, along which the
    array of a later axis has a single entry. *)
Remark RemoveDC_centred_order :
  per_axis (shape Examples4.field_centred) (pm_w Examples4.pm_centred)
  /\ Forall (fun wi => has_zero (elems wi) = true) (pm_w Examples4.pm_centred)
  /\ (forall d wi, nth_error (pm_w Examples4.pm_centred) d = Some wi ->
        is_zero (nth (coord [2; 3] d 1) (elems wi) fone) = true)
  /\ Transfer.RemoveDC Examples4.pm_centred Examples4.field_centred
     = Ok (mkNd [2; 3]
             [(0, 0); (5, 0); (3, 4); (7, 8); (9, 1); (2, 6)]%float)
  /\ nth 1 (elems Examples4.field_centred) Transfer.czero = (5, 0)%float
  /\ nth 0 (elems Examples4.field_centred) Transfer.czero = (1, 2)%float.
Proof.
  split; [layout_by_cases|].
  split; [repeat constructor|].
  split; [|repeat split; reflexivity].
  intros d wi Hd.
  do 2 (destruct d as [|d]; [injection Hd as <-; reflexivity|simpl in Hd]).
  destruct d; discriminate.
Qed.

(** C6. For flat frequency arrays, one per axis, and for arrays lying
    along their axes whose zero, where there is one, comes first on every
    axis after the first (the order of a discrete Fourier transform): when
    every array holds a zero, [RemoveDC] sets the one
    entry at the zero mode (the entry whose coordinate on each axis is the
    place of the first zero of that axis's array) to 0 and leaves every
    other entry as it was; when some array holds no zero, it leaves the
    whole field as it was. *)
Theorem C6_RemoveDC (F : Type) (NF : Numeric F)
    (pm : ParticleMesh F) (field : ndarray (@Transfer.complex F)) :
  wf_nd field ->
  flat_per_axis (shape field) (pm_w pm)
  \/ (per_axis (shape field) (pm_w pm) /\ zero_leads (pm_w pm)) ->
  (Forall (fun wi => has_zero (elems wi) = true) (pm_w pm) ->
   exists ind field',
     Transfer.RemoveDC pm field = Ok field'
     /\ Forall2 (fun i wi => find_index is_zero (elems wi) = Some i) ind (pm_w pm)
     /\ shape field' = shape field
     /\ length (elems field') = length (elems field)
     /\ ravel (shape field) ind < length (elems field)
     /\ (forall d, d < length (shape field) ->
                   coord (shape field) d (ravel (shape field) ind) = nth d ind 0)
     /\ nth (ravel (shape field) ind) (elems field') Transfer.czero = Transfer.czero
     /\ forall p, p <> ravel (shape field) ind ->
                  nth p (elems field') Transfer.czero = nth p (elems field) Transfer.czero)
  /\ (Exists (fun wi => has_zero (elems wi) = false) (pm_w pm) ->
      Transfer.RemoveDC pm field = Ok field).
Proof.
  intros Hwf [Hflat|(Hal & Hlead)]; apply RemoveDC_spec; auto.
  - clear - Hflat. induction Hflat as [|n wi sf w (_ & Hl) H IH];
      constructor; auto.
  - now apply (flat_reads_position (sf := shape field)).
  - now apply per_axis_lengths.
  - now apply (along_reads_position (sf := shape field)).
Qed.

Lemma C6_RemoveDC_witness :
  Transfer.RemoveDC Examples4.pm Examples4.field = Ok Examples4.field_without_dc
  /\ Transfer.RemoveDC Examples4.pm_elsewhere Examples4.field = Ok Examples4.field.
Proof.
  assert (Hlead : forall w1 : ndarray float,
             (has_zero (elems w1) = true -> is_zero (nth 0 (elems w1) fone) = true) ->
             zero_leads [mkNd [2; 1]%nat [0; 1]%float; w1]).
  { intros w1 H [|[|d]] wi Hpos Hd Hz; simpl in Hd; try lia.
    - injection Hd as <-. auto.
    - destruct d; discriminate. }
  destruct (@C6_RemoveDC float binary64 Examples4.pm Examples4.field eq_refl)
    as (Hzero & _).
  { right. split; [layout_by_cases|]. apply Hlead. reflexivity. }
  destruct (@C6_RemoveDC float binary64 Examples4.pm_elsewhere Examples4.field
              eq_refl) as (_ & Hnone).
  { right. split; [layout_by_cases|]. apply Hlead. discriminate. }
  split.
  - destruct Hzero as (ind & field' & Hr & _).
    + repeat constructor.
    + rewrite Hr. vm_compute in Hr. injection Hr as <-. reflexivity.
  - apply Hnone. apply Exists_cons_tl, Exists_cons_hd. reflexivity.
Defined.

Section CicTwice.
Context {F : Type} {NF : Numeric F}.
Variable fsin : F -> F.

(** Applying the filter twice divides every element by each axis's factor,
    and then by each of them again. *)
Lemma AnisotropicCIC_twice (pm : ParticleMesh F)
    (field : ndarray (@Transfer.complex F)) :
  per_axis (shape field) (pm_w pm) ->
  exists once twice,
    Transfer.AnisotropicCIC fsin pm field = Ok once
    /\ Transfer.AnisotropicCIC fsin pm once = Ok twice
    /\ shape once = shape field /\ shape twice = shape field
    /\ length (elems once) = length (elems field)
    /\ length (elems twice) = length (elems field)
    /\ forall p, p < length (elems field) ->
         let fs := cic_factors fsin (shape field) 0 (pm_w pm) p in
         nth p (elems once) Transfer.czero
         = fold_left Transfer.cdiv fs (nth p (elems field) Transfer.czero)
         /\ nth p (elems twice) Transfer.czero
            = fold_left Transfer.cdiv (fs ++ fs) (nth p (elems field) Transfer.czero).
Proof.
  intros Hs.
  destruct (AnisotropicCIC_spec fsin pm field Hs) as (once & H1 & Hs1 & Hl1 & Hn1).
  assert (Hs' : per_axis (shape once) (pm_w pm)) by now rewrite Hs1.
  destruct (AnisotropicCIC_spec fsin pm once Hs') as (twice & H2 & Hs2 & Hl2 & Hn2).
  exists once, twice. repeat split; try congruence.
  - now apply Hn1.
  - rewrite Hn2 by congruence. rewrite Hs1, Hn1 by auto.
    now rewrite fold_left_app.
Qed.
End CicTwice.

Lemma cic_not_idempotent_real :
  exists once twice,
    Transfer.AnisotropicCIC sin Examples5.pm Examples5.field = Ok once
    /\ Transfer.AnisotropicCIC sin Examples5.pm once = Ok twice
    /\ once <> twice.
Proof.
  destruct (@AnisotropicCIC_twice R exact_real sin Examples5.pm Examples5.field)
    as (once & twice & H1 & H2 & _ & _ & _ & _ & Hn); [layout_by_cases|].
  exists once, twice. split; auto. split; auto.
  intros Heq. destruct (Hn 0%nat ltac:(simpl; lia)) as (Ho & Ht).
  cbv zeta in Ho, Ht.
  assert (Hfs : cic_factors sin (shape Examples5.field) 0 (pm_w Examples5.pm) 0
                = [Transfer.cic_kernel sin PI]) by reflexivity.
  rewrite Hfs in Ho, Ht. rewrite <- Heq, Ho in Ht. clear - Ht.
  change (nth 0 (elems Examples5.field) Transfer.czero)
    with ((1, 0)%R : @Transfer.complex R) in Ht.
  pose proof (cic_kernel_pos PI) as Hpos.
  set (k := Transfer.cic_kernel sin PI) in *.
  cbn [fold_left app] in Ht. unfold Transfer.cdiv in Ht. cbn [fst snd] in Ht.
  change (@fdiv R exact_real) with Rdiv in Ht.
  injection Ht as Ht _.
  assert (Hk : k = 1%R).
  { assert (E1 : (1 / k * k * k = k)%R) by (field; lra).
    assert (E2 : (1 / k / k * k * k = 1)%R) by (field; lra).
    rewrite Ht in E1. lra. }
  unfold k in Hk.
  rewrite cic_kernel_real in Hk.
  rewrite sin_PI2, Rsqr_1 in Hk.
  apply (f_equal Rsqr) in Hk. rewrite Rsqr_sqrt, Rsqr_1 in Hk; lra.
Qed.

(** C7. [AnisotropicCIC] (the class of TransferFunction.py and the function
    of power.py alike), given one frequency array along each axis of the
    field, divides the field, for each axis in turn, by
    [sqrt(1 - 2/3 sin^2(wi/2))] broadcast along that axis, with no
    condition; applied twice it divides by every factor twice, which over
    the reals is a division by the square of the product of the factors;
    and it is not idempotent. *)
Theorem C7_anisotropic_cic_not_idempotent :
  (forall (F : Type) (NF : Numeric F) (fsin : F -> F) (pm : ParticleMesh F)
          (field : ndarray (@Transfer.complex F)),
      per_axis (shape field) (pm_w pm) ->
      Power.AnisotropicCIC fsin field (pm_w pm) = Transfer.AnisotropicCIC fsin pm field
      /\ exists once twice,
           Transfer.AnisotropicCIC fsin pm field = Ok once
           /\ Transfer.AnisotropicCIC fsin pm once = Ok twice
           /\ shape once = shape field /\ shape twice = shape field
           /\ length (elems once) = length (elems field)
           /\ length (elems twice) = length (elems field)
           /\ forall p, p < length (elems field) ->
                let fs := cic_factors fsin (shape field) 0 (pm_w pm) p in
                nth p (elems once) Transfer.czero
                = fold_left Transfer.cdiv fs (nth p (elems field) Transfer.czero)
                /\ nth p (elems twice) Transfer.czero
                   = fold_left Transfer.cdiv (fs ++ fs)
                               (nth p (elems field) Transfer.czero))
  /\ (forall wi : R,
         Transfer.cic_kernel sin wi = sqrt (1 - 2 / 3 * (sin (wi / 2))²)%R)
  /\ (forall (pm : ParticleMesh R) (field : ndarray (@Transfer.complex R)),
         per_axis (shape field) (pm_w pm) ->
         exists once twice,
           Transfer.AnisotropicCIC sin pm field = Ok once
           /\ Transfer.AnisotropicCIC sin pm once = Ok twice
           /\ forall p, p < length (elems field) ->
                let P := Rprod (cic_factors sin (shape field) 0 (pm_w pm) p) in
                (0 < P)%R
                /\ nth p (elems once) Transfer.czero
                   = Transfer.cdiv (nth p (elems field) Transfer.czero) P
                /\ nth p (elems twice) Transfer.czero
                   = Transfer.cdiv (nth p (elems field) Transfer.czero) (P * P)%R)
  /\ (exists once twice,
         Transfer.AnisotropicCIC sin Examples5.pm Examples5.field = Ok once
         /\ Transfer.AnisotropicCIC sin Examples5.pm once = Ok twice
         /\ once <> twice).
Proof.
  split; [|split; [|split]].
  - intros F NF fsin pm field Hs. split; [reflexivity|].
    now apply AnisotropicCIC_twice.
  - apply cic_kernel_real.
  - intros pm field Hs.
    destruct (@AnisotropicCIC_twice R exact_real sin pm field Hs)
      as (once & twice & H1 & H2 & _ & _ & _ & _ & Hn).
    exists once, twice. split; auto. split; auto.
    intros p Hp. destruct (Hn p Hp) as (Ho & Ht). cbv zeta in *.
    pose proof (cic_factors_pos (shape field) 0 (pm_w pm) p) as Hpos.
    pose proof (Rprod_pos Hpos) as HP.
    split; auto. split.
    + rewrite Ho. now apply fold_cdiv_prod.
    + rewrite Ht, fold_left_app, !fold_cdiv_prod by auto.
      destruct (nth p (elems field) Transfer.czero) as [a b].
      unfold Transfer.cdiv; simpl. f_equal; field; lra.
  - apply cic_not_idempotent_real.
Qed.

Lemma C7_anisotropic_cic_not_idempotent_witness :
  exists once twice,
    Transfer.AnisotropicCIC sin Examples5.pm Examples5.field = Ok once
    /\ Transfer.AnisotropicCIC sin Examples5.pm once = Ok twice
    /\ forall p, (p < 1)%nat ->
         let P := Rprod (cic_factors sin [1%nat] 0 [mkNd [1%nat] [PI]] p) in
         (0 < P)%R
         /\ nth p (elems once) Transfer.czero
            = Transfer.cdiv (nth p [(1, 0)%R] Transfer.czero) P
         /\ nth p (elems twice) Transfer.czero
            = Transfer.cdiv (nth p [(1, 0)%R] Transfer.czero) (P * P)%R.
Proof.
  destruct C7_anisotropic_cic_not_idempotent as (_ & _ & H & _).
  apply (H Examples5.pm Examples5.field). layout_by_cases.
Defined.

(** ** The driver *)

Section DriverFacts.
Context {F : Type} {NF : Numeric F}.

Lemma print_rank0_run rank s (tr : list (@Power.event F)) :
  Power.print_rank0 rank s tr = (tr ++ printed rank s, Ok tt).
Proof.
  unfold Power.print_rank0, printed. destruct (rank =? 0); simpl.
  - reflexivity.
  - now rewrite app_nil_r.
Qed.

Lemma main_box_mismatch rank (ns : @Power.namespace F) in0 in1 rest :
  Power.inputs ns = in0 :: in1 :: rest ->
  Power.source_neqb in0 in1 = true ->
  Power.all_eq (Power.BoxSize in0) (Power.BoxSize in1) = false ->
  Power.main rank ns []
  = (printed rank "importing done"
       ++ [Power.ENewMesh (Power.BoxSize in0) (Power.Nmesh ns); Power.EPaint in0]
       ++ printed rank "painting done"
       ++ [Power.ER2C]
       ++ printed rank "r2c done"
       ++ [Power.ETransfer (chain_of ns)],
     Raise (mkExn ValueError
              [Txt "mismatch in box sizes for cross power measurement"])).
Proof.
  intros Hin Hne Hbox. unfold Power.main. rewrite Hin.
  unfold Power.mbind, Power.paint, Power.emit, Power.ret, Power.throw, raise.
  rewrite !print_rank0_run. simpl. rewrite !print_rank0_run.
  rewrite Hne, Hbox. simpl. fold (chain_of ns).
  f_equal. rewrite <- !app_assoc. reflexivity.
Qed.
End DriverFacts.

(** C9 as worded fails: with two distinct inputs of different boxes the
    error comes after the first input was painted, transformed and
    filtered. *)
Lemma C9_counterexample :
  ~ raises_before_computation 0 Examples6.ns
  /\ exists tr e,
       Power.main 0 Examples6.ns [] = (tr, Raise e)
       /\ In (Power.EPaint Examples6.source1) tr /\ In Power.ER2C tr.
Proof.
  split.
  - intros (tr & e & Hrun & Hnone).
    vm_compute in Hrun. injection Hrun as <- _. vm_compute in Hnone. discriminate.
  - eexists. eexists. split; [vm_compute; reflexivity|]. simpl. tauto.
Qed.

(** C9, amended. With two distinct inputs whose box sizes differ, [main]
    raises the [ValueError]; it does so after the first input was painted,
    transformed and filtered, and before anything is done with the second
    input, before any binning and before anything is written. *)
Theorem C9_box_mismatch_raises (F : Type) (NF : Numeric F)
    rank (ns : @Power.namespace F) in0 in1 rest :
  Power.inputs ns = in0 :: in1 :: rest ->
  Power.source_neqb in0 in1 = true ->
  Power.all_eq (Power.BoxSize in0) (Power.BoxSize in1) = false ->
  exists tr,
    Power.main rank ns []
    = (tr, Raise (mkExn ValueError
                    [Txt "mismatch in box sizes for cross power measurement"]))
    /\ filter Power.is_computation tr
       = [Power.EPaint in0; Power.ER2C; Power.ETransfer (chain_of ns)]
    /\ ~ In (Power.EPaint in1) tr
    /\ (forall nmu sn, ~ In (Power.EMeasurePower nmu sn) tr)
    /\ (forall ells, ~ In (Power.EMeasurePoles ells) tr)
    /\ (forall m o a b c, ~ In (Power.EWrite m o a b c) tr).
Proof.
  intros Hin Hne Hbox. eexists.
  split; [exact (@main_box_mismatch F NF rank ns in0 in1 rest Hin Hne Hbox)|].
  assert (Hdiff : Power.EPaint in0 <> Power.EPaint in1).
  { intros [= ->]. unfold Power.source_neqb in Hne.
    now rewrite Nat.eqb_refl in Hne. }
  unfold printed. destruct (rank =? 0); simpl; (split; [reflexivity|]);
    (split; [intros H; repeat destruct H as [H|H]; try discriminate; auto|]);
    repeat split; intros; intuition discriminate.
Qed.

Lemma C9_box_mismatch_raises_witness :
  exists tr,
    Power.main 0 Examples6.ns []
    = (tr, Raise (mkExn ValueError
                    [Txt "mismatch in box sizes for cross power measurement"]))
    /\ filter Power.is_computation tr
       = [Power.EPaint Examples6.source1; Power.ER2C;
          Power.ETransfer (chain_of Examples6.ns)]
    /\ ~ In (Power.EPaint Examples6.source2) tr
    /\ (forall nmu sn, ~ In (Power.EMeasurePower nmu sn) tr)
    /\ (forall ells, ~ In (Power.EMeasurePoles ells) tr)
    /\ (forall m o a b c, ~ In (Power.EWrite m o a b c) tr).
Proof.
  apply (@C9_box_mismatch_raises float binary64 0 Examples6.ns
           Examples6.source1 Examples6.source2 []); reflexivity.
Defined.

(** ** Rebinning twice, over the real numbers *)

Unset Implicit Arguments.

Section RealSums.
Local Open Scope R_scope.

Lemma Rsum_app l l' : Rsum (l ++ l') = Rsum l + Rsum l'.
Proof. induction l as [|x l IH]; simpl; [lra|]. rewrite IH. lra. Qed.

Lemma sum_upto_S n g : sum_upto (S n) g = sum_upto n g + g n.
Proof.
  unfold sum_upto. rewrite seq_S, map_app, Rsum_app. simpl. lra.
Qed.

Lemma sum_upto_ext n g h :
  (forall i, (i < n)%nat -> g i = h i) -> sum_upto n g = sum_upto n h.
Proof.
  induction n as [|n IH]; intros H; [reflexivity|].
  rewrite !sum_upto_S, IH, H by (intros; try apply H; lia). reflexivity.
Qed.

Lemma sum_upto_plus n g h :
  sum_upto n (fun i => g i + h i) = sum_upto n g + sum_upto n h.
Proof.
  induction n as [|n IH]; [unfold sum_upto; simpl; lra|].
  rewrite !sum_upto_S, IH. lra.
Qed.

Lemma sum_upto_scale n g k :
  sum_upto n (fun i => g i * k) = sum_upto n g * k.
Proof.
  induction n as [|n IH]; [unfold sum_upto; simpl; lra|].
  rewrite !sum_upto_S, IH. lra.
Qed.

Lemma sum_upto_zero n : sum_upto n (fun _ => 0) = 0.
Proof.
  induction n as [|n IH]; [reflexivity|]. rewrite sum_upto_S, IH. lra.
Qed.

Lemma sum_upto_single n b0 y :
  (b0 < n)%nat -> sum_upto n (fun b => only (b =? b0)%nat (y b)) = y b0.
Proof.
  induction n as [|n IH]; intros H; [lia|]. rewrite sum_upto_S.
  destruct (Nat.eq_dec b0 n) as [->|Hne].
  - rewrite Nat.eqb_refl. simpl.
    rewrite (sum_upto_ext n _ (fun _ => 0)), sum_upto_zero; [lra|].
    intros i Hi. replace (i =? n)%nat with false; auto.
    symmetry. apply Nat.eqb_neq. lia.
  - rewrite IH by lia. replace (n =? b0)%nat with false; [simpl; lra|].
    symmetry. apply Nat.eqb_neq. lia.
Qed.

Lemma sum_upto_swap a b (G : nat -> nat -> R) :
  sum_upto a (fun i => sum_upto b (fun j => G i j))
  = sum_upto b (fun j => sum_upto a (fun i => G i j)).
Proof.
  induction a as [|a IH].
  - rewrite (sum_upto_ext b _ (fun _ => 0)) by reflexivity.
    now rewrite sum_upto_zero.
  - rewrite sum_upto_S, IH, <- sum_upto_plus.
    apply sum_upto_ext. intros j _. now rewrite sum_upto_S.
Qed.

Lemma sum_upto_shift n k g :
  Rsum (map g (seq k n)) = sum_upto n (fun j => g (k + j)%nat).
Proof.
  unfold sum_upto. rewrite <- (Nat.add_0_r k) at 1.
  revert k. generalize 0%nat. induction n as [|n IH]; intros s k; simpl; auto.
  f_equal. rewrite <- IH. f_equal. f_equal. f_equal. lia.
Qed.

(** A sum over a table, row after row. *)
Lemma sum_upto_mul a b G :
  sum_upto (a * b) G
  = sum_upto a (fun i => sum_upto b (fun j => G (i * b + j)%nat)).
Proof.
  induction a as [|a IH]; [reflexivity|].
  rewrite sum_upto_S, <- IH. unfold sum_upto at 1.
  replace (S a * b)%nat with (a * b + b)%nat by lia.
  rewrite seq_app, map_app, Rsum_app. f_equal.
  simpl. apply sum_upto_shift.
Qed.

Lemma Rsum_combine_nth {A B} (f : A * B -> R) (x : list A) (w : list B) da db :
  length x = length w ->
  Rsum (map f (combine x w))
  = sum_upto (length x) (fun p => f (nth p x da, nth p w db)).
Proof.
  revert w; induction x as [|a x IH]; intros [|b w] H; simpl in H; try lia.
  - reflexivity.
  - simpl. unfold sum_upto. simpl. f_equal.
    rewrite IH by lia. unfold sum_upto. rewrite <- seq_shift, map_map.
    reflexivity.
Qed.
End RealSums.

Section RebinReal.
Local Open Scope R_scope.

Lemma bincount_fold_real B L (init : list R) :
  (forall xw, In xw L -> (fst xw < length init)%nat) ->
  nth B (fold_left bincount_step L init) 0
  = nth B init 0 + Rsum (map (fun xw => only (fst xw =? B)%nat (snd xw)) L).
Proof.
  revert init; induction L as [|[i wi] L IH]; intros init H; simpl; [lra|].
  rewrite IH.
  2:{ intros xw Hin. unfold bincount_step. rewrite upd_length. apply H; simpl; auto. }
  unfold bincount_step. simpl fst. simpl snd.
  destruct (Nat.eqb_spec i B) as [->|Hne]; simpl.
  - rewrite upd_nth_same by (apply (H (B, wi)); simpl; auto).
    change (@fzero R exact_real) with 0. change (@fadd R exact_real) with Rplus.
    lra.
  - rewrite upd_nth_other by auto. lra.
Qed.

Lemma bincount_real (x : list nat) (w : list R) M B :
  length x = length w -> Forall (fun i => (i < M)%nat) x ->
  nth B (bincount x w M) 0
  = sum_upto (length x) (fun p => only (nth p x 0%nat =? B)%nat (nth p w 0)).
Proof.
  intros Hlen Hx. unfold bincount. rewrite bincount_fold_real.
  - change (@fzero R exact_real) with 0. rewrite nth_repeat.
    rewrite (Rsum_combine_nth _ x w 0%nat 0) by auto. simpl. lra.
  - intros [i wi] Hin. simpl. rewrite repeat_length.
    apply in_combine_l in Hin. rewrite Forall_forall in Hx. specialize (Hx i Hin).
    destruct x as [|a x]; [contradiction|].
    pose proof (list_max_le (a :: x) (list_max (a :: x))) as [Hm _].
    specialize (Hm (Nat.le_refl _)). rewrite Forall_forall in Hm.
    specialize (Hm i Hin). lia.
Qed.

Lemma select_all_true {A} (l : list A) n :
  length l = n -> select (map negb (repeat false n)) l = l.
Proof.
  revert n; induction l as [|a l IH]; intros [|n] H; simpl in *; try lia; auto.
  f_equal. apply IH. lia.
Qed.

Lemma zipwith_mul_ones (l : list R) n :
  length l = n -> zipwith fmul l (repeat 1 n) = l.
Proof.
  revert n; induction l as [|a l IH]; intros [|n] H; simpl in *; try lia; auto.
  f_equal; [lra|apply IH; lia].
Qed.

Lemma concat_repeat_nth2 (row : list R) n i j d :
  (i < n)%nat -> (j < length row)%nat ->
  nth (i * length row + j) (concat (repeat row n)) d = nth j row d.
Proof.
  intros Hi Hj. rewrite concat_nth with (m := length row).
  - now rewrite nth_repeat_lt.
  - apply Forall_forall. intros x Hx. now apply repeat_spec in Hx as ->.
  - now rewrite repeat_length.
  - auto.
Qed.

Lemma multi_index_of_length ek emu kc muc :
  length (multi_index_of ek emu kc muc) = (length kc * length muc)%nat.
Proof.
  unfold multi_index_of. rewrite zipwith_length, !length_map.
  rewrite (@concat_length_uniform _ (repeat muc (length kc)) (length muc)).
  - rewrite repeat_length.
    assert (H : length (flat_map (fun x : R => repeat x (length muc)) kc)
                = (length kc * length muc)%nat).
    { induction kc as [|a kc IH]; simpl; auto.
      now rewrite length_app, repeat_length, IH. }
    rewrite H. lia.
  - apply Forall_forall. intros x Hx. now apply repeat_spec in Hx as ->.
Qed.

Lemma multi_index_of_nth ek emu kc muc i j :
  (i < length kc)%nat -> (j < length muc)%nat ->
  nth (i * length muc + j) (multi_index_of ek emu kc muc) 0%nat
  = (digit ek (nth i kc 0%R) * (length emu + 1) + digit emu (nth j muc 0%R))%nat.
Proof.
  intros Hi Hj. unfold multi_index_of.
  pose proof (multi_index_of_length ek emu kc muc) as Hlen.
  unfold multi_index_of in Hlen. rewrite zipwith_length, !length_map in Hlen.
  assert (Hp : (i * length muc + j < length kc * length muc)%nat) by nia.
  rewrite zipwith_nth with (da := 0%nat) (db := 0%nat)
    by (rewrite length_map; lia).
  rewrite nth_indep with (d' := digit ek 0) by (rewrite length_map; lia).
  rewrite nth_indep with (d := 0%nat) (d' := digit emu 0)
    by (rewrite length_map; lia).
  rewrite !map_nth, flat_map_repeat_nth, concat_repeat_nth2 by auto.
  reflexivity.
Qed.

Lemma multi_index_of_bound ek emu kc muc :
  Forall (fun i => (i < (length ek + 1) * (length emu + 1))%nat)
         (multi_index_of ek emu kc muc).
Proof.
  unfold multi_index_of.
  assert (Hb : forall (e : list R) x,
             Forall (fun i => (i < length e + 1)%nat) (map (digit e) x)).
  { intros e x. apply Forall_forall. intros i Hi.
    apply in_map_iff in Hi as (v & <- & _).
    pose proof (count_le (fun e0 => fleb e0 v) e). unfold digit. lia. }
  apply zipwith_ravel_bound; apply Hb.
Qed.

Lemma bincount_table ek emu kc muc (W : list R) r c :
  length W = (length kc * length muc)%nat ->
  (c < length emu - 1)%nat ->
  nth (S r * (length emu + 1) + S c)
      (bincount (multi_index_of ek emu kc muc) W
                ((length ek + 1) * (length emu + 1))) 0
  = sum_upto (length kc) (fun i =>
      sum_upto (length muc) (fun j =>
        only (falls_in ek emu kc muc r c i j) (nth (i * length muc + j) W 0))).
Proof.
  intros HW Hc.
  rewrite bincount_real.
  2:{ now rewrite multi_index_of_length. }
  2:{ apply multi_index_of_bound. }
  rewrite multi_index_of_length, sum_upto_mul.
  apply sum_upto_ext. intros i Hi. apply sum_upto_ext. intros j Hj.
  rewrite multi_index_of_nth by auto. f_equal. unfold falls_in.
  assert (Hd : (digit emu (nth j muc 0%R) < length emu + 1)%nat).
  { pose proof (count_le (fun e0 => fleb e0 (nth j muc 0)) emu).
    unfold digit. lia. }
  revert Hd. generalize (digit emu (nth j muc 0)) (digit ek (nth i kc 0)).
  intros b a Hd.
  destruct (Nat.eqb_spec a (S r)) as [->|Ha]; simpl.
  - destruct (Nat.eqb_spec b (S c)) as [->|Hb].
    + apply Nat.eqb_refl.
    + apply Nat.eqb_neq. nia.
  - apply Nat.eqb_neq. intros E. apply Ha.
    assert (S c < length emu + 1)%nat by lia. nia.
Qed.
End RebinReal.

Section TableFacts.
Context {F : Type} {NF : Numeric F}.

Lemma rebin_field_has_shape mi n0 n1 mask (w col : array2 F) :
  Forall (fun i => i < n0 * n1) mi ->
  has_shape (rebin_field mi (n0, n1) mask w col) (n0 - 2, n1 - 2) = true.
Proof.
  intros Hmi. unfold rebin_field, has_shape, shape_eqb, of_rows. simpl.
  set (q := zipwith fdiv _ _).
  assert (Hq : length q = n0 * n1).
  { unfold q. rewrite zipwith_length, !bincount_length; try lia;
      now apply select_Forall. }
  rewrite inner_length, length_map, chunks_length, !Nat.eqb_refl. simpl.
  apply Nat.eqb_eq.
  rewrite (@concat_length_uniform _ _ (n1 - 2)).
  - now rewrite inner_length, length_map, chunks_length.
  - apply inner_Forall. apply Forall_forall. intros row Hin.
    apply in_map_iff in Hin as (ch & <- & Hin).
    apply In_nth with (d := []) in Hin as (k & Hk & <-).
    rewrite chunks_length in Hk. rewrite chunks_nth by auto.
    rewrite inner_length, length_firstn, length_skipn. nia.
Qed.

(** Two tables of one shape with the same entries are the same table. *)
Lemma array2_ext (a b : array2 F) n m d :
  has_shape a (n, m) = true -> has_shape b (n, m) = true ->
  (forall r c, r < n -> c < m -> get2 d a r c = get2 d b r c) ->
  a = b.
Proof.
  intros Ha Hb H.
  destruct (has_shape_inv _ _ _ Ha) as (Han & Ham & Hwa).
  destruct (has_shape_inv _ _ _ Hb) as (Hbn & Hbm & Hwb).
  destruct a as [an am al], b as [bn bm bl]. unfold wf2 in *. simpl in *. subst.
  f_equal. apply nth_ext with (d := d) (d' := d); [lia|].
  intros p Hp. rewrite Hwa in Hp.
  assert (Hm : m <> 0) by (intros ->; lia).
  specialize (H (p / m) (p mod m)). unfold get2 in H. simpl in H.
  replace (p / m * m + p mod m) with p in H
    by (rewrite (Nat.div_mod_eq p m) at 1; lia).
  apply H.
  - apply Nat.Div0.div_lt_upper_bound; lia.
  - now apply Nat.mod_upper_bound.
Qed.

Lemma mask_all_ok cols (mask : array2 bool) :
  Forall (fun nc : string * array2 F => has_shape (snd nc) (shape2 mask) = true) cols ->
  exists m', mask_all mask cols = Ok m'.
Proof.
  intros H; revert mask H; induction cols as [|nc cols IH]; intros mask H; simpl.
  - eauto.
  - inversion H as [|? ? Hnc Hcols]; subst. unfold mask_or. rewrite Hnc. simpl.
    apply IH. exact Hcols.
Qed.

(** The constructor accepts non-empty edges and a non-empty dict of tables
    of the shape the edges give. *)
Lemma init_ok ke mue dat fim kw :
  ke <> [] -> mue <> [] -> dat <> [] ->
  Forall (fun nc : string * array2 F =>
            has_shape (snd nc) (length ke - 1, length mue - 1) = true) dat ->
  exists pk : PkmuResult F, __init__ ke mue dat fim kw = Ok pk.
Proof.
  intros Hk Hm Hd Hs. unfold __init__.
  destruct ke as [|k0 ke]; [congruence|]. destruct mue as [|m0 mue]; [congruence|].
  destruct (mask_all_ok dat (full (length (k0 :: ke) - 1) (length (m0 :: mue) - 1) false))
    as (m' & ->); [exact Hs|].
  simpl. destruct dat; [congruence|]. eauto.
Qed.
End TableFacts.

Section PipelineReal.
Local Open Scope R_scope.

Lemma zipwith_orb_false (l : list R) n :
  length l = n ->
  zipwith orb (repeat false n) (map negb (map (fun _ : R => true) l))
  = repeat false n.
Proof.
  revert n; induction l as [|a l IH]; intros [|n] H; simpl in *; try lia; auto.
  f_equal. apply IH. lia.
Qed.

(** Over the reals every value is finite, so nothing is ever masked. *)
Lemma mask_all_real dat n m mask :
  mask_all (full n m false) dat = Ok mask -> mask = full n m false.
Proof.
  revert mask; induction dat as [|nc dat IH]; simpl; intros mask.
  - now intros [= <-].
  - unfold mask_or at 1. destruct (has_shape (snd nc) _) eqn:Hs; [|discriminate].
    destruct (has_shape_inv _ _ _ Hs) as (Hn & Hm & Hw).
    unfold wf2 in Hw. rewrite Hn, Hm in Hw.
    unfold isfinite, map2d, full. simpl.
    change (@fis_finite R exact_real) with (fun _ : R => true).
    rewrite zipwith_orb_false by exact Hw.
    apply IH.
Qed.

Lemma init_real_inv ke mue dat fim kw (pk : PkmuResult R) :
  __init__ ke mue dat fim kw = Ok pk ->
  pk = mkPkmu (map fst dat) ke mue
         (mkRec dat (full (length ke - 1)%nat (length mue - 1)%nat false))
         (mkIndex
            (mk2 (length ke - 1)%nat (length mue - 1)%nat
               (flat_map (fun c => repeat c (length mue - 1)%nat) (centers ke)))
            (mk2 (length ke - 1)%nat (length mue - 1)%nat
               (concat (repeat (centers mue) (length ke - 1)%nat))))
         fim (map fst kw) kw
  /\ dat <> [] /\ ke <> [] /\ mue <> []
  /\ Forall (fun nc : string * array2 R =>
               has_shape (snd nc) (length ke - 1, length mue - 1)%nat = true) dat.
Proof.
  intros H. destruct (init_inv _ _ _ _ _ H) as (mask & Hpk & Hsh & Hf).
  unfold __init__ in H. destruct ke as [|k0 ke]; [discriminate|].
  destruct mue as [|m0 mue]; [discriminate|].
  destruct (mask_all _ dat) as [mask'|e] eqn:E; simpl in H; [|discriminate].
  destruct dat as [|nc dat]; [discriminate|].
  injection H as H. apply mask_all_real in E. subst mask'.
  rewrite Hpk in H. injection H as Hmask.
  split; [|repeat split; try discriminate; exact Hf].
  rewrite Hpk. now rewrite <- Hmask.
Qed.

(** Each entry of a rebinned table of reals is the sum of the values of the
    cells falling in the bin over their number. *)
Lemma rebin_field_real ek emu kc muc (col : array2 R) r c :
  has_shape col (length kc, length muc) = true ->
  (r < length ek - 1)%nat -> (c < length emu - 1)%nat ->
  get2 0 (rebin_field (multi_index_of ek emu kc muc)
            (length ek + 1, length emu + 1)%nat
            (full (length kc) (length muc) false)
            (full (length kc) (length muc) 1) col) r c
  = gathered ek emu kc muc r c (fun i j => get2 0 col i j)
    / gathered ek emu kc muc r c (fun _ _ => 1).
Proof.
  intros Hs Hr Hc. destruct (has_shape_inv _ _ _ Hs) as (Hn & Hm & Hw).
  unfold wf2 in Hw. rewrite Hn, Hm in Hw.
  change 0 with (@fzero R exact_real) at 1.
  rewrite rebin_field_get; simpl fst; simpl snd;
    [|apply multi_index_of_bound|lia|lia].
  cbv zeta. unfold full. simpl flat.
  rewrite !select_all_true
    by (rewrite ?multi_index_of_length, ?repeat_length; auto).
  change (@fone R exact_real) with 1. rewrite zipwith_mul_ones by auto.
  change (@fzero R exact_real) with 0. change (@fdiv R exact_real) with Rdiv.
  rewrite !bincount_table by (rewrite ?repeat_length; auto).
  unfold gathered. f_equal.
  - apply sum_upto_ext. intros i Hi. apply sum_upto_ext. intros j Hj.
    unfold get2. now rewrite Hm.
  - apply sum_upto_ext. intros i Hi. apply sum_upto_ext. intros j Hj.
    f_equal. apply nth_repeat_lt. nia.
Qed.
End PipelineReal.

Section ReindexReal.
Local Open Scope R_scope.

Lemma rebin_real ke mue dat fim kw (pk : PkmuResult R) ek emu :
  __init__ ke mue dat fim kw = Ok pk ->
  adjacent fleb ek = true -> adjacent fleb emu = true ->
  rebin (ix_k_center (index pk), ix_mu_center (index pk)) (ek, emu) (data pk)
        (full (Nk pk) (Nmu pk) fone)
  = Ok (rebinned ek emu (centers ke) (centers mue) dat).
Proof.
  intros Hinit Hek Hemu. destruct (init_real_inv _ _ _ _ _ _ Hinit) as (-> & _).
  unfold Nk, Nmu, mrec_shape. simpl.
  pose proof (rebin_returns
                (mk2 (length ke - 1) (length mue - 1)
                   (flat_map (fun c => repeat c (length mue - 1)%nat) (centers ke)),
                 mk2 (length ke - 1) (length mue - 1)
                   (concat (repeat (centers mue) (length ke - 1)%nat)))
                (ek, emu)
                (mkRec dat (full (length ke - 1) (length mue - 1) false))
                (full (length ke - 1) (length mue - 1) fone)) as H.
  simpl in H. destruct H as (_ & H); auto.
  - unfold shape_eqb. simpl. now rewrite !Nat.eqb_refl.
  - rewrite H. unfold rebinned, multi_index_of. now rewrite !centers_length.
Qed.

Lemma reindex_k_real ke mue dat fim kw (pk : PkmuResult R) e :
  __init__ ke mue dat fim kw = Ok pk ->
  adjacent fleb e = true -> adjacent fleb mue = true ->
  (length e < length ke - 1)%nat ->
  reindex_k pk (BinsEdges e) WNone
  = __init__ e mue (rebinned e mue (centers ke) (centers mue) dat) fim [].
Proof.
  intros Hinit He Hmue Hlen.
  pose proof (rebin_real _ _ _ _ _ _ e mue Hinit He Hmue) as Hr.
  destruct (init_real_inv _ _ _ _ _ _ Hinit) as (Hpk & _).
  unfold reindex_k, _reindex.
  assert (HN : axis_len ax0 (shape2 (pick ax0 (ix_k_center (index pk),
                                               ix_mu_center (index pk))))
               = (length ke - 1)%nat) by (rewrite Hpk; reflexivity).
  rewrite HN. replace (length ke - 1 <=? length e)%nat with false
    by (symmetry; apply Nat.leb_gt; lia).
  cbn [bind put fst snd].
  assert (Hke : kedges pk = ke) by (rewrite Hpk; reflexivity).
  assert (Hmu : muedges pk = mue) by (rewrite Hpk; reflexivity).
  assert (Hf : force_index_match pk = fim) by (rewrite Hpk; reflexivity).
  cbv zeta. cbn [bind put pick fst snd]. rewrite ?Hke, ?Hmu, ?Hf.
  cbn [fst snd]. rewrite Hr. reflexivity.
Qed.

Lemma reindex_mu_real ke mue dat fim kw (pk : PkmuResult R) e :
  __init__ ke mue dat fim kw = Ok pk ->
  adjacent fleb ke = true -> adjacent fleb e = true ->
  (length e < length mue - 1)%nat ->
  reindex_mu pk (BinsEdges e) WNone
  = __init__ ke e (rebinned ke e (centers ke) (centers mue) dat) fim [].
Proof.
  intros Hinit Hke' He Hlen.
  pose proof (rebin_real _ _ _ _ _ _ ke e Hinit Hke' He) as Hr.
  destruct (init_real_inv _ _ _ _ _ _ Hinit) as (Hpk & _).
  unfold reindex_mu, _reindex.
  assert (HN : axis_len ax1 (shape2 (pick ax1 (ix_k_center (index pk),
                                               ix_mu_center (index pk))))
               = (length mue - 1)%nat) by (rewrite Hpk; reflexivity).
  rewrite HN. replace (length mue - 1 <=? length e)%nat with false
    by (symmetry; apply Nat.leb_gt; lia).
  cbn [bind put fst snd].
  assert (Hke : kedges pk = ke) by (rewrite Hpk; reflexivity).
  assert (Hmu : muedges pk = mue) by (rewrite Hpk; reflexivity).
  assert (Hf : force_index_match pk = fim) by (rewrite Hpk; reflexivity).
  cbv zeta. cbn [bind put pick fst snd]. rewrite ?Hke, ?Hmu, ?Hf.
  cbn [fst snd]. rewrite Hr. reflexivity.
Qed.

Lemma reindex_k_resolved ke mue dat fim kw (pk : PkmuResult R) bins e :
  __init__ ke mue dat fim kw = Ok pk ->
  resolves_to ke bins e ->
  adjacent fleb e = true -> adjacent fleb mue = true ->
  reindex_k pk bins WNone
  = __init__ e mue (rebinned e mue (centers ke) (centers mue) dat) fim [].
Proof.
  intros Hinit Hres He Hmue. destruct bins as [n|e'].
  - destruct Hres as (Hn & e0 & rest & Hold & Hlin).
    pose proof (rebin_real _ _ _ _ _ _ e mue Hinit He Hmue) as Hr.
    destruct (init_real_inv _ _ _ _ _ _ Hinit) as (Hpk & _).
    unfold reindex_k, _reindex.
    assert (HN : axis_len ax0 (shape2 (pick ax0 (ix_k_center (index pk),
                                                 ix_mu_center (index pk))))
                 = (length ke - 1)%nat) by (rewrite Hpk; reflexivity).
    rewrite HN. replace (Z.of_nat (length ke - 1) <=? n)%Z with false
      by (symmetry; apply Z.leb_gt; lia).
    assert (Hke : kedges pk = ke) by (rewrite Hpk; reflexivity).
    assert (Hmu : muedges pk = mue) by (rewrite Hpk; reflexivity).
    assert (Hf : force_index_match pk = fim) by (rewrite Hpk; reflexivity).
    cbv zeta. cbn [pick fst snd]. rewrite ?Hke, ?Hmu, ?Hf.
    rewrite Hold at 1. rewrite Hlin.
    cbn [bind put pick fst snd]. rewrite Hr. reflexivity.
  - destruct Hres as (-> & Hlen).
    exact (reindex_k_real ke mue dat fim kw pk e Hinit He Hmue Hlen).
Qed.

Lemma reindex_mu_resolved ke mue dat fim kw (pk : PkmuResult R) bins e :
  __init__ ke mue dat fim kw = Ok pk ->
  resolves_to mue bins e ->
  adjacent fleb ke = true -> adjacent fleb e = true ->
  reindex_mu pk bins WNone
  = __init__ ke e (rebinned ke e (centers ke) (centers mue) dat) fim [].
Proof.
  intros Hinit Hres Hke' He. destruct bins as [n|e'].
  - destruct Hres as (Hn & e0 & rest & Hold & Hlin).
    pose proof (rebin_real _ _ _ _ _ _ ke e Hinit Hke' He) as Hr.
    destruct (init_real_inv _ _ _ _ _ _ Hinit) as (Hpk & _).
    unfold reindex_mu, _reindex.
    assert (HN : axis_len ax1 (shape2 (pick ax1 (ix_k_center (index pk),
                                                 ix_mu_center (index pk))))
                 = (length mue - 1)%nat) by (rewrite Hpk; reflexivity).
    rewrite HN. replace (Z.of_nat (length mue - 1) <=? n)%Z with false
      by (symmetry; apply Z.leb_gt; lia).
    assert (Hke : kedges pk = ke) by (rewrite Hpk; reflexivity).
    assert (Hmu : muedges pk = mue) by (rewrite Hpk; reflexivity).
    assert (Hf : force_index_match pk = fim) by (rewrite Hpk; reflexivity).
    cbv zeta. cbn [pick fst snd]. rewrite ?Hke, ?Hmu, ?Hf.
    rewrite Hold at 1. rewrite Hlin.
    cbn [bind put pick fst snd]. rewrite Hr. reflexivity.
  - destruct Hres as (-> & Hlen).
    exact (reindex_mu_real ke mue dat fim kw pk e Hinit Hke' He Hlen).
Qed.

Lemma rebinned_shapes ek emu kc muc dat :
  Forall (fun nc : string * array2 R =>
            has_shape (snd nc) (length ek - 1, length emu - 1)%nat = true)
         (rebinned ek emu kc muc dat).
Proof.
  unfold rebinned. apply Forall_forall. intros nc Hin.
  apply in_map_iff in Hin as (nc0 & <- & _). simpl.
  replace (length ek - 1)%nat with (length ek + 1 - 2)%nat by lia.
  replace (length emu - 1)%nat with (length emu + 1 - 2)%nat by lia.
  apply rebin_field_has_shape. apply multi_index_of_bound.
Qed.
End ReindexReal.

Section ComposeMeans.
Local Open Scope R_scope.

Lemma only_sum b n g :
  only b (sum_upto n g) = sum_upto n (fun i => only b (g i)).
Proof.
  destruct b; simpl; [reflexivity|]. now rewrite sum_upto_zero.
Qed.

Lemma only_scale b x k : only b (x * k) = only b x * k.
Proof. destruct b; simpl; lra. Qed.

Lemma only_and a b x : only (a && b) x = only b (only a x).
Proof. destruct a, b; reflexivity. Qed.

(** Summing by final bin is summing, by final bin, the sums by
    intermediate bin, when every cell lies in an intermediate bin and goes
    where its intermediate bin goes. *)
Lemma regroup (N N1 : nat) (f g h : nat -> nat) (u : nat -> R) (t : nat) :
  (forall i, (i < N)%nat -> (1 <= f i <= N1)%nat /\ h i = g (f i - 1)%nat) ->
  sum_upto N (fun i => only (h i =? t)%nat (u i))
  = sum_upto N1 (fun b => only (g b =? t)%nat
                            (sum_upto N (fun i => only (f i =? S b)%nat (u i)))).
Proof.
  intros H.
  rewrite (sum_upto_ext N1 _
             (fun b => sum_upto N (fun i =>
                only (g b =? t)%nat (only (f i =? S b)%nat (u i)))))
    by (intros; apply only_sum).
  rewrite sum_upto_swap. apply sum_upto_ext. intros i Hi.
  destruct (H i Hi) as ((Hlo & Hhi) & Hh).
  rewrite (sum_upto_ext N1 _
             (fun b => only (b =? f i - 1)%nat (only (g b =? t)%nat (u i)))).
  - rewrite sum_upto_single by lia. now rewrite Hh.
  - intros b Hb. destruct (Nat.eqb_spec (f i) (S b)) as [E|E];
      destruct (Nat.eqb_spec b (f i - 1)) as [E'|E']; try lia; simpl; auto.
    now destruct (g b =? t)%nat.
Qed.

(** The mean, by final bin, of the means by intermediate bin is the mean by
    final bin, when all intermediate bins hold [m] cells. *)
Lemma compose_means (N N1 : nat) (f g h : nat -> nat) (v : nat -> R) (t m : nat) :
  (forall i, (i < N)%nat -> (1 <= f i <= N1)%nat /\ h i = g (f i - 1)%nat) ->
  (forall b, (b < N1)%nat ->
             sum_upto N (fun i => only (f i =? S b)%nat 1) = INR m) ->
  sum_upto N1 (fun b => only (g b =? t)%nat
                 (sum_upto N (fun i => only (f i =? S b)%nat (v i))
                  / sum_upto N (fun i => only (f i =? S b)%nat 1)))
  / sum_upto N1 (fun b => only (g b =? t)%nat 1)
  = sum_upto N (fun i => only (h i =? t)%nat (v i))
    / sum_upto N (fun i => only (h i =? t)%nat 1).
Proof.
  intros H Hm.
  set (A := fun b : nat => sum_upto N (fun i => only (f i =? S b)%nat (v i))).
  set (V := sum_upto N1 (fun b => only (g b =? t)%nat (A b))).
  set (D := sum_upto N1 (fun b => only (g b =? t)%nat 1)).
  assert (E1 : sum_upto N1 (fun b => only (g b =? t)%nat
                 (A b / sum_upto N (fun i => only (f i =? S b)%nat 1)))
               = V * / INR m).
  { unfold V. rewrite <- sum_upto_scale. apply sum_upto_ext. intros b Hb.
    rewrite Hm by auto. unfold Rdiv. apply only_scale. }
  assert (E2 : sum_upto N (fun i => only (h i =? t)%nat 1) = D * INR m).
  { rewrite (regroup N N1 f g h (fun _ => 1) t H). unfold D.
    rewrite <- sum_upto_scale. apply sum_upto_ext. intros b Hb.
    rewrite Hm by auto. destruct (g b =? t)%nat; simpl; lra. }
  assert (E3 : sum_upto N (fun i => only (h i =? t)%nat (v i)) = V).
  { apply (regroup N N1 f g h v t H). }
  change (sum_upto N1 (fun b => only (g b =? t)%nat
            (A b / sum_upto N (fun i => only (f i =? S b)%nat 1))) / D
          = sum_upto N (fun i => only (h i =? t)%nat (v i))
            / sum_upto N (fun i => only (h i =? t)%nat 1)).
  rewrite E1, E2, E3. unfold Rdiv. rewrite Rinv_mult. ring.
Qed.

Lemma sum_upto_nth (l : list R) (G : R -> R) :
  sum_upto (length l) (fun i => G (nth i l 0)) = Rsum (map G l).
Proof.
  unfold sum_upto. rewrite <- (map_map (fun i => nth i l 0) G).
  now rewrite map_nth_seq.
Qed.

Lemma sum_count (P : R -> bool) (l : list R) :
  sum_upto (length l) (fun i => only (P (nth i l 0)) 1) = INR (count P l).
Proof.
  rewrite (sum_upto_nth l (fun x => only (P x) 1)). unfold count.
  induction l as [|x l IH]; simpl; [reflexivity|].
  destruct (P x); simpl.
  - rewrite IH. destruct (length (filter P l)); simpl; lra.
  - rewrite IH. lra.
Qed.
End ComposeMeans.

Section RebinTwice.
Local Open Scope R_scope.

Lemma gathered_k ek emu kc muc r c v :
  (forall j, (j < length muc)%nat -> digit emu (nth j muc 0) = S j) ->
  (c < length muc)%nat ->
  gathered ek emu kc muc r c v
  = sum_upto (length kc)
      (fun i => only (digit ek (nth i kc 0%R) =? S r)%nat (v i c)).
Proof.
  intros Hown Hc. unfold gathered. apply sum_upto_ext. intros i Hi.
  rewrite (sum_upto_ext (length muc) _
             (fun j => only (j =? c)%nat
                         (only (digit ek (nth i kc 0%R) =? S r)%nat (v i j)))).
  - now rewrite sum_upto_single.
  - intros j Hj. unfold falls_in. rewrite Hown by auto. apply only_and.
Qed.

Lemma gathered_mu ek emu kc muc r c v :
  (forall i, (i < length kc)%nat -> digit ek (nth i kc 0) = S i) ->
  (r < length kc)%nat ->
  gathered ek emu kc muc r c v
  = sum_upto (length muc)
      (fun j => only (digit emu (nth j muc 0%R) =? S c)%nat (v r j)).
Proof.
  intros Hown Hr. unfold gathered.
  rewrite (sum_upto_ext (length kc) _
             (fun i => only (i =? r)%nat
                         (sum_upto (length muc)
                            (fun j => only (digit emu (nth j muc 0%R) =? S c)%nat
                                           (v i j))))).
  - now rewrite sum_upto_single.
  - intros i Hi. rewrite only_sum. apply sum_upto_ext. intros j Hj.
    unfold falls_in. rewrite Hown by auto.
    rewrite andb_comm. apply only_and.
Qed.

(** One column, rebinned along k to [e1] and then to [e2], against the
    column rebinned to [e2] at once. *)
Lemma rebin_field_twice_k ke mue e1 e2 m (col : array2 R) :
  has_shape col (length (centers ke), length (centers mue)) = true ->
  own_bins mue -> nested ke e1 e2 -> equal_occupancy ke e1 m ->
  rebin_field (multi_index_of e2 mue (centers e1) (centers mue))
    (length e2 + 1, length mue + 1)%nat
    (full (length (centers e1)) (length (centers mue)) false)
    (full (length (centers e1)) (length (centers mue)) 1)
    (rebin_field (multi_index_of e1 mue (centers ke) (centers mue))
       (length e1 + 1, length mue + 1)%nat
       (full (length (centers ke)) (length (centers mue)) false)
       (full (length (centers ke)) (length (centers mue)) 1) col)
  = rebin_field (multi_index_of e2 mue (centers ke) (centers mue))
      (length e2 + 1, length mue + 1)%nat
      (full (length (centers ke)) (length (centers mue)) false)
      (full (length (centers ke)) (length (centers mue)) 1) col.
Proof.
  intros Hs Hown Hnest Hocc.
  set (T1 := rebin_field (multi_index_of e1 mue (centers ke) (centers mue)) _ _ _ col).
  assert (HT1 : has_shape T1 (length (centers e1), length (centers mue)) = true).
  { rewrite !centers_length.
    replace (length e1 - 1)%nat with (length e1 + 1 - 2)%nat by lia.
    replace (length mue - 1)%nat with (length mue + 1 - 2)%nat by lia.
    apply rebin_field_has_shape. apply multi_index_of_bound. }
  assert (Hown' : forall j, (j < length (centers mue))%nat ->
                            digit mue (nth j (centers mue) 0) = S j).
  { intros j Hj. apply Hown. now rewrite centers_length in Hj. }
  apply array2_ext with (n := (length e2 + 1 - 2)%nat)
                        (m := (length mue + 1 - 2)%nat) (d := 0).
  - apply rebin_field_has_shape. apply multi_index_of_bound.
  - apply rebin_field_has_shape. apply multi_index_of_bound.
  - intros r c Hr Hc.
    assert (Hc' : (c < length (centers mue))%nat) by (rewrite centers_length; lia).
    rewrite !rebin_field_real by (auto; lia).
    rewrite !gathered_k by auto.
    rewrite (sum_upto_ext (length (centers e1)) _
               (fun b => only (digit e2 (nth b (centers e1) 0%R) =? S r)%nat
                  (sum_upto (length (centers ke))
                     (fun i => only (digit e1 (nth i (centers ke) 0%R) =? S b)%nat
                                    (get2 0 col i c))
                   / sum_upto (length (centers ke))
                       (fun i => only (digit e1 (nth i (centers ke) 0%R) =? S b)%nat 1)))).
    + apply (compose_means (length (centers ke)) (length (centers e1))
               (fun i => digit e1 (nth i (centers ke) 0))
               (fun b => digit e2 (nth b (centers e1) 0))
               (fun i => digit e2 (nth i (centers ke) 0))
               (fun i => get2 0 col i c) (S r) m).
      * intros i Hi. rewrite centers_length in *. apply (Hnest i Hi).
      * intros b Hb. rewrite centers_length in Hb.
        rewrite <- (Hocc b Hb).
        apply (sum_count (fun x => (digit e1 x =? S b)%nat) (centers ke)).
    + intros b Hb. f_equal. unfold T1.
      rewrite rebin_field_real by (auto; rewrite centers_length in *; lia).
      now rewrite !gathered_k by auto.
Qed.
(** The same along mu. *)
Lemma rebin_field_twice_mu ke mue e1 e2 m (col : array2 R) :
  has_shape col (length (centers ke), length (centers mue)) = true ->
  own_bins ke -> nested mue e1 e2 -> equal_occupancy mue e1 m ->
  rebin_field (multi_index_of ke e2 (centers ke) (centers e1))
    (length ke + 1, length e2 + 1)%nat
    (full (length (centers ke)) (length (centers e1)) false)
    (full (length (centers ke)) (length (centers e1)) 1)
    (rebin_field (multi_index_of ke e1 (centers ke) (centers mue))
       (length ke + 1, length e1 + 1)%nat
       (full (length (centers ke)) (length (centers mue)) false)
       (full (length (centers ke)) (length (centers mue)) 1) col)
  = rebin_field (multi_index_of ke e2 (centers ke) (centers mue))
      (length ke + 1, length e2 + 1)%nat
      (full (length (centers ke)) (length (centers mue)) false)
      (full (length (centers ke)) (length (centers mue)) 1) col.
Proof.
  intros Hs Hown Hnest Hocc.
  set (T1 := rebin_field (multi_index_of ke e1 (centers ke) (centers mue)) _ _ _ col).
  assert (HT1 : has_shape T1 (length (centers ke), length (centers e1)) = true).
  { rewrite !centers_length.
    replace (length e1 - 1)%nat with (length e1 + 1 - 2)%nat by lia.
    replace (length ke - 1)%nat with (length ke + 1 - 2)%nat by lia.
    apply rebin_field_has_shape. apply multi_index_of_bound. }
  assert (Hown' : forall i, (i < length (centers ke))%nat ->
                            digit ke (nth i (centers ke) 0) = S i).
  { intros i Hi. apply Hown. now rewrite centers_length in Hi. }
  apply array2_ext with (n := (length ke + 1 - 2)%nat)
                        (m := (length e2 + 1 - 2)%nat) (d := 0).
  - apply rebin_field_has_shape. apply multi_index_of_bound.
  - apply rebin_field_has_shape. apply multi_index_of_bound.
  - intros r c Hr Hc.
    assert (Hr' : (r < length (centers ke))%nat) by (rewrite centers_length; lia).
    rewrite !rebin_field_real by (auto; lia).
    rewrite !gathered_mu by auto.
    rewrite (sum_upto_ext (length (centers e1)) _
               (fun b => only (digit e2 (nth b (centers e1) 0%R) =? S c)%nat
                  (sum_upto (length (centers mue))
                     (fun j => only (digit e1 (nth j (centers mue) 0%R) =? S b)%nat
                                    (get2 0 col r j))
                   / sum_upto (length (centers mue))
                       (fun j => only (digit e1 (nth j (centers mue) 0%R) =? S b)%nat 1)))).
    + apply (compose_means (length (centers mue)) (length (centers e1))
               (fun j => digit e1 (nth j (centers mue) 0))
               (fun b => digit e2 (nth b (centers e1) 0))
               (fun j => digit e2 (nth j (centers mue) 0))
               (fun j => get2 0 col r j) (S c) m).
      * intros j Hj. rewrite centers_length in *. apply (Hnest j Hj).
      * intros b Hb. rewrite centers_length in Hb.
        rewrite <- (Hocc b Hb).
        apply (sum_count (fun x => (digit e1 x =? S b)%nat) (centers mue)).
    + intros b Hb. f_equal. unfold T1.
      rewrite rebin_field_real by (auto; rewrite centers_length in *; lia).
      now rewrite !gathered_mu by auto.
Qed.

Lemma rebinned_nonempty ek emu kc muc dat :
  dat <> [] -> rebinned ek emu kc muc dat <> [].
Proof. destruct dat; simpl; congruence. Qed.

Lemma resolves_nonempty old bins e : resolves_to old bins e -> old <> [].
Proof.
  destruct bins as [n|e']; simpl.
  - intros (_ & e0 & rest & -> & _). discriminate.
  - intros (_ & H). destruct old; simpl in *; [lia|discriminate].
Qed.

(** Two rebinnings of k against one, on a whole [PkmuResult]. *)
Lemma reindex_k_twice ke mue dat fim kw (pk : PkmuResult R) bins1 bins2 e1 e2 m :
  __init__ ke mue dat fim kw = Ok pk ->
  resolves_to ke bins1 e1 -> resolves_to e1 bins2 e2 -> resolves_to ke bins2 e2 ->
  adjacent fleb e1 = true -> adjacent fleb e2 = true -> adjacent fleb mue = true ->
  own_bins mue -> nested ke e1 e2 -> equal_occupancy ke e1 m ->
  exists pk1,
    reindex_k pk bins1 WNone = Ok pk1
    /\ reindex_k pk1 bins2 WNone = reindex_k pk bins2 WNone
    /\ (e2 <> [] -> exists pk2, reindex_k pk bins2 WNone = Ok pk2).
Proof.
  intros Hinit R1 R12 R2 H1 H2 Hm Hown Hnest Hocc.
  destruct (init_real_inv _ _ _ _ _ _ Hinit) as (_ & Hd & Hke & Hmue & Hsh).
  destruct (init_ok e1 mue (rebinned e1 mue (centers ke) (centers mue) dat) fim [])
    as (pk1 & Hinit1).
  { exact (resolves_nonempty _ _ _ R12). }
  { exact Hmue. }
  { now apply rebinned_nonempty. }
  { apply rebinned_shapes. }
  exists pk1. rewrite (reindex_k_resolved _ _ _ _ _ _ _ e1 Hinit R1 H1 Hm).
  split; [exact Hinit1|].
  rewrite (reindex_k_resolved _ _ _ _ _ _ _ e2 Hinit1 R12 H2 Hm).
  rewrite (reindex_k_resolved _ _ _ _ _ _ _ e2 Hinit R2 H2 Hm).
  split.
  - f_equal. unfold rebinned. rewrite map_map. apply map_ext_in.
    intros nc Hin. simpl. f_equal.
    apply rebin_field_twice_k with (m := m); auto.
    rewrite !centers_length. rewrite Forall_forall in Hsh. now apply Hsh.
  - intros He2. apply init_ok; auto.
    + now apply rebinned_nonempty.
    + apply rebinned_shapes.
Qed.

(** Two rebinnings of mu against one. *)
Lemma reindex_mu_twice ke mue dat fim kw (pk : PkmuResult R) bins1 bins2 e1 e2 m :
  __init__ ke mue dat fim kw = Ok pk ->
  resolves_to mue bins1 e1 -> resolves_to e1 bins2 e2 -> resolves_to mue bins2 e2 ->
  adjacent fleb e1 = true -> adjacent fleb e2 = true -> adjacent fleb ke = true ->
  own_bins ke -> nested mue e1 e2 -> equal_occupancy mue e1 m ->
  exists pk1,
    reindex_mu pk bins1 WNone = Ok pk1
    /\ reindex_mu pk1 bins2 WNone = reindex_mu pk bins2 WNone
    /\ (e2 <> [] -> exists pk2, reindex_mu pk bins2 WNone = Ok pk2).
Proof.
  intros Hinit R1 R12 R2 H1 H2 Hk Hown Hnest Hocc.
  destruct (init_real_inv _ _ _ _ _ _ Hinit) as (_ & Hd & Hke & Hmue & Hsh).
  destruct (init_ok ke e1 (rebinned ke e1 (centers ke) (centers mue) dat) fim [])
    as (pk1 & Hinit1).
  { exact Hke. }
  { exact (resolves_nonempty _ _ _ R12). }
  { now apply rebinned_nonempty. }
  { apply rebinned_shapes. }
  exists pk1. rewrite (reindex_mu_resolved _ _ _ _ _ _ _ e1 Hinit R1 Hk H1).
  split; [exact Hinit1|].
  rewrite (reindex_mu_resolved _ _ _ _ _ _ _ e2 Hinit1 R12 Hk H2).
  rewrite (reindex_mu_resolved _ _ _ _ _ _ _ e2 Hinit R2 Hk H2).
  split.
  - f_equal. unfold rebinned. rewrite map_map. apply map_ext_in.
    intros nc Hin. simpl. f_equal.
    apply rebin_field_twice_mu with (m := m); auto.
    rewrite !centers_length. rewrite Forall_forall in Hsh. now apply Hsh.
  - intros He2. apply init_ok; auto.
    + now apply rebinned_nonempty.
    + apply rebinned_shapes.
Qed.
End RebinTwice.

(** C4 as worded fails: six mask-free k bins holding 0, ..., 5 are merged
    along their own edges into the bins of edges 0, 2, 6 (means 0.5 and
    3.5) and from there into one bin, 2; merged into one bin at once they
    give 2.5.  Integer targets do the same: five bins holding 0, ..., 4 go
    to two bins (means 0.5 and 3) and from there to one, 1.75; to one bin
    at once they give 2. *)
Lemma C4_counterexample :
  (Examples.table_of Examples7.pk6
   = Some ([("power"%string, [0; 1; 2; 3; 4; 5]%float)],
           [false; false; false; false; false; false])
   /\ Examples.table_of
        (p <- Examples7.pk6 ;; reindex_k p (BinsEdges [0; 2; 6]%float) WNone)
      = Some ([("power"%string, [0.5; 3.5]%float)], [false; false])
   /\ Examples.table_of Examples7.merged_in_two_steps
      = Some ([("power"%string, [2]%float)], [false])
   /\ Examples.table_of Examples7.merged_at_once
      = Some ([("power"%string, [2.5]%float)], [false])
   /\ Examples7.merged_in_two_steps <> Examples7.merged_at_once)
  /\ (Examples.table_of Examples7.pk
      = Some ([("power"%string, [0; 1; 2; 3; 4]%float)],
              [false; false; false; false; false])
      /\ Examples.table_of (p <- Examples7.pk ;; reindex_k p (BinsInt 2) WNone)
         = Some ([("power"%string, [0.5; 3]%float)], [false; false])
      /\ Examples.table_of Examples7.in_two_steps
         = Some ([("power"%string, [1.75]%float)], [false])
      /\ Examples.table_of Examples7.at_once
         = Some ([("power"%string, [2]%float)], [false])
      /\ Examples7.in_two_steps <> Examples7.at_once).
Proof.
  split; repeat split; try (vm_compute; reflexivity);
    vm_compute; intros H; discriminate H.
Qed.

(** C4, amended. Over the real numbers (that is, up to rounding), for a
    [PkmuResult] without missing cells and with the default uniform
    weights: rebinning an axis to an intermediate grid and then to a final
    grid returns what rebinning to the final grid at once returns,
    provided the grids are nested (each original bin has its center in an
    intermediate bin, whose center lies in the same final bin), every
    intermediate bin holds the same number of original bins, the edges do
    not decrease and the centers of the other axis lie in their own bins.
    The requests may be integer counts or explicit edges, as long as
    [_reindex] accepts them. *)
Theorem C4_rebin_twice_equal_occupancy :
  (forall ke mue dat fim kw (pk : PkmuResult R) bins1 bins2 e1 e2 m,
      __init__ ke mue dat fim kw = Ok pk ->
      resolves_to ke bins1 e1 -> resolves_to e1 bins2 e2 -> resolves_to ke bins2 e2 ->
      adjacent fleb e1 = true -> adjacent fleb e2 = true -> adjacent fleb mue = true ->
      own_bins mue -> nested ke e1 e2 -> equal_occupancy ke e1 m ->
      exists pk1,
        reindex_k pk bins1 WNone = Ok pk1
        /\ reindex_k pk1 bins2 WNone = reindex_k pk bins2 WNone
        /\ (e2 <> [] -> exists pk2, reindex_k pk bins2 WNone = Ok pk2))
  /\ (forall ke mue dat fim kw (pk : PkmuResult R) bins1 bins2 e1 e2 m,
         __init__ ke mue dat fim kw = Ok pk ->
         resolves_to mue bins1 e1 -> resolves_to e1 bins2 e2 ->
         resolves_to mue bins2 e2 ->
         adjacent fleb e1 = true -> adjacent fleb e2 = true ->
         adjacent fleb ke = true ->
         own_bins ke -> nested mue e1 e2 -> equal_occupancy mue e1 m ->
         exists pk1,
           reindex_mu pk bins1 WNone = Ok pk1
           /\ reindex_mu pk1 bins2 WNone = reindex_mu pk bins2 WNone
           /\ (e2 <> [] -> exists pk2, reindex_mu pk bins2 WNone = Ok pk2)).
Proof.
  split.
  - intros. eapply reindex_k_twice; eauto.
  - intros. eapply reindex_mu_twice; eauto.
Qed.

Ltac unfold_grid :=
  cbv [digit count centers filter zipwith tl removelast nth length adjacent andb
       fleb fhalf fadd fmul exact_real Nat.sub
       Examples8.ke Examples8.mue Examples8.e1 Examples8.e2].

(** Settle the comparisons of closed reals, innermost first. *)
Ltac decide_reals :=
  unfold_grid;
  repeat (match goal with
          | |- context [Rle_dec ?a ?b] =>
              lazymatch a with
              | context [Rle_dec _ _] => fail
              | _ =>
                  lazymatch b with
                  | context [Rle_dec _ _] => fail
                  | _ => destruct (Rle_dec a b); try lra
                  end
              end
          end; unfold_grid);
  try reflexivity; try lia.

Lemma C4_rebin_twice_equal_occupancy_witness :
  exists pk,
    __init__ Examples8.ke Examples8.mue Examples8.dat false [] = Ok pk
    /\ exists pk1,
         reindex_k pk (BinsEdges Examples8.e1) WNone = Ok pk1
         /\ reindex_k pk1 (BinsEdges Examples8.e2) WNone
            = reindex_k pk (BinsEdges Examples8.e2) WNone
         /\ (Examples8.e2 <> [] ->
             exists pk2, reindex_k pk (BinsEdges Examples8.e2) WNone = Ok pk2).
Proof.
  destruct (__init__ Examples8.ke Examples8.mue Examples8.dat false [])
    as [pk|e] eqn:E; [|discriminate E].
  exists pk. split; [reflexivity|].
  destruct C4_rebin_twice_equal_occupancy as (Hk & _).
  apply (Hk Examples8.ke Examples8.mue Examples8.dat false [] pk
            (BinsEdges Examples8.e1) (BinsEdges Examples8.e2)
            Examples8.e1 Examples8.e2 2%nat E).
  - simpl. split; [reflexivity|lia].
  - simpl. split; [reflexivity|lia].
  - simpl. split; [reflexivity|lia].
  - decide_reals.
  - decide_reals.
  - decide_reals.
  - intros j Hj. simpl in Hj. destruct j as [|j]; [|lia]. decide_reals.
  - intros i Hi. simpl in Hi. cbv zeta.
    do 6 (destruct i as [|i]; [split; decide_reals|]).
    lia.
  - intros b Hb. simpl in Hb.
    do 3 (destruct b as [|b]; [decide_reals|]).
    lia.
Defined.

(* ================================================================= *)
(** * Further properties of the code *)

(** ** The constructor, and what a rebinning request is answered with *)

(** Keyword names, one by one, against the names of the attributes. *)
Ltac plain_by_cases :=
  let k := fresh "k" in
  let Hk := fresh "Hk" in
  let Ho := fresh "Ho" in
  intros k Hk Ho; simpl in Hk, Ho; intuition (subst; discriminate).

Lemma map_nth_in {A B} (f : A -> B) (l : list A) p d d' :
  p < length l -> nth p (map f l) d' = f (nth p l d).
Proof.
  intros Hp. rewrite nth_indep with (d' := f d) by now rewrite length_map.
  apply map_nth.
Qed.

Section InitMore.
Context {F : Type} {NF : Numeric F}.


End InitMore.


Section InitMore2.
Context {F : Type} {NF : Numeric F}.

Lemma init_built ke mue dat fim kw :
  ke <> [] -> mue <> [] -> dat <> [] ->
  Forall (fun nc : string * array2 F =>
            has_shape (snd nc) (length ke - 1, length mue - 1) = true) dat ->
  exists mask,
    mask_all (full (length ke - 1) (length mue - 1) false) dat = Ok mask
    /\ __init__ ke mue dat fim kw
       = Ok (mkPkmu (map fst dat) ke mue (mkRec dat mask)
               (mkIndex
                  (mk2 (length ke - 1) (length mue - 1)
                     (flat_map (fun c => repeat c (length mue - 1)) (centers ke)))
                  (mk2 (length ke - 1) (length mue - 1)
                     (concat (repeat (centers mue) (length ke - 1)))))
               fim (map fst kw) kw).
Proof.
  intros Hk Hm Hd Hsh.
  destruct (@mask_all_ok F NF dat (full (length ke - 1) (length mue - 1) false))
    as (mask & Hmask); [exact Hsh|].
  exists mask. split; auto.
  unfold __init__. destruct ke as [|k0 ke]; [congruence|].
  destruct mue as [|m0 mue]; [congruence|].
  cbv zeta. rewrite Hmask. cbn [bind].
  destruct dat; [congruence|reflexivity].
Qed.

Lemma mask_all_length cols (mask m' : array2 bool) :
  mask_all mask cols = Ok m' -> wf2 mask ->
  length (flat m') = length (flat mask).
Proof.
  revert mask; induction cols as [|nc cols IH]; intros mask H Hwf; simpl in *.
  - now injection H as <-.
  - destruct (mask_or mask (snd nc)) as [m1|e] eqn:E; simpl in H; [|discriminate].
    pose proof E as E'. apply mask_or_inv in E' as (Hs & Hsh).
    unfold mask_or in E. rewrite Hs in E. injection E as <-.
    destruct (shape2 mask) as [n m] eqn:Es.
    apply has_shape_inv in Hs as (Hn & Hm & Hw).
    unfold shape2 in Es. injection Es as En Em. unfold wf2 in *.
    assert (Hz : length (zipwith orb (flat mask)
                          (map negb (flat (isfinite (snd nc)))))
                 = length (flat mask)).
    { rewrite zipwith_length. unfold isfinite, map2d. simpl.
      rewrite !length_map. lia. }
    rewrite (IH _ H).
    + cbn [flat]. exact Hz.
    + unfold wf2. etransitivity; [exact Hz|exact Hwf].
Qed.

Lemma init_nonempty ke mue dat fim kw (pk : PkmuResult F) :
  __init__ ke mue dat fim kw = Ok pk -> ke <> [] /\ mue <> [] /\ dat <> [].
Proof.
  unfold __init__. destruct ke, mue; try discriminate.
  cbv zeta. destruct (mask_all _ dat); cbn [bind]; [|discriminate].
  destruct dat; [discriminate|]. intros _. repeat split; discriminate.
Qed.

Lemma init_inv_mask ke mue dat fim kw (pk : PkmuResult F) :
  __init__ ke mue dat fim kw = Ok pk ->
  exists mask,
    mask_all (full (length ke - 1) (length mue - 1) false) dat = Ok mask
    /\ has_shape mask (length ke - 1, length mue - 1) = true
    /\ Forall (fun nc : string * array2 F =>
                 has_shape (snd nc) (length ke - 1, length mue - 1) = true) dat
    /\ pk = mkPkmu (map fst dat) ke mue (mkRec dat mask)
              (mkIndex
                 (mk2 (length ke - 1) (length mue - 1)
                    (flat_map (fun c => repeat c (length mue - 1)) (centers ke)))
                 (mk2 (length ke - 1) (length mue - 1)
                    (concat (repeat (centers mue) (length ke - 1)))))
              fim (map fst kw) kw.
Proof.
  intros Hinit.
  destruct (init_nonempty _ _ _ _ _ _ Hinit) as (Hk & Hm & Hd).
  destruct (@init_inv F NF ke mue dat fim kw pk Hinit) as (mask & Hpk & Hms & Hsh).
  destruct (init_built ke mue dat fim kw Hk Hm Hd Hsh) as (mask' & Hmask & Hinit').
  rewrite Hinit in Hinit'. injection Hinit' as Hpk'.
  exists mask'. split; [exact Hmask|]. split; [|split; auto].
  assert (Hfull : wf2 (full (length ke - 1) (length mue - 1) false)).
  { unfold wf2, full. simpl. apply repeat_length. }
  pose proof (mask_all_length dat _ _ Hmask Hfull) as Hlen.
  pose proof (@mask_all_inv F NF dat _ _ Hmask) as (Hs & _).
  cbn [full flat] in Hlen. rewrite repeat_length in Hlen.
  unfold shape2 in Hs. cbn [full nrow ncol] in Hs. injection Hs as Hn Hc.
  unfold has_shape, shape_eqb, shape2. simpl.
  rewrite Hn, Hc, !Nat.eqb_refl. simpl. now apply Nat.eqb_eq.
Qed.

End InitMore2.



Section ReindexMore.
Context {F : Type} {NF : Numeric F}.

Lemma linspace_ok (a b : F) num :
  (0 <= num)%Z ->
  exists l, linspace a b num = Ok l /\ length l = Z.to_nat num
            /\ (2 <= num -> last l a = b)%Z.
Proof.
  intros H. unfold linspace.
  replace (num <? 0)%Z with false by (symmetry; apply Z.ltb_ge; lia).
  destruct (Z.to_nat num) as [|[|k]] eqn:E.
  - exists []. repeat split; auto. lia.
  - exists [a]. repeat split; auto. lia.
  - eexists. split; [reflexivity|]. split.
    + rewrite length_app, length_map, length_seq. simpl. lia.
    + intros _. apply last_last.
Qed.

Lemma reindex_after_guard ke mue dat fim kw (pk : PkmuResult F) i bins w :
  __init__ ke mue dat fim kw = Ok pk ->
  passes_guard (length (pick i (ke, mue)) - 1) bins ->
  exists e,
    edges_from (pick i (ke, mue)) bins e
    /\ _reindex pk i (ix_k_center (index pk), ix_mu_center (index pk))
         (kedges pk, muedges pk) bins w
       = (weights <- resolve_weights pk w ;;
          new_data <- rebin (ix_k_center (index pk), ix_mu_center (index pk))
                            (put i e (ke, mue)) (data pk) weights ;;
          __init__ (fst (put i e (ke, mue))) (snd (put i e (ke, mue)))
                   new_data fim []).
Proof.
  intros Hinit Hg.
  destruct (init_nonempty _ _ _ _ _ _ Hinit) as (Hk & Hm & _).
  destruct (@init_inv F NF ke mue dat fim kw pk Hinit) as (mask & -> & _).
  unfold _reindex.
  cbn [index ix_k_center ix_mu_center kedges muedges force_index_match].
  assert (HN : axis_len i (shape2 (pick i
                 (mk2 (length ke - 1) (length mue - 1)
                    (flat_map (fun c => repeat c (length mue - 1)) (centers ke)),
                  mk2 (length ke - 1) (length mue - 1)
                    (concat (repeat (centers mue) (length ke - 1))))))
               = length (pick i (ke, mue)) - 1)
    by (destruct i; reflexivity).
  cbv zeta. rewrite HN.
  destruct bins as [n|e]; simpl in Hg.
  - replace (Z.of_nat (length (pick i (ke, mue)) - 1) <=? n)%Z with false
      by (symmetry; apply Z.leb_gt; lia).
    destruct (pick i (ke, mue)) as [|e0 rest] eqn:Ep.
    { destruct i; simpl in Ep; congruence. }
    destruct (linspace_ok e0 (last (e0 :: rest) e0) (n + 1)) as (l & Hl & _);
      [lia|].
    exists l. split; [exists e0, rest; auto|].
    rewrite Hl. reflexivity.
  - replace (length (pick i (ke, mue)) - 1 <=? length e) with false
      by (symmetry; apply Nat.leb_gt; lia).
    exists e. split; reflexivity.
Qed.

Lemma rebin_names index edges (d : mrecords F) w out :
  rebin index edges d w = Ok out -> map fst out = map fst (fields d).
Proof.
  unfold rebin. destruct (negb _); [discriminate|].
  destruct (digitize _ (fst edges)); cbn [bind]; [|discriminate].
  destruct (digitize _ (snd edges)); cbn [bind]; [|discriminate].
  destruct (ravel_multi_index _ _); cbn [bind]; [|discriminate].
  intros [= <-]. rewrite map_map. reflexivity.
Qed.


End ReindexMore.





Section ReindexMore2.
Context {F : Type} {NF : Numeric F}.

Lemma reindex_ok_guard ke mue dat fim kw (pk pk' : PkmuResult F) i bins w :
  __init__ ke mue dat fim kw = Ok pk ->
  _reindex pk i (ix_k_center (index pk), ix_mu_center (index pk))
    (kedges pk, muedges pk) bins w = Ok pk' ->
  passes_guard (length (pick i (ke, mue)) - 1) bins.
Proof.
  intros Hinit.
  destruct (@init_inv F NF ke mue dat fim kw pk Hinit) as (mask & -> & _).
  unfold _reindex.
  cbn [index ix_k_center ix_mu_center kedges muedges force_index_match].
  assert (HN : axis_len i (shape2 (pick i
                 (mk2 (length ke - 1) (length mue - 1)
                    (flat_map (fun c => repeat c (length mue - 1)) (centers ke)),
                  mk2 (length ke - 1) (length mue - 1)
                    (concat (repeat (centers mue) (length ke - 1))))))
               = length (pick i (ke, mue)) - 1)
    by (destruct i; reflexivity).
  cbv zeta. rewrite HN.
  destruct bins as [n|e]; simpl.
  - destruct (Z.leb_spec (Z.of_nat (length (pick i (ke, mue)) - 1)) n);
      [discriminate|].
    destruct (pick i (ke, mue)) as [|e0 rest]; [discriminate|].
    unfold linspace. destruct (Z.ltb_spec (n + 1) 0); [discriminate|].
    intros _. lia.
  - destruct (Nat.leb_spec (length (pick i (ke, mue)) - 1) (length e));
      [discriminate|]. intros _. lia.
Qed.

(** What every instance returned by [_reindex] looks like. *)
Lemma reindex_result ke mue dat fim kw (pk pk' : PkmuResult F) i bins w :
  __init__ ke mue dat fim kw = Ok pk ->
  _reindex pk i (ix_k_center (index pk), ix_mu_center (index pk))
    (kedges pk, muedges pk) bins w = Ok pk' ->
  exists e,
    edges_from (pick i (ke, mue)) bins e
    /\ (kedges pk', muedges pk') = put i e (ke, mue)
    /\ force_index_match pk' = fim
    /\ columns pk' = map fst dat
    /\ map fst (fields (data pk')) = map fst dat
    /\ _metadata pk' = [] /\ attrs pk' = []
    /\ Nk pk' = length (kedges pk') - 1 /\ Nmu pk' = length (muedges pk') - 1.
Proof.
  intros Hinit Hr.
  pose proof (reindex_ok_guard _ _ _ _ _ _ _ _ _ _ Hinit Hr) as Hg.
  destruct (reindex_after_guard ke mue dat fim kw pk i bins w Hinit Hg)
    as (e & He & Heq).
  rewrite Heq in Hr. exists e. split; auto.
  destruct (resolve_weights pk w) as [wt|?]; cbn [bind] in Hr; [|discriminate].
  destruct (rebin _ _ (data pk) wt) as [nd|?] eqn:Erb; cbn [bind] in Hr;
    [|discriminate].
  apply rebin_names in Erb.
  destruct (@init_inv F NF _ _ _ _ _ _ Hr) as (mask' & -> & Hm' & _).
  destruct (@init_inv F NF ke mue dat fim kw pk Hinit) as (mask & -> & _).
  cbn [data fields] in Erb.
  unfold Nk, Nmu, mrec_shape.
  cbn [kedges muedges force_index_match columns data fields _metadata attrs
       mrec_mask map].
  rewrite Hm'. cbn [fst snd]. rewrite Erb.
  repeat split; auto. now destruct (put i e (ke, mue)).
Qed.

End ReindexMore2.

(** X5. What [reindex_k] and [reindex_mu] return, when they return: the
    new edges on their axis (the sequence passed, or [linspace] between the
    first and last old edge, [n+1] values ending on the last old edge), the
    other axis's edges, the flag and the column names unchanged, one bin
    less than edges; and none of the metadata: the new instance has no
    keyword attribute.  They return only for a request that passes the
    test on the number of bins. *)
Theorem X5_reindex_result (F : Type) (NF : Numeric F)
    ke mue dat fim kw (pk pk' : PkmuResult F) bins w :
  __init__ ke mue dat fim kw = Ok pk ->
  plain_keywords kw ->
  (reindex_k pk bins w = Ok pk' ->
   edges_from ke bins (kedges pk') /\ muedges pk' = mue
   /\ force_index_match pk' = fim
   /\ columns pk' = map fst dat /\ map fst (fields (data pk')) = map fst dat
   /\ _metadata pk' = [] /\ attrs pk' = []
   /\ Nk pk' = length (kedges pk') - 1 /\ Nmu pk' = length mue - 1
   /\ passes_guard (length ke - 1) bins)
  /\ (reindex_mu pk bins w = Ok pk' ->
      kedges pk' = ke /\ edges_from mue bins (muedges pk')
      /\ force_index_match pk' = fim
      /\ columns pk' = map fst dat /\ map fst (fields (data pk')) = map fst dat
      /\ _metadata pk' = [] /\ attrs pk' = []
      /\ Nk pk' = length ke - 1 /\ Nmu pk' = length (muedges pk') - 1
      /\ passes_guard (length mue - 1) bins)
  /\ (forall (a b : F) n l,
         (0 <= n)%Z -> linspace a b (n + 1) = Ok l ->
         length l = S (Z.to_nat n) /\ (1 <= n -> last l a = b)%Z).
Proof.
  intros Hinit _. split; [|split].
  - intros Hr. unfold reindex_k in Hr. cbv zeta in Hr.
    pose proof (reindex_ok_guard _ _ _ _ _ _ _ _ _ _ Hinit Hr) as Hg.
    destruct (reindex_result _ _ _ _ _ _ _ _ _ _ Hinit Hr)
      as (e & He & Hp & Hf & Hc & Hn & Hmd & Ha & HNk & HNmu).
    cbn [put pick fst snd] in *. injection Hp as Hke Hmue. subst e.
    rewrite Hmue in *. repeat split; auto.
  - intros Hr. unfold reindex_mu in Hr. cbv zeta in Hr.
    pose proof (reindex_ok_guard _ _ _ _ _ _ _ _ _ _ Hinit Hr) as Hg.
    destruct (reindex_result _ _ _ _ _ _ _ _ _ _ Hinit Hr)
      as (e & He & Hp & Hf & Hc & Hn & Hmd & Ha & HNk & HNmu).
    cbn [put pick fst snd] in *. injection Hp as Hke Hmue. subst e.
    rewrite Hke in *. repeat split; auto.
  - intros a b n l Hn Hl.
    destruct (linspace_ok a b (n + 1)) as (l' & Hl' & Hlen & Hlast); [lia|].
    rewrite Hl in Hl'. injection Hl' as <-. split.
    + rewrite Hlen. rewrite Z2Nat.inj_add by lia. simpl. lia.
    + intros H1. apply Hlast. lia.
Qed.

Lemma X5_reindex_result_witness :
  exists pk pk',
    __init__ [0; 1; 2; 3; 4]%float [0; 0.5; 1]%float
      [("power"%string, mk2 4 2 [0; 0; 1; 1; 2; 2; 3; 3]%float)] true
      [("volume"%string, MInt 8)] = Ok pk
    /\ reindex_k pk (BinsInt 2) WNone = Ok pk'
    /\ muedges pk' = [0; 0.5; 1]%float /\ force_index_match pk' = true
    /\ columns pk' = ["power"%string] /\ _metadata pk' = []
    /\ Nk pk' = 2 /\ Nmu pk' = 2.
Proof.
  destruct (__init__ [0; 1; 2; 3; 4]%float [0; 0.5; 1]%float
              [("power"%string, mk2 4 2 [0; 0; 1; 1; 2; 2; 3; 3]%float)] true
              [("volume"%string, MInt 8)]) as [pk|e] eqn:E;
    [|vm_compute in E; discriminate].
  destruct (reindex_k pk (BinsInt 2) WNone) as [pk'|e] eqn:E'.
  2:{ vm_compute in E. injection E as <-. vm_compute in E'. discriminate. }
  exists pk, pk'. split; [reflexivity|]. split; [exact E'|].
  destruct (X5_reindex_result float binary64 _ _ _ _ _ pk pk' (BinsInt 2) WNone E)
    as (H & _).
  { plain_by_cases. }
  destruct (H E') as (He & Hm & Hf & Hc & _ & Hmd & _ & HNk & HNmu & _).
  repeat split; auto.
  rewrite HNk. vm_compute in E. injection E as <-. vm_compute in E'.
  injection E' as <-. reflexivity.
Defined.

(** ** Positions and slices *)

Section IndexMore.
Context {F : Type} {NF : Numeric F}.

Lemma mapM_map {A B} (f : A -> result F B) (g : A -> B) l :
  (forall a, In a l -> f a = Ok (g a)) -> mapM f l = Ok (map g l).
Proof.
  induction l as [|a l IH]; intros H; simpl; auto.
  rewrite (H a) by now left. cbn [bind]. rewrite IH; auto.
  intros; apply H; now right.
Qed.

Lemma mapM_ext_in {A B} (f g : A -> result F B) l :
  (forall a, In a l -> f a = g a) -> mapM f l = mapM g l.
Proof.
  induction l as [|a l IH]; intros H; simpl; auto.
  rewrite (H a) by now left. rewrite IH; auto.
  intros; apply H; now right.
Qed.

Lemma norm_index_wrap ax n i :
  i < n -> norm_index (F:=F) ax n (Z.of_nat i - Z.of_nat n) = Ok i.
Proof.
  intros H. unfold norm_index.
  replace ((0 <=? Z.of_nat i - Z.of_nat n) && (Z.of_nat i - Z.of_nat n <? Z.of_nat n))%Z
    with false.
  2:{ symmetry. apply andb_false_iff. left. apply Z.leb_gt. lia. }
  replace ((- Z.of_nat n <=? Z.of_nat i - Z.of_nat n) && (Z.of_nat i - Z.of_nat n <? 0))%Z
    with true.
  2:{ symmetry. apply andb_true_iff. split; [apply Z.leb_le|apply Z.ltb_lt]; lia. }
  f_equal. lia.
Qed.

Lemma norm_index_outside ax n z :
  (z < - Z.of_nat n \/ Z.of_nat n <= z)%Z ->
  exists e, norm_index (F:=F) ax n z = Raise e /\ exn_cls e = IndexError.
Proof.
  intros H. unfold norm_index.
  replace ((0 <=? z) && (z <? Z.of_nat n))%Z with false.
  2:{ symmetry. apply andb_false_iff.
      destruct H; [left; apply Z.leb_gt|right; apply Z.ltb_ge]; lia. }
  replace ((- Z.of_nat n <=? z) && (z <? 0))%Z with false.
  2:{ symmetry. apply andb_false_iff.
      destruct H; [left; apply Z.leb_gt|right; apply Z.ltb_ge]; lia. }
  eexists. split; reflexivity.
Qed.



(** Indexing a table of well-shaped columns with two items: each column
    and the mask answer alike. *)
Lemma mrec_getitem2_items (d : mrecords F) n m k0 k1
    (sel : forall A, A -> array2 A -> view A) :
  Forall (fun nc : string * array2 F => has_shape (snd nc) (n, m) = true) (fields d) ->
  has_shape (mrec_mask d) (n, m) = true ->
  (forall A (x : A) (a : array2 A),
      nrow a = n -> ncol a = m -> getitem2 (F:=F) x a k0 k1 = Ok (sel A x a)) ->
  mrec_getitem2 d k0 k1
  = Ok (mkView (map (fun nc => (fst nc, sel F fzero (snd nc))) (fields d))
          (sel bool false (mrec_mask d))).
Proof.
  intros Hf Hm Hsel. unfold mrec_getitem2.
  rewrite (mapM_map _ (fun nc => (fst nc, sel F fzero (snd nc)))).
  - cbn [bind]. apply has_shape_inv in Hm as (Hn & Hc & _).
    now rewrite Hsel.
  - intros nc Hin. rewrite Forall_forall in Hf. apply Hf in Hin.
    apply has_shape_inv in Hin as (Hn & Hc & _). now rewrite Hsel.
Qed.

Lemma getitem2_bad_first {A} (x : A) (a : array2 A) n z k1 :
  nrow a = n -> (z < - Z.of_nat n \/ Z.of_nat n <= z)%Z ->
  exists e, getitem2 (F:=F) x a (IInt z) k1 = Raise e.
Proof.
  intros Hn Hz. destruct (norm_index_outside 0 n z Hz) as (e & He & _).
  unfold getitem2. rewrite Hn. destruct k1; rewrite He; simpl; eauto.
Qed.

Lemma getitem2_bad_second {A} (x : A) (a : array2 A) m i z :
  ncol a = m -> (z < - Z.of_nat m \/ Z.of_nat m <= z)%Z ->
  exists e, getitem2 (F:=F) x a (IInt i) (IInt z) = Raise e.
Proof.
  intros Hm Hz. destruct (norm_index_outside 1 m z Hz) as (e & He & _).
  unfold getitem2. rewrite Hm.
  destruct (norm_index 0 (nrow a) i); simpl; eauto. rewrite He; simpl; eauto.
Qed.

Lemma mrec_getitem2_raises (d : mrecords F) k0 k1 :
  fields d <> [] ->
  (forall nc, In nc (fields d) -> exists e, getitem2 (F:=F) fzero (snd nc) k0 k1 = Raise e) ->
  exists e, mrec_getitem2 d k0 k1 = Raise e.
Proof.
  intros Hne H. unfold mrec_getitem2.
  destruct (fields d) as [|nc rest]; [congruence|].
  destruct (H nc) as (e & He); [now left|].
  simpl. rewrite He. simpl. eauto.
Qed.

Lemma getitem_wraps (self : PkmuResult F) k e :
  getitem_body self k = Raise e ->
  exists e', __getitem__ self k = Raise e' /\ exn_cls e' = KeyError.
Proof.
  intros H. unfold __getitem__. rewrite H. simpl. eexists. split; reflexivity.
Qed.

End IndexMore.

(** X6. [pk[i, j]] for two integers: a position inside the table
    returns the cell of every column and its mask bit; a negative position
    counts from the end of its axis; a position outside either axis is a
    [KeyError]. *)
Theorem X6_getitem_positions (F : Type) (NF : Numeric F)
    ke mue dat fim kw (pk : PkmuResult F) :
  __init__ ke mue dat fim kw = Ok pk ->
  plain_keywords kw ->
  (forall i j, i < length ke - 1 -> j < length mue - 1 ->
     __getitem__ pk (KTuple [SRef (ByPos (Z.of_nat i)); SRef (ByPos (Z.of_nat j))])
     = Ok (mkView
             (map (fun nc => (fst nc, VScalar (get2 fzero (snd nc) i j))) dat)
             (VScalar (get2 false (mrec_mask (data pk)) i j))))
  /\ (forall i j, i < length ke - 1 -> j < length mue - 1 ->
        __getitem__ pk
          (KTuple [SRef (ByPos (Z.of_nat i - Z.of_nat (length ke - 1)));
                   SRef (ByPos (Z.of_nat j - Z.of_nat (length mue - 1)))])
        = __getitem__ pk
            (KTuple [SRef (ByPos (Z.of_nat i)); SRef (ByPos (Z.of_nat j))]))
  /\ (forall z s,
        (z < - Z.of_nat (length ke - 1) \/ Z.of_nat (length ke - 1) <= z)%Z ->
        exists e, __getitem__ pk (KTuple [SRef (ByPos z); s]) = Raise e
                  /\ exn_cls e = KeyError)
  /\ (forall z i,
        (z < - Z.of_nat (length mue - 1) \/ Z.of_nat (length mue - 1) <= z)%Z ->
        exists e, __getitem__ pk (KTuple [SRef (ByPos i); SRef (ByPos z)]) = Raise e
                  /\ exn_cls e = KeyError).
Proof.
  intros Hinit _.
  destruct (init_nonempty _ _ _ _ _ _ Hinit) as (_ & _ & Hdat).
  destruct (init_inv_mask _ _ _ _ _ _ Hinit) as (mask & _ & Hmask & Hsh & ->).
  set (n := length ke - 1) in *. set (m := length mue - 1) in *.
  assert (Hbody : forall k0 k1,
             __getitem__
               (mkPkmu (map fst dat) ke mue (mkRec dat mask)
                  (mkIndex
                     (mk2 n m (flat_map (fun c => repeat c m) (centers ke)))
                     (mk2 n m (concat (repeat (centers mue) n))))
                  fim (map fst kw) kw)
               (KTuple [SRef (ByPos k0); SRef (ByPos k1)])
             = try_except (mrec_getitem2 (mkRec dat mask) (IInt k0) (IInt k1))
                 (fun e => raise KeyError
                             (Txt "Key not understood in __getitem__: " :: exn_msg e)))
    by reflexivity.
  split; [|split; [|split]].
  - intros i j Hi Hj. rewrite Hbody.
    rewrite (mrec_getitem2_items (mkRec dat mask) n m (IInt (Z.of_nat i))
               (IInt (Z.of_nat j)) (fun A x a => VScalar (get2 x a i j)));
      auto.
    intros A x a Hn Hm. unfold getitem2.
    rewrite Hn, Hm, !norm_index_nat by auto. reflexivity.
  - intros i j Hi Hj. rewrite !Hbody. f_equal.
    unfold mrec_getitem2. cbn [fields mrec_mask].
    apply has_shape_inv in Hmask as (Hn & Hm & _).
    f_equal.
    + apply mapM_ext_in. intros nc Hin. rewrite Forall_forall in Hsh.
      apply Hsh in Hin. apply has_shape_inv in Hin as (Hn' & Hm' & _).
      unfold getitem2. rewrite Hn', Hm'. fold n m.
      now rewrite !norm_index_wrap, !norm_index_nat by auto.
    + unfold getitem2. rewrite Hn, Hm.
      now rewrite !norm_index_wrap, !norm_index_nat by auto.
  - intros z s Hz.
    destruct (mrec_getitem2_raises (mkRec dat mask) (IInt z)) with
      (k1 := match resolve_subkey
                     (mkPkmu (map fst dat) ke mue (mkRec dat mask)
                        (mkIndex
                           (mk2 n m (flat_map (fun c => repeat c m) (centers ke)))
                           (mk2 n m (concat (repeat (centers mue) n))))
                        fim (map fst kw) kw) 1 s with
                 | Ok k1 => k1
                 | Raise _ => IInt 0
                 end) as (e & He); auto.
    { intros nc Hin. rewrite Forall_forall in Hsh. apply Hsh in Hin.
      apply has_shape_inv in Hin as (Hn' & _).
      now apply getitem2_bad_first with (n := n). }
    match goal with
    | |- context [__getitem__ ?p ?k] =>
        assert (Hb : exists e0, getitem_body p k = Raise e0)
    end.
    { unfold getitem_body. cbn [length Nat.eqb negb resolve_from resolve_subkey
                               resolve bind].
      destruct (resolve_subkey _ 1 s) as [k1|e1]; cbn [bind]; eauto. }
    destruct Hb as (e0 & Hb). eapply getitem_wraps; eauto.
  - intros z i Hz.
    destruct (mrec_getitem2_raises (mkRec dat mask) (IInt i) (IInt z))
      as (e & He); auto.
    { intros nc Hin. rewrite Forall_forall in Hsh. apply Hsh in Hin.
      apply has_shape_inv in Hin as (_ & Hm' & _).
      now apply getitem2_bad_second with (m := m). }
    rewrite Hbody, He. simpl. eexists. split; reflexivity.
Qed.

Lemma X6_getitem_positions_witness :
  exists pk,
    Examples2.pk5 false = Ok pk
    /\ __getitem__ pk (KTuple [SRef (ByPos 3); SRef (ByPos 1)])
       = Ok (mkView [("power"%string, VScalar 3%float)] (VScalar false))
    /\ __getitem__ pk (KTuple [SRef (ByPos (-1)); SRef (ByPos (-1))])
       = __getitem__ pk (KTuple [SRef (ByPos 3); SRef (ByPos 1)])
    /\ exists e, __getitem__ pk (KTuple [SRef (ByPos 4); SRef (ByPos 0)]) = Raise e
                 /\ exn_cls e = KeyError.
Proof.
  destruct (Examples2.pk5 false) as [pk|e] eqn:E; [|vm_compute in E; discriminate].
  exists pk. split; [reflexivity|].
  destruct (X6_getitem_positions float binary64 Examples2.kedges5 Examples2.muedges5
              Examples2.data5 false [] pk E) as (H1 & H2 & H3 & _).
  { plain_by_cases. }
  split; [|split].
  - etransitivity;
      [exact (H1 3 1 ltac:(simpl; lia) ltac:(simpl; lia))|].
    vm_compute in E. injection E as <-. reflexivity.
  - exact (H2 3 1 ltac:(simpl; lia) ltac:(simpl; lia)).
  - apply H3. simpl. lia.
Defined.



(** ** The nearest bin center *)



(** ** What [rebin] returns *)

Section WeightedMean.
Local Open Scope R_scope.

Lemma Rsum_select {A B} (f : A * B -> R) inds (x : list A) (W : list B) :
  length inds = length x -> length x = length W ->
  Rsum (map f (combine (select inds x) (select inds W)))
  = Rsum (map (fun t => only (fst t) (f (snd t))) (combine inds (combine x W))).
Proof.
  revert x W; induction inds as [|b inds IH]; intros [|a x] [|v W] H1 H2;
    simpl in *; try lia; auto.
  destruct b; simpl; rewrite <- IH by lia; simpl; lra.
Qed.

Lemma select_zipwith {A B C} (f : A -> B -> C) inds (x : list A) (y : list B) :
  zipwith f (select inds x) (select inds y) = select inds (zipwith f x y).
Proof.
  revert x y; induction inds as [|b inds IH]; intros [|a x] [|v y]; simpl; auto.
  - destruct b; auto. destruct (select inds x); auto.
  - destruct b; simpl; now rewrite IH.
Qed.

Lemma select_lengths {A B} inds (x : list A) (W : list B) :
  length inds = length x -> length x = length W ->
  length (select inds x) = length (select inds W).
Proof.
  revert x W; induction inds as [|b inds IH]; intros [|a x] [|v W] H1 H2;
    simpl in *; try lia; auto.
  destruct b; simpl; rewrite (IH x W) by lia; auto.
Qed.

Lemma bincount_selected inds (x : list nat) (W : list R) M B :
  length inds = length x -> length x = length W ->
  Forall (fun i => (i < M)%nat) x ->
  nth B (bincount (select inds x) (select inds W) M) 0
  = sum_upto (length x) (fun p =>
      only (nth p inds false && (nth p x 0%nat =? B)%nat) (nth p W 0)).
Proof.
  intros H1 H2 Hx.
  pose proof (select_lengths inds x W H1 H2) as Hsl.
  transitivity (Rsum (map (fun xw : nat * R => only (fst xw =? B)%nat (snd xw))
                          (combine (select inds x) (select inds W)))).
  - rewrite bincount_real by (auto; now apply select_Forall).
    rewrite (Rsum_combine_nth _ (select inds x) (select inds W) 0%nat 0) by auto.
    reflexivity.
  - rewrite Rsum_select by auto.
    rewrite (Rsum_combine_nth _ inds (combine x W) false (0%nat, 0))
      by (rewrite length_combine; lia).
    rewrite H1. apply sum_upto_ext. intros p Hp. cbn [fst snd].
    rewrite combine_nth by auto. cbn [fst snd].
    destruct (nth p inds false), (nth p x 0%nat =? B)%nat; reflexivity.
Qed.

End WeightedMean.

Lemma eqb_pair a b a' b' N :
  b < N -> b' < N ->
  (a * N + b =? a' * N + b') = (a =? a') && (b =? b').
Proof.
  intros Hb Hb'.
  destruct (Nat.eqb_spec a a') as [->|Ha]; simpl.
  - destruct (Nat.eqb_spec b b') as [->|Hne].
    + apply Nat.eqb_refl.
    + apply Nat.eqb_neq. lia.
  - apply Nat.eqb_neq. nia.
Qed.

Lemma Forall2_map_r {A B} (R : A -> B -> Prop) (g : A -> B) l :
  (forall x, In x l -> R x (g x)) -> Forall2 R l (map g l).
Proof.
  induction l as [|a l IH]; intros H; simpl; constructor.
  - apply H. now left.
  - apply IH. intros; apply H; now right.
Qed.

(** X10. Over the real numbers [rebin] returns weighted means: on index
    arrays, mask, weights and columns of one shape and non-decreasing
    edges it returns, for every column and under its name, an array with
    one cell per new bin, which holds the sum of value times weight over
    the unmasked cells whose centers fall in that bin, divided by the sum
    of their weights. *)
Theorem X10_rebin_weighted_mean
    (index : array2 R * array2 R) (edges : list R * list R)
    (d : mrecords R) (w : array2 R) n m :
  has_shape (fst index) (n, m) = true -> has_shape (snd index) (n, m) = true ->
  has_shape (mrec_mask d) (n, m) = true -> has_shape w (n, m) = true ->
  Forall (fun nc : string * array2 R => has_shape (snd nc) (n, m) = true) (fields d) ->
  adjacent fleb (fst edges) = true -> adjacent fleb (snd edges) = true ->
  exists out,
    rebin index edges d w = Ok out
    /\ Forall2
         (fun nc oc : string * array2 R =>
            fst oc = fst nc
            /\ has_shape (snd oc)
                 (length (fst edges) - 1, length (snd edges) - 1) = true
            /\ forall r c,
                 r < length (fst edges) - 1 -> c < length (snd edges) - 1 ->
                 get2 0%R (snd oc) r c
                 = (bin_total index edges (mrec_mask d) r c
                      (fun p => nth p (flat (snd nc)) 0 * nth p (flat w) 0)
                    / bin_total index edges (mrec_mask d) r c
                        (fun p => nth p (flat w) 0))%R)
         (fields d) out.
Proof.
  intros Hik Him Hmask Hw Hcols Hek Hemu.
  destruct index as [ik im]; destruct edges as [ek emu]; cbn [fst snd] in *.
  pose proof (has_shape_inv _ _ _ Hik) as (_ & _ & Wik).
  pose proof (has_shape_inv _ _ _ Him) as (Rim & Cim & Wim).
  pose proof (has_shape_inv _ _ _ Hmask) as (Rm & Cm & Wm).
  pose proof (has_shape_inv _ _ _ Hw) as (Rw & Cw & Ww).
  apply has_shape_inv in Hik as (Rik & Cik & _).
  unfold wf2 in *. rewrite ?Rik, ?Cik, ?Rim, ?Cim, ?Rm, ?Cm, ?Rw, ?Cw in *.
  destruct (@rebin_returns R exact_real (ik, im) (ek, emu) d w) as (Hbound & Hret);
    auto.
  { unfold mrec_shape, shape2, shape_eqb. simpl.
    now rewrite Rm, Cm, Rw, Cw, !Nat.eqb_refl. }
  cbv zeta in Hbound, Hret. cbn [fst snd] in Hbound, Hret.
  eexists. split; [exact Hret|].
  apply Forall2_map_r. intros nc Hin. cbn [fst snd].
  rewrite Forall_forall in Hcols. specialize (Hcols nc Hin).
  apply has_shape_inv in Hcols as (Rc & Cc & Wc). unfold wf2 in Wc.
  rewrite Rc, Cc in Wc.
  split; [reflexivity|]. split.
  { replace (length ek - 1) with (length ek + 1 - 2) by lia.
    replace (length emu - 1) with (length emu + 1 - 2) by lia.
    now apply rebin_field_has_shape. }
  intros r c Hr Hc.
  set (mi := zipwith (fun a b => a * (length emu + 1) + b)
               (map (digit ek) (flat ik)) (map (digit emu) (flat im))) in *.
  assert (Hmi : length mi = n * m).
  { unfold mi. rewrite zipwith_length, !length_map. lia. }
  rewrite (@rebin_field_get R exact_real mi (length ek + 1, length emu + 1)
             (mrec_mask d) w (snd nc) r c 0%R Hbound)
    by (cbn [fst snd]; lia).
  cbv zeta. cbn [fst snd].
  rewrite select_zipwith.
  assert (Hinds : length (map negb (flat (mrec_mask d))) = length mi)
    by (rewrite length_map; lia).
  assert (Hz : length (zipwith fmul (flat (snd nc)) (flat w)) = n * m)
    by (rewrite zipwith_length; lia).
  change (@fzero R exact_real) with 0%R.
  change (@fdiv R exact_real) with Rdiv.
  rewrite !bincount_selected by (auto; lia).
  unfold bin_total. cbn [fst snd]. rewrite Hmi, Wm.
  assert (Hcond : forall p, p < n * m ->
             nth p (map negb (flat (mrec_mask d))) false
             && (nth p mi 0 =? S r * (length emu + 1) + S c)
             = negb (nth p (flat (mrec_mask d)) true)
               && (digit ek (nth p (flat ik) 0%R) =? S r)
               && (digit emu (nth p (flat im) 0%R) =? S c)).
  { intros p Hp. rewrite map_nth_in with (d := true) by lia.
    unfold mi.
    rewrite zipwith_nth with (da := 0) (db := 0) by (rewrite length_map; lia).
    rewrite !map_nth_in with (d := 0%R) by lia.
    rewrite eqb_pair.
    - now rewrite andb_assoc.
    - pose proof (count_le (fun e => fleb e (nth p (flat im) 0%R)) emu).
      unfold digit. lia.
    - lia. }
  f_equal.
  - apply sum_upto_ext. intros p Hp. rewrite Hcond by auto. f_equal.
    now rewrite zipwith_nth with (da := 0%R) (db := 0%R) by lia.
  - apply sum_upto_ext. intros p Hp. now rewrite Hcond by auto.
Qed.

Lemma X10_rebin_weighted_mean_witness :
  exists out,
    rebin (mk2 2 1 [0.5; 1.5], mk2 2 1 [0.5; 0.5])%R ([0; 2], [0; 1])%R
          (mkRec [("power"%string, mk2 2 1 [7; 3]%R)] (mk2 2 1 [true; false]))
          (mk2 2 1 [1; 1]%R)
    = Ok out
    /\ Forall2
         (fun nc oc : string * array2 R =>
            fst oc = fst nc
            /\ has_shape (snd oc) (1, 1) = true
            /\ forall r c,
                 r < 1 -> c < 1 ->
                 get2 0%R (snd oc) r c
                 = (bin_total (mk2 2 1 [0.5; 1.5], mk2 2 1 [0.5; 0.5])%R
                      ([0; 2], [0; 1])%R (mk2 2 1 [true; false]) r c
                      (fun p => nth p (flat (snd nc)) 0 * nth p [1; 1]%R 0)
                    / bin_total (mk2 2 1 [0.5; 1.5], mk2 2 1 [0.5; 0.5])%R
                        ([0; 2], [0; 1])%R (mk2 2 1 [true; false]) r c
                        (fun p => nth p [1; 1]%R 0))%R)
         [("power"%string, mk2 2 1 [7; 3]%R)] out.
Proof.
  apply (X10_rebin_weighted_mean
           (mk2 2 1 [0.5; 1.5], mk2 2 1 [0.5; 0.5])%R ([0; 2], [0; 1])%R
           (mkRec [("power"%string, mk2 2 1 [7; 3]%R)] (mk2 2 1 [true; false]))
           (mk2 2 1 [1; 1]%R) 2 1); try reflexivity.
  - repeat constructor.
  - simpl. unfold fleb; simpl. destruct (Rle_dec 0 2); [reflexivity|lra].
  - simpl. unfold fleb; simpl. destruct (Rle_dec 0 1); [reflexivity|lra].
Defined.

(** ** [RemoveDC] and [NormalizeDC] *)

Section RemoveDCMore.
Context {F : Type} {NF : Numeric F}.

Lemma set_block_twice {A} start len (v : A) l :
  set_block start len v (set_block start len v l) = set_block start len v l.
Proof.
  apply nth_ext with (d := v) (d' := v).
  - unfold set_block. now rewrite !indexed_map_length.
  - intros p Hp. unfold set_block in *. rewrite !indexed_map_length in Hp.
    rewrite indexed_map_nth with (d := v) by now rewrite indexed_map_length.
    rewrite indexed_map_nth with (d := v) by auto.
    cbn [fst snd]. now destruct ((start <=? p) && (p <? start + len)).
Qed.

End RemoveDCMore.

(** X11. [RemoveDC] is idempotent: applied to its own result it returns
    that result, for any mesh and field it returns on; it keeps the shape
    and the number of entries of the field. *)
Theorem X11_RemoveDC_idempotent (F : Type) (NF : Numeric F)
    (pm : ParticleMesh F) (field once : ndarray (@Transfer.complex F)) :
  Transfer.RemoveDC pm field = Ok once ->
  Transfer.RemoveDC pm once = Ok once
  /\ shape once = shape field
  /\ length (elems once) = length (elems field).
Proof.
  unfold Transfer.RemoveDC. destruct (Transfer.zero_index (pm_w pm) []) as [ind|].
  - unfold setitem.
    destruct (locate (shape field) ind 0) as [[start len]|e] eqn:E;
      cbn [bind]; [|discriminate].
    intros [= <-]. cbn [shape elems fst snd]. rewrite E. cbn [bind fst snd].
    rewrite set_block_twice. repeat split.
    unfold set_block. apply indexed_map_length.
  - intros [= <-]. auto.
Qed.

Lemma X11_RemoveDC_idempotent_witness :
  Transfer.RemoveDC Examples4.pm Examples4.field_without_dc
  = Ok Examples4.field_without_dc
  /\ shape Examples4.field_without_dc = shape Examples4.field
  /\ length (elems Examples4.field_without_dc) = length (elems Examples4.field).
Proof.
  apply (X11_RemoveDC_idempotent float binary64 Examples4.pm Examples4.field).
  vm_compute. reflexivity.
Defined.

Section NormalizeFacts.
Context {F : Type} {NF : Numeric F}.
Variable cabs : @Transfer.complex F -> F.
Variable allreduce : ndarray F -> ndarray F.

Lemma getitem_nd_entry {A} (a : ndarray A) ind d :
  wf_nd a ->
  Forall2 (fun i n => i < n) ind (shape a) ->
  Transfer.getitem_nd (F := F) a ind = Ok (mkNd [] [nth (ravel (shape a) ind) (elems a) d]).
Proof.
  intros Hwf Hlt. unfold Transfer.getitem_nd.
  rewrite (locate_ravel 0 Hlt). cbn [bind fst snd Nat.mul Nat.add].
  pose proof (ravel_lt Hlt) as Hr. rewrite <- Hwf in Hr.
  f_equal. f_equal.
  - rewrite (Forall2_length Hlt). apply skipn_all.
  - revert Hr. generalize (ravel (shape a) ind) as r. generalize (elems a) as l.
    induction l as [|x l IH]; intros [|r] Hr; simpl in *; try lia; auto.
    apply IH. lia.
Qed.

(** Dividing in place by a single number. *)
Lemma idiv_scalar (field : ndarray (@Transfer.complex F)) v :
  exists out,
    Transfer.idiv field (mkNd [] [v]) = Ok out
    /\ shape out = shape field
    /\ length (elems out) = length (elems field)
    /\ forall p, p < length (elems field) ->
         nth p (elems out) Transfer.czero
         = Transfer.cdiv (nth p (elems field) Transfer.czero) v.
Proof.
  unfold Transfer.idiv. cbn [shape elems].
  eexists. split; [reflexivity|]. cbn [shape elems]. repeat split.
  - apply indexed_map_length.
  - intros p Hp. rewrite indexed_map_nth with (d := Transfer.czero) by auto.
    reflexivity.
Qed.

End NormalizeFacts.

Section NormalizeFacts2.
Context {F : Type} {NF : Numeric F}.
Variable cabs : @Transfer.complex F -> F.
Variable allreduce : ndarray F -> ndarray F.

Lemma zero_places_lt (w : list (ndarray F)) ind sf :
  Forall2 (fun i wi => find_index is_zero (elems wi) = Some i) ind w ->
  Forall2 (fun (wi : ndarray F) n => length (elems wi) = n) w sf ->
  Forall2 (fun i n => i < n) ind sf.
Proof.
  intros Hind; revert sf.
  induction Hind as [|i wi ind w Hi H IH]; intros sf Hsh;
    inversion Hsh; subst; constructor; auto.
  now apply (find_index_spec _ _ fzero) in Hi.
Qed.

Lemma NormalizeDC_spec (pm : ParticleMesh F) (field : ndarray (@Transfer.complex F)) :
  wf_nd field ->
  Forall2 (fun wi n => length (elems wi) = n) (pm_w pm) (shape field) ->
  Forall (fun wi => forall i, find_index is_zero (elems wi) = Some i ->
                              coord (shape wi) 0 i = i) (pm_w pm) ->
  (Forall (fun wi => has_zero (elems wi) = true) (pm_w pm) ->
   exists ind,
     Forall2 (fun i wi => find_index is_zero (elems wi) = Some i) ind (pm_w pm)
     /\ ravel (shape field) ind < length (elems field)
     /\ forall v,
          allreduce (mkNd [] [cabs (nth (ravel (shape field) ind) (elems field)
                                        Transfer.czero)])
          = mkNd [] [v] ->
          exists out, Transfer.NormalizeDC cabs allreduce pm field = Ok out
                      /\ divided_by field out v)
  /\ (Exists (fun wi => has_zero (elems wi) = false) (pm_w pm) ->
      forall v, allreduce (mkNd [] [fzero]) = mkNd [] [v] ->
      exists out, Transfer.NormalizeDC cabs allreduce pm field = Ok out
                  /\ divided_by field out v).
Proof.
  intros Hwf Hsh Hpos. split.
  - intros Hall. destruct (zero_index_found [] Hpos Hall) as (ind & Hz & Hind).
    simpl in Hz. exists ind. split; auto.
    pose proof (zero_places_lt _ _ _ Hind Hsh) as Hlt.
    split. { rewrite Hwf. now apply ravel_lt. }
    intros v Hv. unfold Transfer.NormalizeDC. rewrite Hz.
    rewrite (getitem_nd_entry field ind Transfer.czero Hwf Hlt).
    cbn [bind shape elems map]. rewrite Hv.
    destruct (idiv_scalar field v) as (out & Ho & H). exists out. split; auto.
  - intros Hex v Hv. unfold Transfer.NormalizeDC.
    rewrite zero_index_none by auto. cbn [bind]. rewrite Hv.
    destruct (idiv_scalar field v) as (out & Ho & H). exists out. split; auto.
Qed.

End NormalizeFacts2.

(** X12. Over the real numbers [NormalizeDC] divides every entry of the
    field by one number, what [allreduce] makes of the local value: the
    modulus of the zero mode (the entry at the place of the first zero of
    each frequency array) on a process whose frequency arrays all hold a
    zero, and [0.] on one where some array holds none.  For flat frequency
    arrays and for arrays lying along their axes with the zero first on
    the later ones. *)
Theorem X12_NormalizeDC
    (allreduce : ndarray R -> ndarray R)
    (pm : ParticleMesh R) (field : ndarray (@Transfer.complex R)) :
  wf_nd field ->
  flat_per_axis (shape field) (pm_w pm)
  \/ (per_axis (shape field) (pm_w pm) /\ zero_leads (pm_w pm)) ->
  (Forall (fun wi => has_zero (elems wi) = true) (pm_w pm) ->
   exists ind,
     Forall2 (fun i wi => find_index is_zero (elems wi) = Some i) ind (pm_w pm)
     /\ ravel (shape field) ind < length (elems field)
     /\ forall v : R,
          allreduce (mkNd [] [modulus (nth (ravel (shape field) ind) (elems field)
                                           Transfer.czero)])
          = mkNd [] [v] ->
          exists out, Transfer.NormalizeDC modulus allreduce pm field = Ok out
                      /\ divided_by field out v)
  /\ (Exists (fun wi => has_zero (elems wi) = false) (pm_w pm) ->
      forall v : R, allreduce (mkNd [] [0%R]) = mkNd [] [v] ->
      exists out, Transfer.NormalizeDC modulus allreduce pm field = Ok out
                  /\ divided_by field out v).
Proof.
  intros Hwf Hlay.
  assert (Hlens : Forall2 (fun (wi : ndarray R) n => length (elems wi) = n)
                    (pm_w pm) (shape field)).
  { destruct Hlay as [Hflat|(Hal & _)]; [|now apply per_axis_lengths].
    clear - Hflat. induction Hflat as [|n wi sf w (_ & Hl) H IH];
      constructor; auto. }
  assert (Hpos : Forall (fun wi : ndarray R =>
                           forall i, find_index is_zero (elems wi) = Some i ->
                                     coord (shape wi) 0 i = i) (pm_w pm)).
  { destruct Hlay as [Hflat|(Hal & Hlead)].
    - now apply (flat_reads_position (sf := shape field)).
    - now apply (along_reads_position (sf := shape field)). }
  exact (NormalizeDC_spec modulus allreduce pm field Hwf Hlens Hpos).
Qed.

Lemma X12_NormalizeDC_witness :
  (exists ind out,
     Transfer.NormalizeDC modulus Examples9.allreduce_5 Examples9.pm Examples9.field
     = Ok out
     /\ divided_by Examples9.field out
          (modulus (nth (ravel (shape Examples9.field) ind)
                        (elems Examples9.field) Transfer.czero) + 5)%R)
  /\ (exists out,
        Transfer.NormalizeDC modulus Examples9.allreduce_5 Examples9.pm_elsewhere
          Examples9.field = Ok out
        /\ divided_by Examples9.field out (0 + 5)%R).
Proof.
  destruct (X12_NormalizeDC Examples9.allreduce_5 Examples9.pm Examples9.field
              eq_refl) as (Hzero & _).
  { left. repeat constructor. }
  destruct (X12_NormalizeDC Examples9.allreduce_5 Examples9.pm_elsewhere
              Examples9.field eq_refl) as (_ & Hnone).
  { left. repeat constructor. }
  split.
  - destruct Hzero as (ind & _ & _ & H).
    { repeat constructor. simpl. unfold is_zero. simpl.
      destruct (Req_dec_T 0 0) as [_|H]; [reflexivity|now elim H]. }
    destruct (H _ eq_refl) as (out & Ho & Hd). exists ind, out. auto.
  - apply Hnone; [|reflexivity].
    apply Exists_cons_hd. simpl. unfold is_zero. simpl.
    pose proof PI_RGT_0 as Hpi.
    destruct (Req_dec_T PI 0) as [H|_]; [lra|].
    destruct (Req_dec_T (2 * PI) 0) as [H|_]; [lra|reflexivity].
Defined.

Section NormalizeReal.
Local Open Scope R_scope.

Lemma modulus_real (c : @Transfer.complex R) :
  modulus c = sqrt ((fst c)² + (snd c)²).
Proof. reflexivity. Qed.

Lemma modulus_pos (c : @Transfer.complex R) :
  c <> Transfer.czero -> 0 < modulus c.
Proof.
  destruct c as [a b]. intros Hc. rewrite modulus_real. simpl.
  apply sqrt_lt_R0.
  destruct (Req_dec a 0) as [->|Ha].
  - destruct (Req_dec b 0) as [->|Hb]; [now elim Hc|].
    rewrite Rsqr_0, Rplus_0_l. now apply Rlt_0_sqr.
  - apply Rplus_lt_le_0_compat; [now apply Rlt_0_sqr|apply Rle_0_sqr].
Qed.

Lemma modulus_normalised (c : @Transfer.complex R) :
  c <> Transfer.czero -> modulus (Transfer.cdiv c (modulus c)) = 1.
Proof.
  intros Hc. pose proof (modulus_pos c Hc) as Hpos.
  destruct c as [a b]. rewrite modulus_real. unfold Transfer.cdiv. cbn [fst snd].
  change (@fdiv R exact_real) with Rdiv.
  set (m := modulus (a, b)) in *.
  assert (Hm : m * m = a² + b²).
  { unfold m. rewrite modulus_real. cbn [fst snd]. apply sqrt_sqrt.
    apply Rplus_le_le_0_compat; apply Rle_0_sqr. }
  replace ((a / m)² + (b / m)²) with 1; [apply sqrt_1|].
  unfold Rsqr in *. field_simplify_eq; lra.
Qed.

End NormalizeReal.

(** X13. On a single process and over the real numbers, [NormalizeDC]
    divides the field by the modulus of its zero mode, so that a zero mode
    that is not zero has modulus one afterwards. *)
Theorem X13_NormalizeDC_unit_zero_mode
    (pm : ParticleMesh R) (field : ndarray (@Transfer.complex R)) :
  wf_nd field ->
  flat_per_axis (shape field) (pm_w pm)
  \/ (per_axis (shape field) (pm_w pm) /\ zero_leads (pm_w pm)) ->
  Forall (fun wi => has_zero (elems wi) = true) (pm_w pm) ->
  exists ind out,
    Forall2 (fun i wi => find_index is_zero (elems wi) = Some i) ind (pm_w pm)
    /\ Transfer.NormalizeDC modulus (fun v => v) pm field = Ok out
    /\ divided_by field out
         (modulus (nth (ravel (shape field) ind) (elems field) Transfer.czero))
    /\ (nth (ravel (shape field) ind) (elems field) Transfer.czero <> Transfer.czero ->
        modulus (nth (ravel (shape field) ind) (elems out) Transfer.czero) = 1%R).
Proof.
  intros Hwf Hlay Hall.
  assert (Hlens : Forall2 (fun (wi : ndarray R) n => length (elems wi) = n)
                    (pm_w pm) (shape field)).
  { destruct Hlay as [Hflat|(Hal & _)]; [|now apply per_axis_lengths].
    clear - Hflat. induction Hflat as [|n wi sf w (_ & Hl) H IH];
      constructor; auto. }
  assert (Hpos : Forall (fun wi : ndarray R =>
                           forall i, find_index is_zero (elems wi) = Some i ->
                                     coord (shape wi) 0 i = i) (pm_w pm)).
  { destruct Hlay as [Hflat|(Hal & Hlead)].
    - now apply (flat_reads_position (sf := shape field)).
    - now apply (along_reads_position (sf := shape field)). }
  destruct (NormalizeDC_spec modulus (fun v => v) pm field Hwf Hlens Hpos)
    as (H & _).
  destruct (H Hall) as (ind & Hind & Hlt & Hv).
  destruct (Hv _ eq_refl) as (out & Ho & Hd).
  exists ind, out. repeat split; auto; try apply Hd.
  intros Hne. destruct Hd as (_ & _ & Hn). rewrite Hn by auto.
  now apply modulus_normalised.
Qed.

Lemma X13_NormalizeDC_unit_zero_mode_witness :
  exists ind out,
    Forall2 (fun i wi => find_index is_zero (elems wi) = Some i) ind
            (pm_w Examples9.pm)
    /\ Transfer.NormalizeDC modulus (fun v => v) Examples9.pm Examples9.field = Ok out
    /\ divided_by Examples9.field out
         (modulus (nth (ravel (shape Examples9.field) ind) (elems Examples9.field)
                       Transfer.czero))
    /\ (nth (ravel (shape Examples9.field) ind) (elems Examples9.field) Transfer.czero
        <> Transfer.czero ->
        modulus (nth (ravel (shape Examples9.field) ind) (elems out) Transfer.czero)
        = 1%R).
Proof.
  apply (X13_NormalizeDC_unit_zero_mode Examples9.pm Examples9.field).
  - reflexivity.
  - left. repeat constructor.
  - repeat constructor. simpl. unfold is_zero. simpl.
    destruct (Req_dec_T 0 0) as [_|H]; [reflexivity|now elim H].
Defined.

(** ** The kernel of [AnisotropicCIC] *)

Section CicBounds.
Local Open Scope R_scope.

Lemma cic_kernel_bounds (wi : R) :
  sqrt (1 / 3) <= Transfer.cic_kernel sin wi <= 1.
Proof.
  rewrite cic_kernel_real.
  pose proof (SIN_bound (wi / 2)) as [Hlo Hhi].
  assert (H1 : (sin (wi / 2))² <= 1).
  { rewrite <- Rsqr_1. apply neg_pos_Rsqr_le; lra. }
  pose proof (Rle_0_sqr (sin (wi / 2))) as H0.
  split.
  - apply sqrt_le_1_alt. lra.
  - rewrite <- sqrt_1 at 2. apply sqrt_le_1_alt. lra.
Qed.

Lemma cic_factors_bounds sh d w p :
  Forall (fun t => sqrt (1 / 3) <= t <= 1) (cic_factors sin sh d w p).
Proof.
  assert (Hs : sqrt (1 / 3) <= 1).
  { rewrite <- sqrt_1 at 2. apply sqrt_le_1_alt. lra. }
  unfold cic_factors. apply Forall_forall. intros t Ht.
  apply in_map_iff in Ht as ([k wk] & <- & _). simpl.
  destruct (Nat.lt_ge_cases (coord sh (d + k) p)
              (length (map (Transfer.cic_kernel sin) (elems wk)))) as [Hlt|Hge].
  - rewrite nth_indep with (d' := Transfer.cic_kernel sin 0) by auto.
    rewrite map_nth. apply cic_kernel_bounds.
  - rewrite nth_overflow by auto. simpl. lra.
Qed.

Lemma Rprod_bounds s ts :
  0 < s <= 1 -> Forall (fun t => s <= t <= 1) ts ->
  s ^ length ts <= Rprod ts <= 1.
Proof.
  intros Hs. induction 1 as [|t ts Ht H IH]; simpl; [lra|].
  fold (Rprod ts).
  assert (0 < s ^ length ts) by (apply pow_lt; lra).
  split.
  - apply Rmult_le_compat; lra.
  - replace 1 with (1 * 1) by lra. apply Rmult_le_compat; lra.
Qed.

Lemma cic_factors_length sh d (w : list (ndarray R)) p :
  length (cic_factors sin sh d w p) = length w.
Proof.
  unfold cic_factors. rewrite length_map, length_combine, length_seq. lia.
Qed.

End CicBounds.

(** X14. Over the real numbers [AnisotropicCIC] divides every mode by a
    number between [(1/3)^(n/2)] and 1, [n] the rank of the field: it
    never divides by zero, and never makes the real or the imaginary part
    of a mode smaller in absolute value. *)
Theorem X14_AnisotropicCIC_amplifies
    (pm : ParticleMesh R) (field : ndarray (@Transfer.complex R)) :
  per_axis (shape field) (pm_w pm) ->
  exists out,
    Transfer.AnisotropicCIC sin pm field = Ok out
    /\ shape out = shape field
    /\ length (elems out) = length (elems field)
    /\ forall p, p < length (elems field) ->
         exists P : R,
           (sqrt (1 / 3) ^ length (shape field) <= P <= 1)%R
           /\ nth p (elems out) Transfer.czero
              = Transfer.cdiv (nth p (elems field) Transfer.czero) P
           /\ (Rabs (fst (nth p (elems field) Transfer.czero))
               <= Rabs (fst (nth p (elems out) Transfer.czero)))%R
           /\ (Rabs (snd (nth p (elems field) Transfer.czero))
               <= Rabs (snd (nth p (elems out) Transfer.czero)))%R.
Proof.
  intros Hs.
  destruct (AnisotropicCIC_spec sin pm field Hs) as (out & Ho & Hsh & Hl & Hn).
  exists out. repeat split; auto.
  intros p Hp. exists (Rprod (cic_factors sin (shape field) 0 (pm_w pm) p)).
  assert (Hs3 : (0 < sqrt (1 / 3) <= 1)%R).
  { split; [apply sqrt_lt_R0; lra|].
    rewrite <- sqrt_1 at 2. apply sqrt_le_1_alt. lra. }
  pose proof (Rprod_bounds _ _ Hs3 (cic_factors_bounds (shape field) 0 (pm_w pm) p))
    as HP.
  rewrite cic_factors_length in HP. destruct Hs as (Hlen & _). rewrite Hlen in HP.
  split; [exact HP|].
  rewrite Hn by auto. rewrite fold_cdiv_prod by apply cic_factors_pos.
  split; [reflexivity|].
  set (P := Rprod _) in *.
  assert (HP0 : (0 < P)%R).
  { eapply Rlt_le_trans; [|apply HP]. apply pow_lt. apply Hs3. }
  assert (Hgrow : forall x : R, (Rabs x <= Rabs (x / P))%R).
  { intros x. unfold Rdiv. rewrite Rabs_mult, (Rabs_pos_eq (/ P)).
    - pose proof (Rabs_pos x).
      assert (1 <= / P)%R.
      { rewrite <- Rinv_1 at 1. apply Rinv_le_contravar; lra. }
      nra.
    - left. now apply Rinv_0_lt_compat. }
  destruct (nth p (elems field) Transfer.czero) as [a b].
  unfold Transfer.cdiv. cbn [fst snd]. split; apply Hgrow.
Qed.

Lemma X14_AnisotropicCIC_amplifies_witness :
  exists out,
    Transfer.AnisotropicCIC sin Examples5.pm Examples5.field = Ok out
    /\ shape out = shape Examples5.field
    /\ length (elems out) = length (elems Examples5.field)
    /\ forall p, p < length (elems Examples5.field) ->
         exists P : R,
           (sqrt (1 / 3) ^ length (shape Examples5.field) <= P <= 1)%R
           /\ nth p (elems out) Transfer.czero
              = Transfer.cdiv (nth p (elems Examples5.field) Transfer.czero) P
           /\ (Rabs (fst (nth p (elems Examples5.field) Transfer.czero))
               <= Rabs (fst (nth p (elems out) Transfer.czero)))%R
           /\ (Rabs (snd (nth p (elems Examples5.field) Transfer.czero))
               <= Rabs (snd (nth p (elems out) Transfer.czero)))%R.
Proof.
  apply (X14_AnisotropicCIC_amplifies Examples5.pm Examples5.field).
  layout_by_cases.
Defined.

Section Commute.
Local Open Scope R_scope.

Lemma zero_places_unique (w : list (ndarray R)) ind ind' :
  Forall2 (fun i wi => find_index is_zero (elems wi) = Some i) ind w ->
  Forall2 (fun i wi => find_index is_zero (elems wi) = Some i) ind' w ->
  ind = ind'.
Proof.
  intros H; revert ind'. induction H as [|i wi ind w Hi H IH]; intros ind' H';
    inversion H'; subst; auto.
  f_equal; [congruence|auto].
Qed.

Lemma ndarray_ext {A} (a b : ndarray A) d :
  shape a = shape b -> length (elems a) = length (elems b) ->
  (forall p, (p < length (elems a))%nat -> nth p (elems a) d = nth p (elems b) d) ->
  a = b.
Proof.
  destruct a as [sa ea], b as [sb eb]. simpl. intros -> Hl Hn.
  f_equal. now apply nth_ext with (d := d) (d' := d).
Qed.

Lemma all_or_some_nonzero (w : list (ndarray R)) :
  Forall (fun wi => has_zero (elems wi) = true) w
  \/ Exists (fun wi => has_zero (elems wi) = false) w.
Proof.
  induction w as [|wi w [IH|IH]]; auto.
  destruct (has_zero (elems wi)) eqn:E; auto.
Qed.

End Commute.

(** X15. Over the real numbers [RemoveDC] and [AnisotropicCIC] commute:
    clearing the zero mode and then dividing by the kernel gives the same
    field as dividing first and clearing then; in particular the kernel
    leaves a cleared zero mode at zero. *)
Theorem X15_RemoveDC_AnisotropicCIC_commute
    (pm : ParticleMesh R) (field : ndarray (@Transfer.complex R)) :
  wf_nd field ->
  per_axis (shape field) (pm_w pm) -> zero_leads (pm_w pm) ->
  exists cleared filtered both,
    Transfer.RemoveDC pm field = Ok cleared
    /\ Transfer.AnisotropicCIC sin pm cleared = Ok both
    /\ Transfer.AnisotropicCIC sin pm field = Ok filtered
    /\ Transfer.RemoveDC pm filtered = Ok both.
Proof.
  intros Hwf Hal Hlead.
  pose proof (per_axis_lengths Hal) as Hlens.
  pose proof (along_reads_position Hal Hlead) as Hpos.
  destruct (RemoveDC_spec pm Hwf Hlens Hpos) as (Hz & Hn).
  destruct (AnisotropicCIC_spec sin pm field Hal)
    as (filtered & Hf & Hfs & Hfl & Hfn).
  assert (Hwf' : wf_nd filtered).
  { unfold wf_nd in *. congruence. }
  assert (Hal' : per_axis (shape filtered) (pm_w pm)) by now rewrite Hfs.
  assert (Hlens' : Forall2 (fun (wi : ndarray R) n => length (elems wi) = n)
                     (pm_w pm) (shape filtered)) by now rewrite Hfs.
  destruct (RemoveDC_spec pm Hwf' Hlens' Hpos) as (Hz' & Hn').
  destruct (all_or_some_nonzero (pm_w pm)) as [Hall|Hex].
  - destruct (Hz Hall) as (ind & cleared & Hc & Hind & Hcs & Hcl & Hlt & _ & Hc0 & Hcn).
    destruct (Hz' Hall)
      as (ind' & both & Hb & Hind' & Hbs & Hbl & _ & _ & Hb0 & Hbn).
    rewrite <- (zero_places_unique _ _ _ Hind Hind') in *. clear Hind'.
    rewrite Hfs in *.
    assert (Hal2 : per_axis (shape cleared) (pm_w pm)) by now rewrite Hcs.
    destruct (AnisotropicCIC_spec sin pm cleared Hal2)
      as (both' & Hb' & Hbs' & Hbl' & Hbn').
    exists cleared, filtered, both. repeat split; auto.
    rewrite Hb'. f_equal.
    apply ndarray_ext with (d := Transfer.czero); try congruence.
    intros p Hp. rewrite Hbn' by congruence. rewrite Hcs.
    rewrite fold_cdiv_prod by apply cic_factors_pos.
    destruct (Nat.eq_dec p (ravel (shape field) ind)) as [->|Hne].
    + rewrite Hc0, Hb0. unfold Transfer.cdiv, Transfer.czero. simpl.
      f_equal; unfold Rdiv; apply Rmult_0_l.
    + rewrite Hcn, Hbn by auto. rewrite Hfn by congruence.
      now rewrite fold_cdiv_prod by apply cic_factors_pos.
  - exists field, filtered, filtered. rewrite (Hn Hex), (Hn' Hex). auto.
Qed.

Lemma X15_RemoveDC_AnisotropicCIC_commute_witness :
  exists cleared filtered both,
    Transfer.RemoveDC Examples9.pm Examples9.field = Ok cleared
    /\ Transfer.AnisotropicCIC sin Examples9.pm cleared = Ok both
    /\ Transfer.AnisotropicCIC sin Examples9.pm Examples9.field = Ok filtered
    /\ Transfer.RemoveDC Examples9.pm filtered = Ok both.
Proof.
  apply (X15_RemoveDC_AnisotropicCIC_commute Examples9.pm Examples9.field).
  - reflexivity.
  - layout_by_cases.
  - intros [|d] wi Hd Hw; [lia|]. destruct d; discriminate.
Defined.

(** ** The driver on every rank *)

Section DriverFacts2.
Context {F : Type} {NF : Numeric F}.

Lemma main_other_ranks rank (ns : @Power.namespace F) :
  rank <> 0 ->
  snd (Power.main rank ns []) = snd (Power.main 0 ns [])
  /\ fst (Power.main rank ns [])
     = filter (fun e => negb (root_only e)) (fst (Power.main 0 ns [])).
Proof.
  intros Hr. apply Nat.eqb_neq in Hr.
  unfold Power.main, Power.print_rank0, Power.mbind, Power.paint, Power.emit,
    Power.ret, Power.throw, raise.
  rewrite Hr. simpl.
  destruct (Power.inputs ns) as [|in0 [|in1 rest]]; simpl; auto.
  - destruct (Power.multipoles ns); simpl; auto.
  - destruct (Power.source_neqb in0 in1); simpl.
    + destruct (Power.all_eq (Power.BoxSize in0) (Power.BoxSize in1)); simpl; auto.
      destruct (Power.multipoles ns); simpl; auto.
    + destruct (Power.multipoles ns); simpl; auto.
Qed.

End DriverFacts2.

(** X16. Every rank goes through [main] alike: a rank other than 0 ends
    as rank 0 does (returning, or raising the same error), and what it
    does is what rank 0 does without the printing and the writing, in the
    same order; it prints nothing and writes nothing. *)
Theorem X16_main_same_on_every_rank (F : Type) (NF : Numeric F)
    (rank : nat) (ns : @Power.namespace F) :
  rank <> 0 ->
  snd (Power.main rank ns []) = snd (Power.main 0 ns [])
  /\ fst (Power.main rank ns [])
     = filter (fun e => negb (root_only e)) (fst (Power.main 0 ns []))
  /\ forallb (fun e => negb (root_only e)) (fst (Power.main rank ns [])) = true.
Proof.
  intros Hr. destruct (main_other_ranks rank ns Hr) as (H1 & H2).
  repeat split; auto. rewrite H2. apply forallb_forall.
  intros e He. now apply filter_In in He.
Qed.

Lemma X16_main_same_on_every_rank_witness :
  snd (Power.main 3 Examples6.ns []) = snd (Power.main 0 Examples6.ns [])
  /\ fst (Power.main 3 Examples6.ns [])
     = filter (fun e => negb (root_only e)) (fst (Power.main 0 Examples6.ns []))
  /\ forallb (fun e => negb (root_only e)) (fst (Power.main 3 Examples6.ns [])) = true.
Proof.
  apply (X16_main_same_on_every_rank float binary64 3 Examples6.ns). lia.
Defined.

(** X17. What [main] writes: only on rank 0, only when the run ends
    without error, once, and last.  It writes under the output name given,
    in mode ['1d'] for multipoles and the mode given otherwise, the total
    of the first input as [N1]; for the cross power of two distinct inputs
    the total of the second as [N2] and the shot noise 0, whatever
    [remove_shotnoise] is; otherwise [N2 = N1] and the shot noise is the
    volume of the box over [1.0*N1] when [remove_shotnoise] is set, else 0.
    A run on rank 0 that ends without error has written. *)
Theorem X17_main_written (F : Type) (NF : Numeric F)
    (rank : nat) (ns : @Power.namespace F) tr r :
  boxes_3d ns ->
  Power.main rank ns [] = (tr, r) ->
  (forall m o n1 n2 s,
      In (Power.EWrite m o n1 n2 s) tr ->
      rank = 0 /\ r = Ok tt /\ written ns m o n1 n2 s
      /\ exists tr', tr = tr' ++ [Power.EWrite m o n1 n2 s]
                     /\ forall m' o' a b c, ~ In (Power.EWrite m' o' a b c) tr')
  /\ (rank = 0 -> r = Ok tt ->
      exists m o n1 n2 s, In (Power.EWrite m o n1 n2 s) tr).
Proof.
  intros _.
  unfold written, cross_power.
  unfold Power.main, Power.print_rank0, Power.mbind, Power.paint, Power.emit,
    Power.ret, Power.throw, raise.
  destruct (rank =? 0) eqn:Er;
    [apply Nat.eqb_eq in Er; subst rank|apply Nat.eqb_neq in Er];
    simpl;
    (destruct (Power.inputs ns) as [|in0 [|in1 rest]]; simpl;
     [|destruct (Power.multipoles ns); simpl
      |destruct (Power.source_neqb in0 in1); simpl;
       [destruct (Power.all_eq (Power.BoxSize in0) (Power.BoxSize in1)); simpl;
        [destruct (Power.multipoles ns); simpl|]
       |destruct (Power.multipoles ns); simpl]]);
    intros [= <- <-]; split;
    try (intros; congruence);
    try (intros _ _; do 5 eexists; simpl; tauto);
    intros m o n1 n2 s Hin; simpl in Hin;
    repeat (destruct Hin as [Hin|Hin]; try discriminate);
    try contradiction;
    injection Hin as <- <- <- <- <-;
    (split; [reflexivity|]); (split; [reflexivity|]); split.
  all: try (match goal with
            | |- exists tr', ?l = _ /\ _ => exists (removelast l)
            end;
            split; [reflexivity|];
            simpl; intros m' o' a b c Hin;
            repeat (destruct Hin as [Hin|Hin]; try discriminate); contradiction).
  all: (split; [reflexivity|]); (split; [reflexivity|]);
    do 2 eexists; (split; [reflexivity|]); (split; [reflexivity|]);
    destruct (Power.remove_shotnoise ns); simpl; eauto.
Qed.

Lemma X17_main_written_witness :
  (forall m o n1 n2 s,
      In (Power.EWrite m o n1 n2 s) (fst (Power.main 0 Examples10.ns [])) ->
      0 = 0 /\ snd (Power.main 0 Examples10.ns []) = Ok tt
      /\ written Examples10.ns m o n1 n2 s
      /\ exists tr', fst (Power.main 0 Examples10.ns [])
                     = tr' ++ [Power.EWrite m o n1 n2 s]
                     /\ forall m' o' a b c, ~ In (Power.EWrite m' o' a b c) tr')
  /\ (0 = 0 -> snd (Power.main 0 Examples10.ns []) = Ok tt ->
      exists m o n1 n2 s,
        In (Power.EWrite m o n1 n2 s) (fst (Power.main 0 Examples10.ns []))).
Proof.
  apply (X17_main_written float binary64 0 Examples10.ns).
  - repeat constructor.
  - apply surjective_pairing.
Defined.

(** ** [IsotropicCIC] *)

Section BroadcastFacts.

Lemma Forall2_pointwise {A B} (P : A -> B -> Prop) l1 l2 d1 d2 :
  length l1 = length l2 ->
  (forall i, i < length l1 -> P (nth i l1 d1) (nth i l2 d2)) ->
  Forall2 P l1 l2.
Proof.
  revert l2; induction l1 as [|x l1 IH]; intros [|y l2] Hl H;
    simpl in Hl; try discriminate; constructor.
  - apply (H 0). simpl. lia.
  - apply IH; [lia|]. intros i Hi. apply (H (S i)). simpl. lia.
Qed.

Lemma size_pos_dims sh d : 0 < size_of sh -> 0 < nth d sh 1.
Proof.
  revert d; induction sh as [|n sh IH]; intros d H.
  - destruct d; simpl; lia.
  - rewrite size_of_cons in H. destruct d as [|d]; simpl.
    + destruct n; simpl in *; lia.
    + apply IH. destruct (size_of sh); lia.
Qed.

Lemma coord_lt sh d p : 0 < nth d sh 1 -> coord sh d p < nth d sh 1.
Proof. intros H. unfold coord. apply Nat.mod_upper_bound. lia. Qed.

Lemma broadcast_pos_same_rank t s p :
  length s = length t ->
  broadcast_pos t s p
  = ravel s (map (fun j => if nth j s 1 =? 1 then 0 else coord t j p)
                 (seq 0 (length s))).
Proof.
  intros Hl. unfold broadcast_pos. rewrite Hl, Nat.sub_diag. reflexivity.
Qed.

Lemma broadcast_index_ok t s p :
  fits s t -> p < size_of t ->
  Forall2 (fun i n => i < n)
          (map (fun j => if nth j s 1 =? 1 then 0 else coord t j p)
               (seq 0 (length s))) s.
Proof.
  intros (Hl & Hf) Hp.
  apply Forall2_pointwise with (d1 := 0) (d2 := 1).
  - now rewrite length_map, length_seq.
  - intros i Hi. rewrite length_map, length_seq in Hi.
    rewrite map_nth_in with (d := 0) by now rewrite length_seq.
    rewrite seq_nth by auto. simpl.
    destruct (Nat.eqb_spec (nth i s 1) 1) as [->|Hne]; [lia|].
    destruct (Hf i Hi) as [H1|H1]; [contradiction|]. rewrite H1.
    apply coord_lt. apply size_pos_dims. lia.
Qed.

Lemma broadcast_pos_lt t s p :
  fits s t -> p < size_of t -> broadcast_pos t s p < size_of s.
Proof.
  intros Hf Hp. rewrite broadcast_pos_same_rank by apply Hf.
  apply ravel_lt. now apply broadcast_index_ok.
Qed.

Lemma broadcast_pos_coord t s p j :
  fits s t -> p < size_of t -> j < length s ->
  coord s j (broadcast_pos t s p)
  = if nth j s 1 =? 1 then 0 else coord t j p.
Proof.
  intros Hf Hp Hj. rewrite broadcast_pos_same_rank by apply Hf.
  rewrite coord_ravel by (auto using broadcast_index_ok).
  rewrite map_nth_in with (d := 0) by now rewrite length_seq.
  now rewrite seq_nth.
Qed.

(** Broadcasting in two steps pairs the entries as broadcasting at once. *)
Lemma broadcast_pos_compose a s t p :
  fits a s -> fits s t -> p < size_of t ->
  broadcast_pos s a (broadcast_pos t s p) = broadcast_pos t a p.
Proof.
  intros Has Hst Hp.
  assert (Hat : length a = length t) by (destruct Has, Hst; congruence).
  rewrite (broadcast_pos_same_rank s a) by apply Has.
  rewrite (broadcast_pos_same_rank t a) by exact Hat.
  f_equal. apply map_ext_in. intros j Hj. apply in_seq in Hj.
  destruct (Nat.eqb_spec (nth j a 1) 1) as [|Hne]; auto.
  destruct Has as (Hl & Hf).
  rewrite broadcast_pos_coord by (auto; lia).
  destruct (Hf j ltac:(lia)) as [H1|H1]; [contradiction|].
  rewrite <- H1. apply Nat.eqb_neq in Hne. now rewrite Hne.
Qed.

Lemma broadcast_same_map (f g h : nat -> nat) l :
  (forall j, In j l ->
     (f j = g j /\ h j = f j) \/ (f j = 1 /\ h j = g j) \/ (g j = 1 /\ h j = f j)) ->
  broadcast_same (map f l) (map g l) = Some (map h l).
Proof.
  induction l as [|j l IH]; intros H; simpl; auto.
  rewrite IH by (intros; apply H; simpl; auto).
  destruct (H j ltac:(simpl; auto)) as [(E & ->)|[(E & ->)|(E & ->)]].
  - rewrite E, Nat.eqb_refl. reflexivity.
  - rewrite E. destruct (Nat.eqb_spec 1 (g j)) as [<-|_]; reflexivity.
  - rewrite E. destruct (Nat.eqb_spec (f j) 1) as [->|_]; [reflexivity|].
    destruct (f j =? 1); reflexivity.
Qed.

Lemma broadcast_shape_same_rank a b :
  length a = length b -> broadcast_shape a b = broadcast_same a b.
Proof.
  intros Hl. unfold broadcast_shape, pad_shape.
  rewrite Hl, Nat.max_id, Nat.sub_diag. reflexivity.
Qed.

End BroadcastFacts.

Section PrefixFacts.

Lemma length_prefix_shape st k : length (prefix_shape st k) = length st.
Proof. unfold prefix_shape. now rewrite length_map, length_seq. Qed.

Lemma nth_prefix_shape st k j :
  j < length st ->
  nth j (prefix_shape st k) 1 = if j <? k then nth j st 1 else 1.
Proof.
  intros Hj. unfold prefix_shape.
  rewrite map_nth_in with (d := 0) by now rewrite length_seq.
  now rewrite seq_nth.
Qed.

Lemma prefix_shape_all st : prefix_shape st (length st) = st.
Proof.
  apply nth_ext with (d := 1) (d' := 1).
  - apply length_prefix_shape.
  - intros j Hj. rewrite length_prefix_shape in Hj.
    rewrite nth_prefix_shape by auto.
    apply Nat.ltb_lt in Hj. now rewrite Hj.
Qed.

Lemma map_ones {B} (f : B -> nat) l :
  (forall x, In x l -> f x = 1) -> map f l = repeat 1 (length l).
Proof.
  induction l as [|x l IH]; intros H; simpl; auto.
  rewrite H by (simpl; auto).
  rewrite IH by (intros; apply H; simpl; auto). reflexivity.
Qed.

Lemma prefix_shape_0 st : prefix_shape st 0 = repeat 1 (length st).
Proof.
  unfold prefix_shape. rewrite map_ones by reflexivity.
  now rewrite length_seq.
Qed.

Lemma size_of_repeat_1 n : size_of (repeat 1 n) = 1.
Proof. induction n; simpl; auto. fold (size_of (repeat 1 n)). lia. Qed.

Lemma unit_shape_first n0 st :
  unit_shape (n0 :: st) 0 = n0 :: repeat 1 (length st).
Proof.
  unfold unit_shape. cbn [length seq map Nat.eqb nth]. f_equal.
  rewrite map_ones.
  - now rewrite length_seq.
  - intros j Hj. apply in_seq in Hj. destruct j; [lia|reflexivity].
Qed.

Lemma unit_shape_later n0 st d :
  unit_shape (n0 :: st) (S d) = 1 :: unit_shape st d.
Proof.
  unfold unit_shape. cbn [length seq map Nat.eqb]. f_equal.
  rewrite <- seq_shift, map_map. apply map_ext. intros j.
  reflexivity.
Qed.

Lemma prefix_fits_next st k : fits (prefix_shape st k) (prefix_shape st (S k)).
Proof.
  split; [now rewrite !length_prefix_shape|].
  intros j Hj. rewrite length_prefix_shape in Hj.
  rewrite !nth_prefix_shape by auto.
  destruct (Nat.ltb_spec j k), (Nat.ltb_spec j (S k)); auto; lia.
Qed.

Lemma prefix_fits st k : fits (prefix_shape st k) st.
Proof.
  split; [apply length_prefix_shape|].
  intros j Hj. rewrite length_prefix_shape in Hj.
  rewrite nth_prefix_shape by auto. destruct (j <? k); auto.
Qed.

Lemma unit_fits_prefix st k :
  k < length st -> fits (unit_shape st k) (prefix_shape st (S k)).
Proof.
  intros Hk. split; [now rewrite length_unit_shape, length_prefix_shape|].
  intros j Hj. rewrite length_unit_shape in Hj.
  rewrite nth_unit_shape, nth_prefix_shape by auto.
  destruct (Nat.eqb_spec j k) as [->|Hne]; auto.
  right. destruct (Nat.ltb_spec k (S k)); auto; lia.
Qed.

Lemma fits_refl st : fits st st.
Proof. split; auto. Qed.

Lemma broadcast_prefix_unit st k :
  k < length st ->
  broadcast_shape (prefix_shape st k) (unit_shape st k)
  = Some (prefix_shape st (S k)).
Proof.
  intros Hk.
  rewrite broadcast_shape_same_rank
    by now rewrite length_prefix_shape, length_unit_shape.
  unfold prefix_shape, unit_shape. apply broadcast_same_map.
  intros j Hj.
  destruct (Nat.ltb_spec j k), (Nat.eqb_spec j k), (Nat.ltb_spec j (S k));
    subst; try lia; auto.
Qed.

Lemma broadcastable_refl st : broadcastable st st = true.
Proof.
  unfold broadcastable. rewrite Nat.leb_refl, Nat.sub_diag. simpl.
  apply forallb_forall. intros j _. rewrite Nat.eqb_refl. apply orb_true_r.
Qed.

Lemma firstn_skipn_one {A} (l : list A) p d :
  p < length l -> firstn 1 (skipn p l) = [nth p l d].
Proof.
  revert p; induction l as [|x l IH]; intros [|p] Hp; simpl in *; try lia; auto.
  apply IH. lia.
Qed.

Lemma nth_map_seq {B} (f : nat -> B) n q d :
  q < n -> nth q (map f (seq 0 n)) d = f q.
Proof.
  intros Hq. rewrite map_nth_in with (d := 0) by now rewrite length_seq.
  now rewrite seq_nth.
Qed.

End PrefixFacts.

Section IsotropicFacts.
Context {F : Type} {NF : Numeric F}.
Variable fsin : F -> F.

Lemma locate_nil sh acc :
  locate (F := F) sh [] acc = Ok (acc * size_of sh, size_of sh).
Proof. destruct sh; reflexivity. Qed.

Lemma scratch_first n0 st (w0 : ndarray F) row :
  shape w0 = unit_shape (n0 :: st) 0 -> wf_nd w0 -> row < n0 ->
  Transfer.getitem_nd (F := F) w0 [row]
  = Ok (mkNd (prefix_shape st 0) [nth row (elems w0) fzero]).
Proof.
  intros Hs Hwf Hrow. unfold Transfer.getitem_nd.
  unfold wf_nd in Hwf. rewrite Hs, unit_shape_first in *.
  rewrite size_of_cons, size_of_repeat_1 in Hwf.
  cbn [locate]. apply Nat.ltb_lt in Hrow. rewrite Hrow.
  rewrite locate_nil. cbn [bind fst snd length skipn]. rewrite size_of_repeat_1.
  rewrite prefix_shape_0. f_equal. f_equal.
  cbn [Nat.mul Nat.add]. rewrite Nat.mul_1_r.
  apply firstn_skipn_one. apply Nat.ltb_lt in Hrow. lia.
Qed.

Lemma getitem_nd_leading (wi : ndarray F) u :
  shape wi = 1 :: u -> wf_nd wi ->
  Transfer.getitem_nd (F := F) wi [0] = Ok (mkNd u (elems wi)).
Proof.
  intros Hs Hwf. unfold Transfer.getitem_nd, wf_nd in *. rewrite Hs in *.
  rewrite size_of_cons in Hwf.
  cbn [locate Nat.ltb Nat.leb]. rewrite locate_nil.
  cbn [bind fst snd length skipn Nat.mul Nat.add].
  f_equal. f_equal. apply firstn_all2. lia.
Qed.

Lemma scratch_step st k (scr wi : ndarray F) (g : nat -> F) :
  k < length st ->
  shape wi = 1 :: unit_shape st k -> wf_nd wi ->
  shape scr = prefix_shape st k -> wf_nd scr ->
  (forall p, p < size_of st ->
     nth (broadcast_pos st (shape scr) p) (elems scr) fzero = g p) ->
  exists scr',
    (wi0 <- Transfer.getitem_nd (F := F) wi [0] ;; add_nd scr (square_nd wi0))
    = Ok scr'
    /\ shape scr' = prefix_shape st (S k) /\ wf_nd scr'
    /\ forall p, p < size_of st ->
         nth (broadcast_pos st (shape scr') p) (elems scr') fzero
         = (g p + (let x := nth (coord st k p) (elems wi) fzero in x * x))%num.
Proof.
  intros Hk Hs Hwf Hss Hswf Hg.
  rewrite (getitem_nd_leading wi (unit_shape st k) Hs Hwf). cbn [bind].
  unfold add_nd, square_nd. cbn [shape elems].
  rewrite Hss, broadcast_prefix_unit by auto.
  eexists. split; [reflexivity|]. cbn [shape elems].
  split; [reflexivity|]. split.
  { unfold wf_nd. cbn [shape elems]. now rewrite length_map, length_seq. }
  intros p Hp.
  pose proof (broadcast_pos_lt st (prefix_shape st (S k)) p
                (prefix_fits st (S k)) Hp) as Hq.
  rewrite nth_map_seq by exact Hq.
  rewrite (broadcast_pos_compose _ _ _ p (prefix_fits_next st k)
             (prefix_fits st (S k)) Hp).
  rewrite (broadcast_pos_compose _ _ _ p (unit_fits_prefix st k Hk)
             (prefix_fits st (S k)) Hp).
  rewrite <- Hss, Hg by auto. f_equal.
  rewrite broadcast_pos_along by auto.
  rewrite map_nth_in with (d := fzero); [reflexivity|].
  unfold wf_nd in Hwf. rewrite Hwf, Hs, size_of_cons, size_of_unit_shape by auto.
  rewrite Nat.mul_1_l. apply coord_lt. apply size_pos_dims. lia.
Qed.

Lemma scratch_loop st (ws : list (ndarray F)) :
  forall k (scr : ndarray F) (g : nat -> F),
    k + length ws = length st ->
    (forall i wi, nth_error ws i = Some wi ->
                  shape wi = 1 :: unit_shape st (k + i) /\ wf_nd wi) ->
    shape scr = prefix_shape st k -> wf_nd scr ->
    (forall p, p < size_of st ->
       nth (broadcast_pos st (shape scr) p) (elems scr) fzero = g p) ->
    exists scr',
      fold_left (fun acc wi =>
                   scratch <- acc ;;
                   wi0 <- Transfer.getitem_nd (F := F) wi [0] ;;
                   add_nd scratch (square_nd wi0))
                ws (Ok scr) = Ok scr'
      /\ shape scr' = st /\ wf_nd scr'
      /\ forall p, p < size_of st ->
           nth (broadcast_pos st (shape scr') p) (elems scr') fzero
           = fold_left fadd
               (map (fun iw =>
                       let x := nth (coord st (k + fst iw) p) (elems (snd iw)) fzero in
                       (x * x)%num)
                    (combine (seq 0 (length ws)) ws))
               (g p).
Proof.
  induction ws as [|wi ws IH]; intros k scr g Hlen Hw Hss Hswf Hg.
  - simpl in *. exists scr. rewrite Nat.add_0_r in Hlen. subst k.
    rewrite prefix_shape_all in Hss. auto.
  - simpl in Hlen. cbn [fold_left bind].
    destruct (Hw 0 wi eq_refl) as (Hs & Hwf). rewrite Nat.add_0_r in Hs.
    destruct (scratch_step st k scr wi g ltac:(lia) Hs Hwf Hss Hswf Hg)
      as (scr1 & -> & Hs1 & Hwf1 & Hg1).
    destruct (IH (S k) scr1
                (fun p => (g p + (let x := nth (coord st k p) (elems wi) fzero in
                                  x * x))%num))
      as (scr' & Hr & Hs' & Hwf' & Hg'); auto; try lia.
    { intros i wj Hi. specialize (Hw (S i) wj Hi).
      now rewrite Nat.add_succ_r in Hw. }
    exists scr'. repeat split; auto.
    intros p Hp. rewrite Hg' by auto.
    cbn [length seq combine map fold_left fst snd]. rewrite Nat.add_0_r.
    f_equal. rewrite combine_seq_shift, map_map.
    apply map_ext. intros [i wj]. cbn [fst snd]. now rewrite Nat.add_succ_r.
Qed.

(** The array [scratch] of a row has the shape of the row and holds, for
    every entry of the row, the sum of the squared frequencies. *)
Lemma iso_scratch_spec n0 st (w : list (ndarray F)) row :
  per_axis (n0 :: st) w -> row < n0 ->
  exists scr,
    Power.iso_scratch w row = Ok scr
    /\ shape scr = st /\ wf_nd scr
    /\ forall q, q < size_of st ->
         nth (broadcast_pos st st q) (elems scr) fzero = iso_sum w st row q.
Proof.
  intros (Hlen & Hal) Hrow. destruct w as [|w0 rest]; [discriminate|].
  simpl in Hlen. unfold Power.iso_scratch.
  destruct (Hal 0 w0 eq_refl) as (Hs0 & Hwf0).
  rewrite (scratch_first n0 st w0 row Hs0 Hwf0 Hrow). cbn [bind].
  destruct (scratch_loop st rest 0
              (square_nd (mkNd (prefix_shape st 0) [nth row (elems w0) fzero]))
              (fun _ => let x := nth row (elems w0) fzero in (x * x)%num))
    as (scr & Hr & Hs & Hwf & Hg); try reflexivity; try lia.
  - intros i wi Hi. destruct (Hal (S i) wi Hi) as (Hsi & Hwfi).
    rewrite unit_shape_later in Hsi. auto.
  - unfold wf_nd, square_nd. cbn [shape elems map length].
    now rewrite prefix_shape_0, size_of_repeat_1.
  - intros p Hp. unfold square_nd. cbn [shape elems map].
    pose proof (broadcast_pos_lt st (prefix_shape st 0) p (prefix_fits st 0) Hp)
      as Hq.
    rewrite prefix_shape_0, size_of_repeat_1 in Hq.
    rewrite prefix_shape_0.
    destruct (broadcast_pos st (repeat 1 (length st)) p); [reflexivity|lia].
  - exists scr. repeat split; auto.
    intros q Hq. rewrite <- Hs at 2. rewrite Hg by auto. reflexivity.
Qed.

End IsotropicFacts.

Section IsotropicRows.
Context {F : Type} {NF : Numeric F}.
Variable fsin : F -> F.

Lemma row_position S r row q :
  q < S ->
  ((r * S <=? row * S + q) && (row * S + q <? r * S + S)) = (row =? r).
Proof.
  intros Hq. destruct (Nat.eqb_spec row r) as [->|Hne].
  - apply andb_true_iff. split; [apply Nat.leb_le|apply Nat.ltb_lt]; lia.
  - apply andb_false_iff.
    destruct (Nat.lt_ge_cases row r) as [Hlt|Hge].
    + left. apply Nat.leb_gt. nia.
    + right. apply Nat.ltb_ge. nia.
Qed.

Lemma imul_row_spec n0 st (field : ndarray (@Transfer.complex F)) r
    (tmp : ndarray F) :
  shape field = n0 :: st -> wf_nd field -> r < n0 -> shape tmp = st ->
  exists out,
    Power.imul_row field r tmp = Ok out
    /\ shape out = shape field
    /\ length (elems out) = length (elems field)
    /\ forall row q, row < n0 -> q < size_of st ->
         nth (row * size_of st + q) (elems out) Transfer.czero
         = if row =? r
           then Power.cmul (nth (row * size_of st + q) (elems field) Transfer.czero)
                  (nth (broadcast_pos st st q) (elems tmp) fone)
           else nth (row * size_of st + q) (elems field) Transfer.czero.
Proof.
  intros Hs Hwf Hr Ht. unfold Power.imul_row. rewrite Hs, Ht.
  cbn [locate]. apply Nat.ltb_lt in Hr. rewrite Hr, locate_nil.
  cbn [bind fst snd skipn Nat.mul Nat.add]. rewrite broadcastable_refl.
  eexists. split; [reflexivity|]. cbn [shape elems].
  split; [auto|]. split; [apply indexed_map_length|].
  intros row q Hrow Hq.
  assert (Hp : row * size_of st + q < length (elems field)).
  { unfold wf_nd in Hwf. rewrite Hwf, Hs, size_of_cons. nia. }
  rewrite indexed_map_nth with (d := Transfer.czero) by exact Hp.
  cbn [fst snd]. rewrite row_position by exact Hq.
  destruct (Nat.eqb_spec row r) as [->|Hne]; [|reflexivity].
  replace (r * size_of st + q - r * size_of st) with q by lia.
  reflexivity.
Qed.

Lemma iso_rows_spec n0 st (w : list (ndarray F)) :
  per_axis (n0 :: st) w ->
  forall rows (field : ndarray (@Transfer.complex F)),
    shape field = n0 :: st -> wf_nd field ->
    Forall (fun r => r < n0) rows -> NoDup rows ->
    exists out,
      Power.iso_rows fsin w rows field = Ok out
      /\ shape out = shape field
      /\ length (elems out) = length (elems field)
      /\ forall row q, row < n0 -> q < size_of st ->
           (In row rows ->
            nth (row * size_of st + q) (elems out) Transfer.czero
            = Power.cmul (nth (row * size_of st + q) (elems field) Transfer.czero)
                (Power.iso_kernel fsin (iso_sum w st row q)))
           /\ (~ In row rows ->
               nth (row * size_of st + q) (elems out) Transfer.czero
               = nth (row * size_of st + q) (elems field) Transfer.czero).
Proof.
  intros Hal rows. induction rows as [|r rows IH]; intros field Hs Hwf Hlt Hnd.
  - exists field. simpl. repeat split; auto. contradiction.
  - inversion Hlt as [|? ? Hr Hlt']; subst. inversion Hnd as [|? ? Hnot Hnd']; subst.
    cbn [Power.iso_rows].
    destruct (iso_scratch_spec n0 st w r Hal Hr) as (scr & -> & Hss & Hswf & Hg).
    cbn [bind].
    destruct (imul_row_spec n0 st field r
                (mkNd (shape scr) (map (Power.iso_kernel fsin) (elems scr)))
                Hs Hwf Hr Hss) as (f1 & -> & Hs1 & Hl1 & Hn1).
    cbn [bind].
    destruct (IH f1) as (out & Ho & Hso & Hlo & Hno); auto;
      try (unfold wf_nd in *; congruence).
    exists out. split; [exact Ho|]. split; [congruence|]. split; [congruence|].
    intros row q Hrow Hq. destruct (Hno row q Hrow Hq) as (Hin & Hout).
    specialize (Hn1 row q Hrow Hq). cbn [elems] in Hn1.
    assert (Hk : nth (broadcast_pos st st q)
                     (map (Power.iso_kernel fsin) (elems scr)) fone
                 = Power.iso_kernel fsin (iso_sum w st r q)).
    { rewrite map_nth_in with (d := fzero).
      - now rewrite Hg.
      - unfold wf_nd in Hswf. rewrite Hswf, Hss.
        apply broadcast_pos_lt; [apply fits_refl|exact Hq]. }
    split.
    + intros [<-|Hi].
      * rewrite Hout by exact Hnot. rewrite Hn1, Nat.eqb_refl. now rewrite Hk.
      * rewrite Hin by exact Hi. rewrite Hn1.
        destruct (Nat.eqb_spec row r) as [->|_]; [contradiction|reflexivity].
    + intros Hni. rewrite Hout by (intros Hi; apply Hni; now right).
      rewrite Hn1. destruct (Nat.eqb_spec row r) as [->|_]; [|reflexivity].
      elim Hni. now left.
Qed.

End IsotropicRows.

(** X18. [IsotropicCIC] of power.py, for a field of rank one or more and
    one frequency array along each of its axes: it returns, keeps the
    shape, and multiplies the entry at position [q] of row [row] by
    [(1 - 0.666666667 sin^2(s/2))^0.5], where [s] is the square of the
    frequency of the row on axis 0 plus, in turn, the squares of the
    frequencies of the entry on the other axes. *)
Theorem X18_IsotropicCIC (F : Type) (NF : Numeric F) (fsin : F -> F)
    (field : ndarray (@Transfer.complex F)) (w : list (ndarray F)) n0 st :
  shape field = n0 :: st -> wf_nd field -> per_axis (shape field) w ->
  exists out,
    Power.IsotropicCIC fsin field w = Ok out
    /\ shape out = shape field
    /\ length (elems out) = length (elems field)
    /\ forall row q, row < n0 -> q < size_of st ->
         nth (row * size_of st + q) (elems out) Transfer.czero
         = Power.cmul (nth (row * size_of st + q) (elems field) Transfer.czero)
             (Power.iso_kernel fsin (iso_sum w st row q)).
Proof.
  intros Hs Hwf Hal. unfold Power.IsotropicCIC. rewrite Hs in *.
  destruct (iso_rows_spec fsin n0 st w Hal (seq 0 n0) field Hs Hwf)
    as (out & Ho & Hso & Hlo & Hn).
  - apply Forall_forall. intros r Hr. apply in_seq in Hr. lia.
  - apply seq_NoDup.
  - exists out. split; [exact Ho|]. split; [congruence|]. split; [exact Hlo|].
    intros row q Hrow Hq. apply (Hn row q Hrow Hq). apply in_seq. lia.
Qed.

Lemma X18_IsotropicCIC_witness :
  exists out,
    Power.IsotropicCIC sin Examples11.field Examples11.w = Ok out
    /\ shape out = shape Examples11.field
    /\ length (elems out) = length (elems Examples11.field)
    /\ forall row q, row < 2 -> q < size_of [2] ->
         nth (row * size_of [2] + q) (elems out) Transfer.czero
         = Power.cmul
             (nth (row * size_of [2] + q) (elems Examples11.field) Transfer.czero)
             (Power.iso_kernel sin (iso_sum Examples11.w [2] row q)).
Proof.
  apply (X18_IsotropicCIC R exact_real sin Examples11.field Examples11.w 2 [2]).
  - reflexivity.
  - reflexivity.
  - layout_by_cases.
Defined.

Section IsotropicReal.
Local Open Scope R_scope.

Lemma c0666666667_real : @Power.c0666666667 R exact_real = 0.666666667.
Proof.
  unfold Power.c0666666667. cbn [fof_nat fadd fmul fdiv exact_real].
  rewrite !INR_IZR_INZ.
  change (Z.of_nat 1000) with 1000%Z. change (Z.of_nat 666) with 666%Z.
  change (Z.of_nat 667) with 667%Z. lra.
Qed.

Lemma iso_kernel_bounds (x : R) :
  sqrt (1 - 0.666666667) <= Power.iso_kernel sin x <= 1.
Proof.
  unfold Power.iso_kernel. rewrite c0666666667_real.
  cbn [fone fsub fmul fsqrt fhalf exact_real].
  set (s := sin (x * / 2)).
  pose proof (SIN_bound (x * / 2)) as [Hlo Hhi]. fold s in Hlo, Hhi.
  assert (H0 : 0 <= s * s) by nra.
  assert (H1 : s * s <= 1) by nra.
  split.
  - apply sqrt_le_1_alt. lra.
  - rewrite <- sqrt_1 at 2. apply sqrt_le_1_alt. lra.
Qed.

End IsotropicReal.

(** X19. Over the real numbers [IsotropicCIC] multiplies every mode by
    a number between [(1 - 0.666666667)^0.5] and 1: it never makes the
    real or the imaginary part of a mode larger in absolute value (where
    [AnisotropicCIC] divides by such a number and never makes them
    smaller). *)
Theorem X19_IsotropicCIC_attenuates
    (field : ndarray (@Transfer.complex R)) (w : list (ndarray R)) n0 st :
  shape field = n0 :: st -> wf_nd field -> per_axis (shape field) w ->
  exists out,
    Power.IsotropicCIC sin field w = Ok out
    /\ forall p, p < length (elems field) ->
         exists t : R,
           (sqrt (1 - 0.666666667) <= t <= 1)%R
           /\ nth p (elems out) Transfer.czero
              = Power.cmul (nth p (elems field) Transfer.czero) t
           /\ (Rabs (fst (nth p (elems out) Transfer.czero))
               <= Rabs (fst (nth p (elems field) Transfer.czero)))%R
           /\ (Rabs (snd (nth p (elems out) Transfer.czero))
               <= Rabs (snd (nth p (elems field) Transfer.czero)))%R.
Proof.
  intros Hs Hwf Hal. unfold Power.IsotropicCIC. rewrite Hs in *.
  destruct (iso_rows_spec sin n0 st w Hal (seq 0 n0) field Hs Hwf)
    as (out & Ho & Hso & Hlo & Hn).
  { apply Forall_forall. intros r Hr. apply in_seq in Hr. lia. }
  { apply seq_NoDup. }
  exists out. split; [exact Ho|]. intros p Hp.
  unfold wf_nd in Hwf. rewrite Hs, size_of_cons in Hwf.
  assert (HS : 0 < size_of st) by (destruct (size_of st); lia).
  assert (Hrow : p / size_of st < n0).
  { apply Nat.Div0.div_lt_upper_bound. lia. }
  assert (Hq : p mod size_of st < size_of st) by (apply Nat.mod_upper_bound; lia).
  destruct (Hn _ _ Hrow Hq) as (Hin & _).
  specialize (Hin ltac:(apply in_seq; lia)).
  replace (p / size_of st * size_of st + p mod size_of st) with p in Hin
    by (rewrite (Nat.div_mod_eq p (size_of st)) at 1; lia).
  set (t := Power.iso_kernel sin
              (iso_sum w st (p / size_of st) (p mod size_of st))) in *.
  assert (Ht : (sqrt (1 - 0.666666667) <= t <= 1)%R) by apply iso_kernel_bounds.
  exists t. split; [exact Ht|]. split; [exact Hin|].
  assert (Ht0 : (0 <= t)%R).
  { eapply Rle_trans; [apply sqrt_pos|apply Ht]. }
  assert (Hshrink : forall x : R, (Rabs (x * t) <= Rabs x)%R).
  { intros x. rewrite Rabs_mult, (Rabs_pos_eq t) by exact Ht0.
    pose proof (Rabs_pos x). nra. }
  rewrite Hin. destruct (nth p (elems field) Transfer.czero) as [a b].
  unfold Power.cmul. cbn [fst snd]. split; apply Hshrink.
Qed.

Lemma X19_IsotropicCIC_attenuates_witness :
  exists out,
    Power.IsotropicCIC sin Examples11.field Examples11.w = Ok out
    /\ forall p, p < length (elems Examples11.field) ->
         exists t : R,
           (sqrt (1 - 0.666666667) <= t <= 1)%R
           /\ nth p (elems out) Transfer.czero
              = Power.cmul (nth p (elems Examples11.field) Transfer.czero) t
           /\ (Rabs (fst (nth p (elems out) Transfer.czero))
               <= Rabs (fst (nth p (elems Examples11.field) Transfer.czero)))%R
           /\ (Rabs (snd (nth p (elems out) Transfer.czero))
               <= Rabs (snd (nth p (elems Examples11.field) Transfer.czero)))%R.
Proof.
  apply (X19_IsotropicCIC_attenuates Examples11.field Examples11.w 2 [2]).
  - reflexivity.
  - reflexivity.
  - layout_by_cases.
Defined.

(** ** Columns by name *)

Section GetAttrFacts.
Context {F : Type} {NF : Numeric F}.

Lemma existsb_eqb_In (name : string) l :
  existsb (String.eqb name) l = true <-> In name l.
Proof.
  rewrite existsb_exists. split.
  - intros (x & Hx & E). apply String.eqb_eq in E. now subst.
  - intros H. exists name. split; auto. apply String.eqb_refl.
Qed.

Lemma lookup_absent {V} (d : list (string * V)) k :
  ~ In k (map fst d) -> lookup k d = None.
Proof.
  unfold lookup. induction d as [|kv d IH]; simpl; intros H; auto.
  destruct (String.eqb (fst kv) k) eqn:E.
  - apply String.eqb_eq in E. tauto.
  - apply IH. tauto.
Qed.

End GetAttrFacts.

(** X20. A column is reached by its name: [pk[name]] and the attribute
    lookup [__getattr__] both return the whole column with the mask of the
    table; a name that is no column is a [KeyError] from [__getitem__] and
    an [AttributeError] from [__getattr__]. *)
Theorem X20_columns_by_name (F : Type) (NF : Numeric F)
    ke mue dat fim kw (pk : PkmuResult F) :
  __init__ ke mue dat fim kw = Ok pk ->
  plain_keywords kw -> NoDup (map fst dat) ->
  (forall name col, In (name, col) dat ->
     __getitem__ pk (KField name)
     = Ok (mkView [(name, VMatrix col)] (VMatrix (mrec_mask (data pk))))
     /\ __getattr__ pk name
        = AttrOk (mkView [(name, VMatrix col)] (VMatrix (mrec_mask (data pk)))))
  /\ (forall name, ~ In name (map fst dat) ->
        (exists e, __getitem__ pk (KField name) = Raise e /\ exn_cls e = KeyError)
        /\ __getattr__ pk name
           = AttributeError "type object 'object' has no attribute '__getattr__'").
Proof.
  intros Hinit _ Hnd.
  destruct (@init_inv F NF ke mue dat fim kw pk Hinit) as (mask & -> & _).
  split.
  - intros name col Hin.
    assert (Hl : lookup name dat = Some col) by now apply lookup_In.
    split.
    + unfold __getitem__, getitem_body, mrec_getitem. cbn [data fields mrec_mask].
      rewrite Hl. reflexivity.
    + unfold __getattr__, mrec_getitem. cbn [columns data fields mrec_mask].
      replace (existsb (String.eqb name) (map fst dat)) with true.
      * rewrite Hl. reflexivity.
      * symmetry. apply existsb_eqb_In. apply in_map_iff. exists (name, col). auto.
  - intros name Hni. split.
    + unfold __getitem__, getitem_body, mrec_getitem. cbn [data fields mrec_mask].
      rewrite lookup_absent by exact Hni. cbn [try_except raise].
      eexists. split; reflexivity.
    + unfold __getattr__. cbn [columns].
      destruct (existsb (String.eqb name) (map fst dat)) eqn:E; [|reflexivity].
      apply existsb_eqb_In in E. contradiction.
Qed.

Lemma X20_columns_by_name_witness :
  exists pk,
    Examples3.pk = Ok pk
    /\ __getattr__ pk "modes"
       = AttrOk (mkView [("modes"%string, VMatrix (mk2 2 2 [2; 0; 6; 8]%float))]
                   (VMatrix (mrec_mask (data pk))))
    /\ __getattr__ pk "volume"
       = AttributeError "type object 'object' has no attribute '__getattr__'".
Proof.
  destruct Examples3.pk as [pk|e] eqn:E; [|vm_compute in E; discriminate].
  exists pk. split; [reflexivity|].
  destruct (X20_columns_by_name float binary64 [0; 1; 2]%float [0; 0.5; 1]%float
              Examples3.dat true Examples3.meta pk E) as (H1 & H2).
  { plain_by_cases. }
  { repeat constructor; simpl; intuition discriminate. }
  split.
  - apply (H1 "modes"%string (mk2 2 2 [2; 0; 6; 8]%float)). simpl. auto.
  - apply H2. simpl. intuition discriminate.
Defined.
